(** * The video block: source classification and modal playback

    A shallow embedding of [blocks/video/video.js].

    - The two pure URL functions, [getVideoType] and [getYouTubeId], run the
      regular expressions of the file on a small backtracking matcher
      (leftmost match, alternatives in order, greedy quantifiers). Strings
      are sequences of characters as a serialised URL has them.
    - The stateful part, [toggleVideoOverlay], [loadYouTubePlayer],
      [decorateVideoLink], [buildVideoModal] and [decorate], runs on a DOM
      tree whose elements carry an identity. The page state holds the
      document, [window.YT], [window.onYouTubePlayerAPIReady], the module
      variable [player], and a trace of what the page does to the outside
      world (script fetches and calls on the player). A computation returns
      or throws, and the state at the throw is kept, as the mutations made
      before a JavaScript exception are.
    - What the browser does for the program is kept apart from it: the URL
      a link resolves to, read by [a.href], is given by a [Browser], and
      the two [innerHTML] templates are given the tree the HTML parser
      builds when the interpolated string is [attribute_safe].

    The definitions come first, the properties after them. *)

From Stdlib Require Import Ascii String.
From stdpp Require Import base option list strings.

Local Open Scope string_scope.

(** ** JavaScript values the file passes around

    [getVideoType] returns a key or [undefined], [getYouTubeId] a string or
    [null], [getAttribute] a string or [null]; template literals and
    [setAttribute] turn all of them into strings. *)

Inductive value :=
| VUndefined
| VNull
| VString (s : string).

Definition to_string (v : value) : string :=
  match v with
  | VUndefined => "undefined"
  | VNull => "null"
  | VString s => s
  end.

(** Strict equality [v === 'lit'] against a string literal. *)
Definition strict_eq_str (v : value) (lit : string) : bool :=
  match v with
  | VString s => String.eqb s lit
  | _ => false
  end.

(** ** Regular expressions

    The fragment of the JavaScript pattern language that the source uses:
    literal characters, character classes (plain and negated), sequence,
    alternation, the greedy quantifiers [?] and [+], and one capturing
    group. *)

Module Regex.

Inductive regex :=
| Eps
| Lit (c : ascii)
| CharSet (negated : bool) (cs : list ascii)
| Seq (r1 r2 : regex)
| Alt (r1 r2 : regex)
| Opt (r : regex)
| Plus (r : regex)
| Cap (r : regex).

(** [/abc/]: a pattern that is a run of literal characters. *)
Fixpoint lits (w : string) : regex :=
  match w with
  | EmptyString => Eps
  | String c w' => Seq (Lit c) (lits w')
  end.

Definition in_set (c : ascii) (cs : list ascii) : bool :=
  existsb (Ascii.eqb c) cs.

Definition class_ok (negated : bool) (cs : list ascii) (c : ascii) : bool :=
  if negated then negb (in_set c cs) else in_set c cs.

(** The part of [s] consumed when the rest is [s']. *)
Fixpoint stake (n : nat) (s : string) : string :=
  match n, s with
  | S n', String c s' => String c (stake n' s')
  | _, _ => EmptyString
  end.

Fixpoint sdrop (n : nat) (s : string) : string :=
  match n, s with
  | S n', String _ s' => sdrop n' s'
  | _, _ => s
  end.

Definition consumed (s s' : string) : string :=
  stake (String.length s - String.length s') s.

Section Matcher.
Context {R : Type}.

(** A continuation receives the rest of the input and the capture. *)
Definition cont := string -> option string -> option R.

(** Backtracking matcher anchored at the start of [s]: alternatives are
    tried left to right, quantifiers are greedy, and a failing
    continuation makes the matcher try its next choice. *)
Fixpoint m (r : regex) (s : string) (cap : option string) (k : cont)
  : option R :=
  match r with
  | Eps => k s cap
  | Lit c =>
      match s with
      | String c' s' => if Ascii.eqb c' c then k s' cap else None
      | EmptyString => None
      end
  | CharSet neg cs =>
      match s with
      | String c' s' => if class_ok neg cs c' then k s' cap else None
      | EmptyString => None
      end
  | Seq r1 r2 => m r1 s cap (fun s1 c1 => m r2 s1 c1 k)
  | Alt r1 r2 =>
      match m r1 s cap k with
      | Some x => Some x
      | None => m r2 s cap k
      end
  | Opt r1 =>
      match m r1 s cap k with
      | Some x => Some x
      | None => k s cap
      end
  | Plus r1 =>
      (fix loop (fuel : nat) (s0 : string) (c0 : option string)
         : option R :=
         m r1 s0 c0 (fun s1 c1 =>
           match fuel with
           | O => k s1 c1
           | S fuel' =>
               if Nat.ltb (String.length s1) (String.length s0) then
                 match loop fuel' s1 c1 with
                 | Some x => Some x
                 | None => k s1 c1
                 end
               else k s1 c1
           end)) (String.length s) s cap
  | Cap r1 => m r1 s cap (fun s1 _ => k s1 (Some (consumed s s1)))
  end.
End Matcher.

(** One anchored attempt: the capture of the first successful path. *)
Definition match_here (r : regex) (s : string) : option (option string) :=
  m r s None (fun _ cap => Some cap).

(** [RegExp.prototype.exec] without flags: the leftmost start position at
    which the pattern matches. *)
Fixpoint exec (r : regex) (s : string) : option (option string) :=
  match match_here r s with
  | Some cap => Some cap
  | None =>
      match s with
      | EmptyString => None
      | String _ s' => exec r s'
      end
  end.

(** [r.test(s)] *)
Definition test (r : regex) (s : string) : bool :=
  match exec r s with Some _ => true | None => false end.

End Regex.

Import Regex.

(** ** [getVideoType] *)

(** [videoTypeMap], in insertion order (the order of [Object.entries]). *)
Definition videoTypeMap : list (string * list regex) :=
  [ ("youtube", [lits "youtube.com"; lits "youtu.be"]);
    ("external", [lits "vimeo.com"]) ].

Definition getVideoType (href : string) : value :=
  let videoEntry :=
    List.find (fun e => existsb (fun urlToCompare => test urlToCompare href) (snd e))
              videoTypeMap in
  match videoEntry with
  | Some e => VString (fst e)
  | None => VUndefined
  end.

(** ** [getYouTubeId] *)

Definition LF : ascii := ascii_of_nat 10.

(** [/(?:[?&]v=|\/embed\/|\/1\/|\/v\/|https:\/\/(?:www\.)?youtu\.be\/)([^&\n?#]+)/] *)
Definition ytExp : regex :=
  Seq (Alt (Seq (CharSet false ["?"; "&"]%char) (lits "v="))
      (Alt (lits "/embed/")
      (Alt (lits "/1/")
      (Alt (lits "/v/")
           (Seq (lits "https://") (Seq (Opt (lits "www.")) (lits "youtu.be/")))))))
      (Cap (Plus (CharSet true ["&"; LF; "?"; "#"]%char))).

(** [href.match(ytExp)] yields [[whole, group1]] or [null]; the array always
    has length 2, and [match[1]] is [undefined] when the group took no part
    in the match. *)
Definition getYouTubeId (href : string) : value :=
  match exec ytExp href with
  | Some (Some id) => VString id
  | Some None => VUndefined
  | None => VNull
  end.


(** ** The DOM

    Elements carry an identity [nid] (what a JavaScript reference to the
    element denotes), unique within a page and never changed by an
    operation; a reference held by a variable or a closure is that number.
    Tag and attribute names are kept lower-case, as an HTML document does. *)

Module Dom.

(** [() => toggleVideoOverlay(block)], the only listener the file installs;
    the closure holds the block. *)
Inductive handler :=
| ToggleVideoOverlay (block : nat).

Record element := mkElement {
  nid : nat;
  tag : string;
  classes : list string;                  (* classList *)
  attrs : list (string * string);         (* the other attributes *)
  paused : bool;                          (* HTMLMediaElement.paused *)
  currentTime : Z;                        (* HTMLMediaElement.currentTime *)
  listeners : list (string * handler);    (* addEventListener *)
}.

Local Unset Elimination Schemes.
Inductive node :=
| Text (s : string)
| El (e : element) (children : list node).
Local Set Elimination Schemes.

Definition lower_ascii (c : ascii) : ascii :=
  let n := nat_of_ascii c in
  if Nat.leb 65 n && Nat.leb n 90 then ascii_of_nat (n + 32) else c.

Fixpoint lower (s : string) : string :=
  match s with
  | EmptyString => EmptyString
  | String c s' => String (lower_ascii c) (lower s')
  end.

(** [document.createElement(tag)] with the given identity. *)
Definition new_element (n : nat) (t : string) : element :=
  {| nid := n; tag := lower t; classes := []; attrs := [];
     paused := true; currentTime := 0%Z; listeners := [] |}.

(** *** Element properties *)

Fixpoint assoc (k : string) (l : list (string * string)) : option string :=
  match l with
  | [] => None
  | (k', v) :: l' => if String.eqb k' k then Some v else assoc k l'
  end.

Fixpoint assoc_set (k v : string) (l : list (string * string))
  : list (string * string) :=
  match l with
  | [] => [(k, v)]
  | (k', v') :: l' =>
      if String.eqb k' k then (k, v) :: l' else (k', v') :: assoc_set k v l'
  end.

Definition has_class (c : string) (e : element) : bool :=
  existsb (String.eqb c) (classes e).

(** [e.getAttribute(name)]: the value, or [null]. *)
Definition getAttribute (name : string) (e : element) : value :=
  if String.eqb (lower name) "class" then
    match classes e with
    | [] => VNull
    | cs => VString (String.concat " " cs)
    end
  else
    match assoc (lower name) (attrs e) with
    | Some v => VString v
    | None => VNull
    end.

(** [e.setAttribute(name, v)]; the value is converted to a string. *)
Definition setAttribute (name : string) (v : value) (e : element) : element :=
  if String.eqb (lower name) "class" then
    {| nid := nid e; tag := tag e; classes := String.words (to_string v);
       attrs := attrs e; paused := paused e; currentTime := currentTime e;
       listeners := listeners e |}
  else
    {| nid := nid e; tag := tag e; classes := classes e;
       attrs := assoc_set (lower name) (to_string v) (attrs e);
       paused := paused e; currentTime := currentTime e;
       listeners := listeners e |}.

Definition set_classes (cs : list string) (e : element) : element :=
  {| nid := nid e; tag := tag e; classes := cs; attrs := attrs e;
     paused := paused e; currentTime := currentTime e;
     listeners := listeners e |}.

(** [e.classList.add(c)] *)
Definition classList_add (c : string) (e : element) : element :=
  if has_class c e then e else set_classes (classes e ++ [c]) e.

(** [e.classList.remove(c)] *)
Definition classList_remove (c : string) (e : element) : element :=
  set_classes (List.filter (fun c' => negb (String.eqb c c')) (classes e)) e.

(** [v.play()], [v.pause()], [v.currentTime = t] on a media element. *)
Definition set_media (p : bool) (t : Z) (e : element) : element :=
  {| nid := nid e; tag := tag e; classes := classes e; attrs := attrs e;
     paused := p; currentTime := t; listeners := listeners e |}.

Definition media_play (e : element) : element := set_media false (currentTime e) e.
Definition media_pause (e : element) : element := set_media true (currentTime e) e.
Definition media_seek (t : Z) (e : element) : element := set_media (paused e) t e.

(** [e.addEventListener(type, h)] *)
Definition addEventListener (type : string) (h : handler) (e : element)
  : element :=
  {| nid := nid e; tag := tag e; classes := classes e; attrs := attrs e;
     paused := paused e; currentTime := currentTime e;
     listeners := listeners e ++ [(type, h)] |}.

(** *** Selectors *)

Inductive simple :=
| STag (t : string)                  (* [video] *)
| SClass (c : string)                (* [.video-modal] *)
| STagClass (t c : string).          (* [button.video-modal-close] *)

Inductive selector :=
| Sel (s : simple)
| Desc (anc : simple) (s : simple).  (* [.video-image a] *)

Definition matches_simple (s : simple) (e : element) : bool :=
  match s with
  | STag t => String.eqb (tag e) t
  | SClass c => has_class c e
  | STagClass t c => String.eqb (tag e) t && has_class c e
  end.

(** [ancs] are the element's ancestors, nearest first. *)
Definition matches (s : selector) (ancs : list element) (e : element) : bool :=
  match s with
  | Sel s => matches_simple s e
  | Desc a s => matches_simple s e && existsb (matches_simple a) ancs
  end.

(** *** Trees *)

Definition is_node (x : nat) (n : node) : bool :=
  match n with
  | El e _ => Nat.eqb (nid e) x
  | Text _ => false
  end.

Definition is_element (n : node) : bool :=
  match n with El _ _ => true | Text _ => false end.

Definition children_of (n : node) : list node :=
  match n with El _ cs => cs | Text _ => [] end.

(** The elements of a tree in document order, each with its ancestors
    (nearest first) and its child nodes. *)
Fixpoint walk (n : node) (ancs : list element)
  : list (list element * element * list node) :=
  match n with
  | Text _ => []
  | El e cs => (ancs, e, cs) :: List.concat (List.map (fun c => walk c (e :: ancs)) cs)
  end.

(** The elements of a tree in document order. *)
Fixpoint elements (n : node) : list element :=
  match n with
  | Text _ => []
  | El e cs => e :: List.concat (List.map elements cs)
  end.

Definition upd (x : nat) (f : element -> element) (e : element) : element :=
  if Nat.eqb (nid e) x then f e else e.

(** Apply [f] to the element [x]. *)
Fixpoint update (x : nat) (f : element -> element) (n : node) : node :=
  match n with
  | Text s => Text s
  | El e cs => El (upd x f e) (List.map (update x f) cs)
  end.

(** Replace the child nodes of the element [x]. *)
Fixpoint set_children (x : nat) (new : list node) (n : node) : node :=
  match n with
  | Text s => Text s
  | El e cs =>
      if Nat.eqb (nid e) x then El e new
      else El e (List.map (set_children x new) cs)
  end.

(** Detach the element [x] from its parent. *)
Fixpoint remove_node (x : nat) (n : node) : node :=
  match n with
  | Text s => Text s
  | El e cs =>
      El e (List.concat
              (List.map (fun c => if is_node x c then []
                                  else [remove_node x c]) cs))
  end.

(** Insert [new] as the sibling just before the element [ref]. *)
Fixpoint insert_before (new : node) (ref : nat) (n : node) : node :=
  match n with
  | Text s => Text s
  | El e cs =>
      El e (List.concat
              (List.map (fun c => if is_node ref c then [new; c]
                                  else [insert_before new ref c]) cs))
  end.

Definition first {A} (l : list A) : option A :=
  match l with [] => None | a :: _ => Some a end.

Definition entry_nid (en : list element * element * list node) : nat :=
  nid (snd (fst en)).

Definition is_descendant_of (x : nat) (en : list element * element * list node)
  : bool :=
  existsb (fun a => Nat.eqb (nid a) x) (fst (fst en)).

(** The entry of the element [x]. *)
Definition entry (doc : node) (x : nat)
  : option (list element * element * list node) :=
  first (List.filter (fun en => Nat.eqb (entry_nid en) x) (walk doc [])).

(** The element [x] of the tree. *)
Definition lookup (doc : node) (x : nat) : option element :=
  (fun en => snd (fst en)) <$> entry doc x.

(** The subtree rooted at the element [x]. *)
Definition subtree (doc : node) (x : nat) : option node :=
  (fun en => El (snd (fst en)) (snd en)) <$> entry doc x.

(** [x.querySelector(sel)]: the first descendant of [x], in document order,
    that matches. *)
Definition querySelector (doc : node) (x : nat) (sel : selector)
  : option element :=
  (fun en => snd (fst en)) <$>
    first (List.filter
             (fun en => is_descendant_of x en
                        && matches sel (fst (fst en)) (snd (fst en)))
             (walk doc [])).

(** [document.getElementById(id)] *)
Definition getElementById (doc : node) (id : string) : option element :=
  (fun en => snd (fst en)) <$>
    first (List.filter
             (fun en => match assoc "id" (attrs (snd (fst en))) with
                        | Some v => String.eqb v id
                        | None => false
                        end)
             (walk doc [])).

(** [document.getElementsByTagName(t)[0]] *)
Definition firstByTagName (doc : node) (t : string) : option element :=
  (fun en => snd (fst en)) <$>
    first (List.filter (fun en => String.eqb (tag (snd (fst en))) t)
             (walk doc [])).

(** [x.parentElement]; the root element of the document has none. *)
Definition parentElement (doc : node) (x : nat) : option element :=
  entry doc x ≫= (fun en => first (fst (fst en))).

(** [x.closest(s)]: the nearest of [x] and its ancestors that matches. *)
Definition closest (doc : node) (x : nat) (s : simple) : option element :=
  entry doc x ≫=
    (fun en => first (List.filter (matches_simple s)
                        (snd (fst en) :: fst (fst en)))).

(** [x.parentNode.childElementCount]; the parent of the root element is the
    document, whose only element child is the root. *)
Definition parentNode_childElementCount (doc : node) (x : nat) : option nat :=
  entry doc x ≫=
    (fun en => match fst (fst en) with
               | [] => Some 1
               | p :: _ =>
                   (fun pn => length (List.filter is_element (snd pn)))
                     <$> entry doc (nid p)
               end).

Fixpoint prev_element (x : nat) (last : option element) (cs : list node)
  : option element :=
  match cs with
  | [] => None
  | c :: cs' =>
      if is_node x c then last
      else prev_element x (match c with El e _ => Some e | Text _ => last end) cs'
  end.

(** [x.previousElementSibling] *)
Definition previousElementSibling (doc : node) (x : nat) : option element :=
  match parentElement doc x with
  | Some p =>
      match entry doc (nid p) with
      | Some pn => prev_element x None (snd pn)
      | None => None
      end
  | None => None
  end.

(** [x.appendChild(new)] for a node [new] that is not in the tree. *)
Fixpoint append_child (x : nat) (new : node) (n : node) : node :=
  match n with
  | Text s => Text s
  | El e cs =>
      if Nat.eqb (nid e) x then El e (cs ++ [new])
      else El e (List.map (append_child x new) cs)
  end.

(** The URL parser of the browser. [resolve_url v] is what the page reads
    back for a link written as [v]: the text parsed against the base URL of
    the page and serialised (scheme and host in lower case, a relative path
    resolved, and so on), or [v] itself when it does not parse. What it
    gives is the browser's business and the page's; the program only reads
    the result. *)
Class Browser := { resolve_url : string -> string }.

(** [a.href]: the [href] attribute as the browser resolves it; the empty
    string when the attribute is missing. *)
Definition href {B : Browser} (e : element) : string :=
  match assoc "href" (attrs e) with
  | Some v => resolve_url v
  | None => ""
  end.

End Dom.

Import Dom.

(** ** Page state and effects *)

Inductive exn :=
| TypeError                 (* a property read or a call on [null]/[undefined] *)
| HierarchyRequestError.    (* a DOM insertion the tree does not allow *)

(** The object [new window.YT.Player(element, { videoId, ... })] returns. *)
Record player_obj := mkPlayer {
  p_element : string;
  p_videoId : value;
}.

(** What the page does to the outside world. *)
Inductive effect :=
| FetchScript (src : string)     (* a script element is connected to the page *)
| NewPlayer (p : player_obj)     (* [new window.YT.Player(...)] *)
| StopVideo (p : player_obj).    (* [player.stopVideo()] *)

Record state := mkState {
  document : node;                                (* the root element *)
  next_nid : nat;                                 (* identities not yet used *)
  window_YT : bool;                               (* [window.YT] is set *)
  window_onYouTubePlayerAPIReady : option value;  (* the closure, by the [videoId] it holds *)
  player : option player_obj;                     (* [let player] *)
  trace : list effect;
}.

Inductive outcome (A : Type) :=
| Returned (a : A) (st : state)
| Thrown (e : exn) (st : state).
Arguments Returned {A} a st.
Arguments Thrown {A} e st.

(** Computations that read and write the page and may throw. *)
Definition M (A : Type) : Type := state -> outcome A.

Definition ret {A} (a : A) : M A := fun st => Returned a st.

Definition bind {A B} (c : M A) (k : A -> M B) : M B :=
  fun st =>
    match c st with
    | Returned a st' => k a st'
    | Thrown e st' => Thrown e st'
    end.

Definition throw {A} (e : exn) : M A := fun st => Thrown e st.

Declare Scope dom_scope.
Delimit Scope dom_scope with dom.
Notation "x <- c1 ;; c2" := (bind c1 (fun x => c2))
  (at level 100, c1 at next level, right associativity) : dom_scope.
Notation "c1 ;; c2" := (bind c1 (fun _ => c2))
  (at level 100, right associativity) : dom_scope.
Local Open Scope dom_scope.

Definition get_document : M node := fun st => Returned (document st) st.

Definition set_document (d : node) (st : state) : state :=
  {| document := d; next_nid := next_nid st; window_YT := window_YT st;
     window_onYouTubePlayerAPIReady := window_onYouTubePlayerAPIReady st;
     player := player st; trace := trace st |}.

Definition modify_document (f : node -> node) : M unit :=
  fun st => Returned tt (set_document (f (document st)) st).

Definition fresh : M nat :=
  fun st =>
    Returned (next_nid st)
      {| document := document st; next_nid := S (next_nid st);
         window_YT := window_YT st;
         window_onYouTubePlayerAPIReady := window_onYouTubePlayerAPIReady st;
         player := player st; trace := trace st |}.

Definition emit (ev : effect) : M unit :=
  fun st =>
    Returned tt
      {| document := document st; next_nid := next_nid st;
         window_YT := window_YT st;
         window_onYouTubePlayerAPIReady := window_onYouTubePlayerAPIReady st;
         player := player st; trace := trace st ++ [ev] |}.

Definition get_YT : M bool := fun st => Returned (window_YT st) st.

Definition get_player : M (option player_obj) :=
  fun st => Returned (player st) st.

Definition set_player (p : player_obj) : M unit :=
  fun st =>
    Returned tt
      {| document := document st; next_nid := next_nid st;
         window_YT := window_YT st;
         window_onYouTubePlayerAPIReady := window_onYouTubePlayerAPIReady st;
         player := Some p; trace := trace st |}.

Definition set_onYouTubePlayerAPIReady (videoId : value) : M unit :=
  fun st =>
    Returned tt
      {| document := document st; next_nid := next_nid st;
         window_YT := window_YT st;
         window_onYouTubePlayerAPIReady := Some videoId;
         player := player st; trace := trace st |}.

(** ** The selectors and constants of the file *)

Definition selectors_videoModal : selector := Sel (SClass "video-modal").
Definition selectors_videoContent : selector := Sel (SClass "video-modal-content").

Definition iframe_api : string := "https://www.youtube.com/iframe_api".

(** [`ytFrame-${videoId}`] *)
Definition ytFrame (videoId : value) : string := "ytFrame-" ++ to_string videoId.

(** ** [loadYouTubePlayer]

    The constructor call is the program's only contact with the player; it
    throws when [window.YT] is not there. The [onReady] handler the call
    registers (play on ready) runs inside the SDK. *)
Definition loadYouTubePlayer (element : string) (videoId : value) : M unit :=
  yt <- get_YT;;
  if yt : bool then
    let p := {| p_element := element; p_videoId := videoId |} in
    emit (NewPlayer p);;
    set_player p
  else throw TypeError.


(** ** [toggleVideoOverlay]

    The [innerHTML] assignment of the open branch is modelled by the tree
    the HTML parser builds from the template when the video id is
    [attribute_safe]: one [div] with that id. For another video id the
    parser reads another id, or other elements, and the properties that
    speak of the container carry that hypothesis. *)
Definition toggleVideoOverlay (block : nat) : M unit :=
  doc <- get_document;;
  match querySelector doc block selectors_videoModal with
  | None => throw TypeError                 (* [modal.querySelector] on null *)
  | Some modal =>
  match querySelector doc (nid modal) selectors_videoContent with
  | None => throw TypeError                 (* [videoContent.getAttribute] on null *)
  | Some videoContent =>
  let videoType := getAttribute "data-videoType" videoContent in
  let videoId := getAttribute "data-videoId" videoContent in
  if has_class "open" modal then
    modify_document (update (nid modal) (classList_remove "open"));;
    if strict_eq_str videoType "youtube" then
      p <- get_player;;
      match p with
      | Some pl => emit (StopVideo pl)      (* [player?.stopVideo()] *)
      | None => ret tt
      end;;
      doc <- get_document;;
      match getElementById doc (ytFrame videoId) with
      | Some iFrame =>
          match parentElement doc (nid iFrame) with
          | Some container => modify_document (remove_node (nid iFrame))
          | None => throw TypeError         (* [container.removeChild] on null *)
          end
      | None => ret tt
      end
    else
      doc <- get_document;;
      match querySelector doc (nid modal) (Sel (STag "video")) with
      | Some video => modify_document (update (nid video) media_pause)
      | None => ret tt                      (* [?.pause()] *)
      end;;
      doc <- get_document;;
      match querySelector doc (nid modal) (Sel (STag "video")) with
      | Some video => modify_document (update (nid video) (media_seek 0))
      | None => throw TypeError             (* [.currentTime = 0] on null *)
      end
  else
    modify_document (update (nid modal) (classList_add "open"));;
    if strict_eq_str videoType "youtube" then
      n <- fresh;;
      let div :=
        setAttribute "data-hj-allow-iframe" (VString "true")
          (setAttribute "id" (VString (ytFrame videoId)) (new_element n "div")) in
      modify_document (set_children (nid videoContent) [El div []]);;
      yt <- get_YT;;
      if yt : bool then
        loadYouTubePlayer (ytFrame videoId) videoId
      else
        n <- fresh;;
        let tag := setAttribute "src" (VString iframe_api) (new_element n "script") in
        doc <- get_document;;
        match firstByTagName doc "script" with
        | None => throw TypeError           (* [firstScriptTag.parentNode] on undefined *)
        | Some firstScriptTag =>
            match parentElement doc (nid firstScriptTag) with
            | None => throw HierarchyRequestError   (* the parent is the document *)
            | Some _ =>
                modify_document (insert_before (El tag []) (nid firstScriptTag));;
                emit (FetchScript iframe_api)
            end
        end;;
        set_onYouTubePlayerAPIReady videoId
    else
      doc <- get_document;;
      match querySelector doc (nid modal) (Sel (STag "video")) with
      | Some video => modify_document (update (nid video) media_play)
      | None => ret tt                      (* [?.play()] *)
      end
  end end.

(** The SDK, once loaded, sets [window.YT] and calls the global
    [onYouTubePlayerAPIReady] if the page defined one. *)
Definition sdkReady : M unit :=
  fun st =>
    let st' :=
      {| document := document st; next_nid := next_nid st; window_YT := true;
         window_onYouTubePlayerAPIReady := window_onYouTubePlayerAPIReady st;
         player := player st; trace := trace st |} in
    match window_onYouTubePlayerAPIReady st with
    | Some videoId => loadYouTubePlayer (ytFrame videoId) videoId st'
    | None => Returned tt st'
    end.

(** ** [createTag]

    Modelled from the spec: [createTag] lives in [scripts/scripts.js], which
    is not part of this development; the spec lists it among the generic
    DOM-tag creation utilities. It creates an element and sets the given
    attributes on it. *)
Definition createTag (t : string) (attributes : list (string * string))
  : M element :=
  n <- fresh;;
  ret (fold_left (fun e kv => setAttribute (fst kv) (VString (snd kv)) e)
         attributes (new_element n t)).

Definition dquote : string := String (ascii_of_nat 34) EmptyString.
Definition indent : string := String LF "        ".

(** ** [decorateVideoLink] *)
Definition decorateVideoLink (link : element) (videoType : value)
    (label : string) : M element :=
  playBtn <-
    (if negb (strict_eq_str videoType "external") then
       playBtn <- createTag "button"
                    [("class", "open-video"); ("type", "button");
                     ("aria-label", "Play video")];;
       doc <- get_document;;
       match parentElement doc (nid link) with
       | None => throw TypeError
       | Some parent =>
           modify_document (append_child (nid parent) (El playBtn []));;
           modify_document (remove_node (nid link));;
           ret playBtn
       end
     else
       modify_document (update (nid link) (setAttribute "target" (VString "_blank")));;
       modify_document (update (nid link) (classList_add "open-video"));;
       ret link);;
  n <- fresh;;
  modify_document
    (set_children (nid playBtn) [El (new_element n "span") [Text label]]);;
  ret playBtn.

(** ** [buildVideoModal]

    The result is a tree that is not yet part of the page. The [innerHTML]
    assignment of the direct-file branch is modelled by the tree the HTML
    parser builds from the template when the href is [attribute_safe]; for
    another href the parser reads another [src], or other elements, and the
    properties that speak of the [src] carry that hypothesis. *)
Definition buildVideoModal (href : string) (videoType : value) : M node :=
  videoModal <- createTag "div"
                  [("class", "video-modal"); ("aria-modal", "true");
                   ("role", "dialog")];;
  videoOverlay <- createTag "div" [("class", "video-modal-overlay")];;
  videoContainer <- createTag "div" [("class", "video-modal-container")];;
  videoHeader <- createTag "div" [("class", "video-modal-header")];;
  videoClose <- createTag "button"
                  [("class", "video-modal-close"); ("aria-label", "close")];;
  videoContent <- createTag "div" [("class", "video-modal-content")];;
  content <-
    (if strict_eq_str videoType "youtube" then
       let videoId := getYouTubeId href in
       ret (El (setAttribute "data-videoId" videoId
                  (setAttribute "data-videoType" (VString "youtube")
                     (setAttribute "data-ytid" videoId videoContent))) [])
     else
       nv <- fresh;;
       ns <- fresh;;
       let video :=
         setAttribute "preload" (VString "auto")
           (setAttribute "loop" (VString "")
              (setAttribute "playsinline" (VString "")
                 (setAttribute "controls" (VString "")
                    (new_element nv "video")))) in
       let source :=
         setAttribute "type" (VString "video/mp4")
           (setAttribute "src" (VString href) (new_element ns "source")) in
       ret (El videoContent
              [El video
                 [Text indent; El source [];
                  Text (indent ++ dquote ++ "Your browser does not support videos"
                          ++ dquote ++ indent)]]));;
  ret (El videoModal
         [El videoOverlay [];
          El videoContainer [El videoHeader [El videoClose []]; content]]).

(** ** [decorate] *)

Definition is_paragraph (n : node) : bool :=
  match n with
  | El e _ => String.eqb (tag e) "p"
  | Text _ => false
  end.

(** [decorate] runs five steps in turn; each is a definition of its own
    here, in the order and with the comments of the source. *)

(** clean up paragraphs from single column variant *)
Definition decorate_columns (block : nat) : M unit :=
  doc <- get_document;;
  match subtree doc block
          ≫= (fun b => first (List.filter is_element (children_of b))) with
  | None => throw TypeError           (* [block.firstElementChild.children] on null *)
  | Some row =>
      match List.filter is_element (children_of row) with
      | [El firstCol kids] =>
          modify_document
            (set_children (nid firstCol)
               (List.concat
                  (List.map (fun c => if is_paragraph c then children_of c
                                      else [c]) kids)))
      | _ => ret tt
      end
  end.

(** decorate text container *)
Definition decorate_text (block : nat) : M unit :=
  doc <- get_document;;
  match querySelector doc block (Sel (STag "h2")) with
  | Some heading =>
      match closest doc (nid heading) (STag "div") with
      | Some d => modify_document (update (nid d) (classList_add "video-text"))
      | None => throw TypeError
      end
  | None => ret tt
  end.

(** decorate picture container *)
Definition decorate_picture (block : nat) : M unit :=
  doc <- get_document;;
  match querySelector doc block (Sel (STag "picture")) with
  | Some picture =>
      match closest doc (nid picture) (STag "div") with
      | None => throw TypeError
      | Some pictureContainer =>
          modify_document
            (update (nid pictureContainer) (classList_add "video-image"));;
          doc <- get_document;;
          match parentNode_childElementCount doc (nid pictureContainer) with
          | None => throw TypeError
          | Some 1 =>
              modify_document
                (update (nid pictureContainer) (classList_add "single-video"))
          | Some _ => ret tt
          end;;
          doc <- get_document;;
          match subtree doc (nid picture) with
          | Some pictureNode =>
              modify_document
                (fun d => append_child (nid pictureContainer) pictureNode
                            (remove_node (nid picture) d))
          | None => ret tt
          end
      end
  | None => ret tt
  end.

(** decorate video link: what follows [const videoType = getVideoType(videoHref)] *)
Definition decorate_link_as (block : nat) (videoLink : element)
    (videoHref : string) (videoType : value) : M unit :=
  playButton <- decorateVideoLink videoLink videoType "Play";;
  if negb (strict_eq_str videoType "external") then
    videoModal <- buildVideoModal videoHref videoType;;
    match videoModal with
    | Text _ => throw TypeError
    | El root _ =>
        match querySelector videoModal (nid root)
                (Sel (STagClass "button" "video-modal-close")) with
        | None => throw TypeError
        | Some videoClose =>
            let videoModal :=
              update (nid videoClose)
                (addEventListener "click" (ToggleVideoOverlay block))
                videoModal in
            modify_document (append_child block videoModal);;
            (* Display video overlay when play button is pressed *)
            modify_document
              (update (nid playButton)
                 (addEventListener "click" (ToggleVideoOverlay block)))
        end
    end
  else ret tt.

(** decorate video link *)
Definition decorate_link {B : Browser} (block : nat) : M unit :=
  doc <- get_document;;
  match querySelector doc block (Desc (SClass "video-image") (STag "a")) with
  | Some videoLink =>
      let videoHref := href videoLink in
      let videoType := getVideoType videoHref in
      decorate_link_as block videoLink videoHref videoType
  | None => ret tt
  end.

(** Check if the div is the first element of its parent *)
Definition decorate_alignment (block : nat) : M unit :=
  doc <- get_document;;
  match querySelector doc block (Sel (SClass "video-text")) with
  | Some textDivElement =>
      match previousElementSibling doc (nid textDivElement) with
      | None =>
          modify_document (update (nid textDivElement) (classList_add "text-left"))
      | Some _ => ret tt
      end
  | None => ret tt
  end.

Definition decorate {B : Browser} (block : nat) : M unit :=
  decorate_columns block;;
  decorate_text block;;
  decorate_picture block;;
  decorate_link block;;
  decorate_alignment block.

(** ** Events

    A click goes to its target and then bubbles through the ancestors of
    the target, the parent first. At each element the listeners run in the
    order they were added; an error thrown by a listener is reported by the
    page and the next listener still runs. The [listeners] of an element
    are those this file adds, none of which takes the capture phase, stops
    the event or adds a listener, so the elements on the way and their
    listeners are those of the page at the click. *)
Definition run_handler (h : handler) : M unit :=
  match h with
  | ToggleVideoOverlay block => toggleVideoOverlay block
  end.

Definition state_of {A} (o : outcome A) : state :=
  match o with
  | Returned _ st => st
  | Thrown _ st => st
  end.

Definition thrown {A} (o : outcome A) : list exn :=
  match o with
  | Returned _ _ => []
  | Thrown e _ => [e]
  end.

Fixpoint dispatch (hs : list (string * handler)) (st : state)
  : list exn * state :=
  match hs with
  | [] => ([], st)
  | (type, h) :: hs' =>
      if String.eqb type "click" then
        let o := run_handler h st in
        let r := dispatch hs' (state_of o) in
        ((thrown o ++ fst r)%list, snd r)
      else dispatch hs' st
  end.

(** The listeners a click on the element of an entry meets, in order. *)
Definition event_path (en : list element * element * list node)
  : list (string * handler) :=
  List.concat (List.map listeners (snd (fst en) :: fst (fst en))).

Definition click (x : nat) (st : state) : list exn * state :=
  match entry (document st) x with
  | Some en => dispatch (event_path en) st
  | None => ([], st)
  end.

(** What can happen to a page once the block is decorated. *)
Inductive event :=
| Toggle (block : nat)            (* a call of [toggleVideoOverlay] *)
| SdkReady                        (* the SDK has loaded and calls back *)
| Progress (video : nat) (t : Z). (* playback moves the position of a video *)

Definition step (ev : event) (st : state) : state :=
  match ev with
  | Toggle block => state_of (toggleVideoOverlay block st)
  | SdkReady => state_of (sdkReady st)
  | Progress v t => set_document (update v (media_seek t) (document st)) st
  end.

Definition run (evs : list event) (st : state) : state :=
  fold_left (fun s ev => step ev s) evs st.

(** ** The URL shapes, as the documentation describes them

    Plain string functions that the two matchers above are compared with. *)

(** [w] is a prefix of [s]. *)
Fixpoint starts_with (w s : string) : bool :=
  match w, s with
  | EmptyString, _ => true
  | String c w', String c' s' => Ascii.eqb c' c && starts_with w' s'
  | String _ _, EmptyString => false
  end.

(** [w] occurs somewhere in [s]. *)
Fixpoint contains (w s : string) : bool :=
  starts_with w s
  || match s with
     | EmptyString => false
     | String _ s' => contains w s'
     end.

(** The characters that end a video id: ampersand, newline, question mark and
    hash. *)
Definition terminators : list ascii := ["&"; LF; "?"; "#"]%char.

Definition id_char (c : ascii) : bool := negb (in_set c terminators).

(** The longest run of id characters at the start of [s]. *)
Fixpoint id_run (s : string) : string :=
  match s with
  | String c s' => if id_char c then String c (id_run s') else EmptyString
  | EmptyString => EmptyString
  end.

Definition id_of (s : string) : option string :=
  match id_run s with
  | EmptyString => None
  | id => Some id
  end.

(** The id that follows the first of the [shapes] that starts [s] and is
    followed by at least one id character. *)
Fixpoint id_after (shapes : list string) (s : string) : option string :=
  match shapes with
  | [] => None
  | p :: ps =>
      if starts_with p s then
        match id_of (sdrop (String.length p) s) with
        | Some id => Some id
        | None => id_after ps s
        end
      else id_after ps s
  end.

(** The id at the leftmost position of [s] where one of the [shapes] is
    followed by an id. *)
Fixpoint extractId (shapes : list string) (s : string) : option string :=
  match id_after shapes s with
  | Some id => Some id
  | None =>
      match s with
      | EmptyString => None
      | String _ s' => extractId shapes s'
      end
  end.

(** The four shapes the documentation of the extractor lists. *)
Definition documented_shapes : list string :=
  ["?v="; "&v="; "/embed/"; "/v/"; "https://youtu.be/"].

(** The shapes the pattern [ytExp] accepts. *)
Definition accepted_shapes : list string :=
  ["?v="; "&v="; "/embed/"; "/1/"; "/v/";
   "https://www.youtu.be/"; "https://youtu.be/"].

Definition of_option (o : option string) : value :=
  match o with
  | Some s => VString s
  | None => VNull
  end.

(** ** Auxiliary notions used to state the properties *)

(** A shape is [clean] when neither [?] nor [&] occurs in it. *)
Definition clean (w : string) : bool :=
  forallb (fun c => negb (Ascii.eqb c "?" || Ascii.eqb c "&"))
    (list_ascii_of_string w).

Definition clean_tail (w : string) : bool :=
  match w with
  | EmptyString => true
  | String _ w' => clean w'
  end.

Definition entry_map (g : element -> element) (h : node -> node)
    (en : list element * element * list node)
  : list element * element * list node :=
  (List.map g (fst (fst en)), g (snd (fst en)), List.map h (snd en)).

(** A query that takes the first entry satisfying [P]. *)
Definition first_entry (P : list element * element * list node -> bool)
    (doc : node) : option (list element * element * list node) :=
  first (List.filter P (walk doc [])).

(** [f] keeps what the simple selector [s] looks at. *)
Definition keeps (s : simple) (f : element -> element) : Prop :=
  forall e, matches_simple s (f e) = matches_simple s e.

(** Updates that leave identity, tag and attributes alone. *)
Record plain (f : element -> element) : Prop := {
  plain_nid : forall e, nid (f e) = nid e;
  plain_attrs : forall e, attrs (f e) = attrs e;
  plain_tag : forall e, tag (f e) = tag e;
}.

(** The data of a modal as [toggleVideoOverlay] finds it. *)
Record found (doc : node) (block : nat) (modal videoContent : element) : Prop := {
  found_modal :
    querySelector doc block selectors_videoModal = Some modal;
  found_content :
    querySelector doc (nid modal) selectors_videoContent = Some videoContent;
}.

Definition is_youtube (videoContent : element) : bool :=
  strict_eq_str (getAttribute "data-videoType" videoContent) "youtube".

Definition with_trace (tr : list effect) (st : state) : state :=
  {| document := document st; next_nid := next_nid st;
     window_YT := window_YT st;
     window_onYouTubePlayerAPIReady := window_onYouTubePlayerAPIReady st;
     player := player st; trace := tr |}.

Definition stop_effect (st : state) : list effect :=
  match player st with
  | Some p => [StopVideo p]
  | None => []
  end.

(** The container [<div id="ytFrame-..." data-hj-allow-iframe="true">]. *)
Definition ytFrame_div (n : nat) (videoId : value) : node :=
  El (setAttribute "data-hj-allow-iframe" (VString "true")
        (setAttribute "id" (VString (ytFrame videoId)) (new_element n "div"))) [].

(** The document once the open branch has marked the modal and reset the
    content pane. *)
Definition opened_document (st : state) (modal videoContent : element) : node :=
  set_children (nid videoContent)
    [ytFrame_div (next_nid st) (getAttribute "data-videoId" videoContent)]
    (update (nid modal) (classList_add "open") (document st)).

Definition video_sel : selector := Sel (STag "video").

(** A direct-file modal with its video element, as the page shows it: the
    identities of the modal and the video, whether the modal is open, and
    the state of the video. *)
Definition direct_modal (doc : node) (block nm nv : nat)
    (is_open is_paused : bool) (t : Z) : Prop :=
  exists modal videoContent video,
    found doc block modal videoContent
    /\ nid modal = nm
    /\ is_youtube videoContent = false
    /\ has_class "open" modal = is_open
    /\ querySelector doc nm video_sel = Some video
    /\ nid video = nv
    /\ paused video = is_paused
    /\ currentTime video = t.

(** The [src] of a script element. *)
Definition href_src (e : element) : string :=
  match assoc "src" (attrs e) with
  | Some v => v
  | None => ""
  end.

(** The script fetches in a trace. *)
Definition is_fetch (ev : effect) : bool :=
  match ev with FetchScript _ => true | _ => false end.

Definition fetches (tr : list effect) : nat :=
  length (List.filter is_fetch tr).

Definition is_new_player (ev : effect) : bool :=
  match ev with NewPlayer _ => true | _ => false end.

(** The effects one call of [toggleVideoOverlay] can have. *)
Inductive toggle_effect (st : state) : list effect -> Prop :=
| effect_none : toggle_effect st []
| effect_stop p : player st = Some p -> toggle_effect st [StopVideo p]
| effect_new p : window_YT st = true -> toggle_effect st [NewPlayer p]
| effect_fetch : window_YT st = false -> toggle_effect st [FetchScript iframe_api].

(** The modal [buildVideoModal] builds for a direct file, with the
    identities [n], [n+1], ... *)
Definition direct_file_modal (n : nat) (href : string) : node :=
  let mk k t cls a :=
    {| nid := k; tag := t; classes := cls; attrs := a; paused := true;
       currentTime := 0%Z; listeners := [] |} in
  El (mk n "div" ["video-modal"] [("aria-modal", "true"); ("role", "dialog")])
    [El (mk (1 + n) "div" ["video-modal-overlay"] []) [];
     El (mk (2 + n) "div" ["video-modal-container"] [])
       [El (mk (3 + n) "div" ["video-modal-header"] [])
          [El (mk (4 + n) "button" ["video-modal-close"]
                 [("aria-label", "close")]) []];
        El (mk (5 + n) "div" ["video-modal-content"] [])
          [El (mk (6 + n) "video" []
                 [("controls", ""); ("playsinline", ""); ("loop", "");
                  ("preload", "auto")])
             [Text indent;
              El (mk (7 + n) "source" []
                    [("src", href); ("type", "video/mp4")]) [];
              Text (indent ++ dquote ++ "Your browser does not support videos"
                      ++ dquote ++ indent)]]]].

(** The play button [decorateVideoLink] creates, and the page once the
    button has taken the place of the link. *)
Definition play_button (n : nat) : element :=
  {| nid := n; tag := "button"; classes := ["open-video"];
     attrs := [("type", "button"); ("aria-label", "Play video")];
     paused := true; currentTime := 0%Z; listeners := [] |}.

Definition button_for_link (n : nat) (link parent : element) (doc : node)
  : node :=
  set_children n [El (new_element (1 + n) "span") [Text "Play"]]
    (remove_node (nid link)
       (append_child (nid parent) (El (play_button n) []) doc)).

(** ** A teaser page

    A page with one script in its head and one video block (element 5) in
    the single-column form: a picture and a link to [h]. *)

Definition sample_el (n : nat) (t : string) (cls : list string)
    (a : list (string * string)) : element :=
  {| nid := n; tag := t; classes := cls; attrs := a; paused := true;
     currentTime := 0%Z; listeners := [] |}.

Definition sample_block (content : list node) : node :=
  El (sample_el 5 "div" ["video"] []) content.

Definition sample_page (block : node) : node :=
  El (sample_el 0 "html" [] [])
    [ El (sample_el 1 "head" [] [])
        [ El (sample_el 2 "script" [] [("src", "/scripts/aem.js")]) [] ];
      El (sample_el 3 "body" [] []) [ El (sample_el 4 "main" [] []) [ block ] ] ].

Definition teaser (h : string) : node :=
  sample_block
    [ El (sample_el 6 "div" [] [])
        [ El (sample_el 7 "div" [] [])
            [ El (sample_el 8 "p" [] [])
                [ El (sample_el 9 "picture" [] [])
                    [ El (sample_el 10 "img" [] [("src", "/poster.jpg")]) [] ] ];
              El (sample_el 11 "p" [] [])
                [ El (sample_el 12 "a" [] [("href", h)]) [Text h] ] ] ] ].

Definition page_state (yt : bool) (doc : node) : state :=
  {| document := doc; next_nid := 13; window_YT := yt;
     window_onYouTubePlayerAPIReady := None; player := None; trace := [] |}.

Definition teaser_state (yt : bool) (h : string) : state :=
  page_state yt (sample_page (teaser h)).

(** The sample pages write their links as the browser serialises them:
    absolute, scheme and host in lower case. Such a link reads back as it
    is written. *)
Definition serialised_links : Browser := {| resolve_url := fun v => v |}.

(** The teaser once decorated. *)
Definition decorated (yt : bool) (h : string) : state :=
  state_of (decorate (B := serialised_links) 5 (teaser_state yt h)).

(** The elements of the decorated teaser that the properties name. *)
Definition yt_href : string := "https://youtu.be/dQw4w9WgXcQ".
Definition file_href : string := "https://example.com/video.mp4".
Definition vimeo_href : string := "https://vimeo.com/76979871".

Definition modal_el (cls : list string) : element :=
  sample_el 15 "div" ("video-modal" :: cls)
    [("aria-modal", "true"); ("role", "dialog")].

Definition youtube_content_el (h : string) : element :=
  sample_el 20 "div" ["video-modal-content"]
    [("data-ytid", to_string (getYouTubeId h));
     ("data-videotype", "youtube");
     ("data-videoid", to_string (getYouTubeId h))].

Definition file_content_el : element :=
  sample_el 20 "div" ["video-modal-content"] [].

Definition ytFrame_el (n : nat) (h : string) : element :=
  sample_el n "div" []
    [("id", ytFrame (VString (to_string (getYouTubeId h))));
     ("data-hj-allow-iframe", "true")].

(** The teaser before the link step of [decorate]. *)
Definition before_link (yt : bool) (h : string) : state :=
  state_of ((decorate_columns 5;; decorate_text 5;; decorate_picture 5)%dom
              (teaser_state yt h)).

(** Blocks that lack part of the expected structure. *)
Definition modal_without_content : node :=
  sample_block [El (sample_el 6 "div" ["video-modal"] []) []].

Definition modal_without_video : node :=
  sample_block
    [El (sample_el 6 "div" ["video-modal"] [])
       [El (sample_el 7 "div" ["video-modal-content"] []) []]].

Definition open_modal_without_container : node :=
  sample_block
    [El (sample_el 6 "div" ["video-modal"; "open"] [])
       [El (sample_el 7 "div" ["video-modal-content"]
              [("data-videotype", "youtube"); ("data-videoid", "abc")]) []]].

Definition two_empty_columns : node :=
  sample_block
    [El (sample_el 6 "div" [] [])
       [El (sample_el 7 "div" [] []) []; El (sample_el 8 "div" [] []) []]].

(** ** Further notions used to state properties *)

(** An id as a link carries it: not empty, and free of the characters that
    end an id. *)
Definition well_formed_id (id : string) : Prop :=
  id <> EmptyString
  /\ forall c, In c (list_ascii_of_string id) -> ~ In c terminators.

(** What may follow an id in a link: nothing, or a text that begins with one
    of the characters that end an id. *)
Definition id_stops (rest : string) : Prop :=
  rest = EmptyString
  \/ exists c rest', rest = String c rest' /\ In c terminators.

(** The usual forms of a link to a YouTube video, up to the id. *)
Definition link_forms : list string :=
  ["https://www.youtube.com/watch?v=";
   "https://www.youtube.com/embed/";
   "https://www.youtube.com/v/";
   "https://youtu.be/";
   "https://www.youtu.be/"].

(** [s] has none of the characters [cs]. *)
Definition free_of (cs : list ascii) (s : string) : Prop :=
  forall c, In c (list_ascii_of_string s) -> ~ In c cs.

(** The characters every accepted shape needs one of. *)
Definition separators : list ascii := ["/"; "?"; "&"]%char.

(** What the page keeps outside the document: the SDK flag, the pending
    callback, [let player] and the effects so far. *)
Definition same_globals (st st' : state) : Prop :=
  window_YT st' = window_YT st
  /\ window_onYouTubePlayerAPIReady st' = window_onYouTubePlayerAPIReady st
  /\ player st' = player st
  /\ trace st' = trace st.

(** A computation that touches the document and the supply of identities
    only, whatever its outcome. *)
Definition quiet {A} (c : M A) : Prop :=
  forall st, same_globals st (state_of (c st))
             /\ next_nid st <= next_nid (state_of (c st)).

(** The player the last [NewPlayer] of a trace constructed. *)
Definition last_player (tr : list effect) : option player_obj :=
  fold_left (fun acc ev => match ev with NewPlayer p => Some p | _ => acc end)
    tr None.

(** Every [stopVideo] of the trace is a call on the player constructed
    last before it. *)
Definition stops_last_player (tr : list effect) : Prop :=
  forall l1 p l2, tr = (l1 ++ StopVideo p :: l2)%list -> last_player l1 = Some p.

Definition is_sdk_ready (ev : event) : bool :=
  match ev with SdkReady => true | _ => false end.

Definition new_players (tr : list effect) : list effect :=
  List.filter is_new_player tr.

(** [e'] is [e] but for its classes, if it is the element [m], and for its
    playback state, if it is the element [v]. *)
Definition same_but (m : nat) (v : option nat) (e e' : element) : Prop :=
  nid e' = nid e /\ tag e' = tag e /\ attrs e' = attrs e
  /\ listeners e' = listeners e
  /\ (nid e <> m -> classes e' = classes e)
  /\ (Some (nid e) <> v ->
      paused e' = paused e /\ currentTime e' = currentTime e).

(** ** Pages as a browser holds them *)

(** The identities of the elements of a tree, in document order. *)
Definition nids (n : node) : list nat := List.map nid (elements n).

(** No two elements of the tree are the same element. *)
Definition unique_ids (doc : node) : Prop := List.NoDup (nids doc).

(** The identities of the tree have all been handed out. *)
Definition allocated (n : nat) (doc : node) : Prop :=
  forall e, In e (elements doc) -> nid e < n.

Definition well_formed (st : state) : Prop :=
  unique_ids (document st) /\ allocated (next_nid st) (document st).

(** The elements of a tree in document order, each with its ancestors. *)
Definition keys (n : node) (ancs : list element)
  : list (list element * element) :=
  List.map fst (walk n ancs).

(** What [x.querySelector(sel)] looks for. *)
Definition selects (x : nat) (sel : selector) (k : list element * element)
  : bool :=
  existsb (fun a => Nat.eqb (nid a) x) (fst k) && matches sel (fst k) (snd k).


Definition below (x : nat) (k : list element * element) : bool :=
  existsb (fun a => Nat.eqb (nid a) x) (fst k).

(** The place of the element [x] in a tree of distinct elements: [ex] is
    the element and [csx] are its children. *)
Inductive located (x : nat) (ex : element) (csx : list node) : node -> Prop :=
| located_here :
    nid ex = x ->
    ~ In x (List.concat (List.map nids csx)) ->
    located x ex csx (El ex csx)
| located_there e cs1 c cs2 :
    nid e <> x ->
    located x ex csx c ->
    (forall c', In c' (cs1 ++ cs2)%list -> ~ In x (nids c')) ->
    located x ex csx (El e (cs1 ++ c :: cs2)%list).

(** Every element called [block] is a [div], as a block is. *)
Definition block_is_div (block : nat) (doc : node) : Prop :=
  forall e, In e (elements doc) -> nid e = block -> tag e = "div".

(** The element of [k] is the block or lies in it. *)
Definition inside (block : nat) (k : list element * element) : bool :=
  below block k || Nat.eqb (nid (snd k)) block.

(** Two pages hold the same elements outside the block, each with the same
    ancestors. *)
Definition same_outside (block : nat) (d d' : node) : Prop :=
  forall k, inside block k = false ->
            (In k (keys d []) <-> In k (keys d' [])).

(** What [decorate] needs of a page and keeps. *)
Definition page_inv (block n : nat) (d : node) : Prop :=
  unique_ids d /\ block_is_div block d /\ allocated n d.

(** ** What the link step builds *)

(** The modal [buildVideoModal] builds for a Youtube video, with the
    identities [n], [n+1], ... *)
Definition youtube_modal (n : nat) (videoId : value) : node :=
  let mk k t cls a :=
    {| nid := k; tag := t; classes := cls; attrs := a; paused := true;
       currentTime := 0%Z; listeners := [] |} in
  El (mk n "div" ["video-modal"] [("aria-modal", "true"); ("role", "dialog")])
    [El (mk (1 + n) "div" ["video-modal-overlay"] []) [];
     El (mk (2 + n) "div" ["video-modal-container"] [])
       [El (mk (3 + n) "div" ["video-modal-header"] [])
          [El (mk (4 + n) "button" ["video-modal-close"]
                 [("aria-label", "close")]) []];
        El (mk (5 + n) "div" ["video-modal-content"]
              [("data-ytid", to_string videoId);
               ("data-videotype", "youtube");
               ("data-videoid", to_string videoId)]) []]].

Definition built_modal (n : nat) (href : string) (videoType : value) : node :=
  if strict_eq_str videoType "youtube"
  then youtube_modal n (getYouTubeId href)
  else direct_file_modal n href.

(** The number of elements of the modal. *)
Definition built_size (videoType : value) : nat :=
  if strict_eq_str videoType "youtube" then 6 else 8.

Definition with_page (d : node) (n : nat) (st : state) : state :=
  {| document := d; next_nid := n; window_YT := window_YT st;
     window_onYouTubePlayerAPIReady := window_onYouTubePlayerAPIReady st;
     player := player st; trace := trace st |}.

(** The page once the link step has replaced a link that is not external
    by a play button and has appended the modal to the block. *)
Definition linked_document {B : Browser} (block : nat)
    (link parent : element) (st : state) : node :=
  let n := next_nid st in
  let listener := addEventListener "click" (ToggleVideoOverlay block) in
  update n listener
    (append_child block
       (update (6 + n) listener
          (built_modal (2 + n) (href link) (getVideoType (href link))))
       (button_for_link n link parent (document st))).

(** * Properties *)

Example getVideoType_ex1 : getVideoType "https://www.youtube.com/watch?v=abc123" = VString "youtube".
Proof. reflexivity. Qed.
Example getVideoType_ex2 : getVideoType "https://vimeo.com/1234" = VString "external".
Proof. reflexivity. Qed.
Example getVideoType_ex3 : getVideoType "https://example.com/video.mp4" = VUndefined.
Proof. reflexivity. Qed.
Example getYouTubeId_ex1 : getYouTubeId "https://www.youtube.com/watch?v=abc123" = VString "abc123".
Proof. reflexivity. Qed.
Example getYouTubeId_ex2 : getYouTubeId "https://www.youtube.com/1/abc" = VString "abc".
Proof. reflexivity. Qed.
Example getYouTubeId_ex3 : getYouTubeId "https://www.youtube.com/watch?v=abc&t=10" = VString "abc".
Proof. reflexivity. Qed.

Local Arguments String.append !_ _ / : simpl nomatch.

(** ** The matcher on the patterns of the file *)

Section MatcherFacts.
Context {R : Type}.
Implicit Types (k : @cont R) (s w : string) (cap : option string).

Lemma m_lits w : forall s cap k,
  m (lits w) s cap k
  = if starts_with w s then k (sdrop (String.length w) s) cap else None.
Proof.
  induction w as [|c w IH]; intros s cap k; simpl.
  - reflexivity.
  - destruct s as [|c' s]; simpl; [reflexivity|].
    destruct (Ascii.eqb c' c); simpl; [apply IH | reflexivity].
Qed.

Lemma m_plus_class neg cs c s cap k :
  m (Plus (CharSet neg cs)) (String c s) cap k
  = if class_ok neg cs c then
      match m (Plus (CharSet neg cs)) s cap k with
      | Some x => Some x
      | None => k s cap
      end
    else None.
Proof.
  simpl. destruct (class_ok neg cs c); [|reflexivity].
  assert (Hlt : Nat.ltb (String.length s) (S (String.length s)) = true)
    by (apply Nat.ltb_lt; lia).
  rewrite Hlt. reflexivity.
Qed.

Lemma m_plus_class_nil neg cs cap k :
  m (Plus (CharSet neg cs)) EmptyString cap k = None.
Proof. reflexivity. Qed.
End MatcherFacts.

(** ** Strings *)

Lemma starts_with_app w s : starts_with w (w ++ s) = true.
Proof.
  induction w as [|c w IH]; simpl; [reflexivity|].
  rewrite Ascii.eqb_refl. exact IH.
Qed.

Lemma starts_with_split w s :
  starts_with w s = true -> s = w ++ sdrop (String.length w) s.
Proof.
  revert s. induction w as [|c w IH]; intros s H; simpl in *.
  - reflexivity.
  - destruct s as [|c' s]; [discriminate|].
    apply andb_prop in H as [Hc Hw]. apply Ascii.eqb_eq in Hc. subst c'.
    simpl. f_equal. apply IH, Hw.
Qed.

Lemma starts_with_iff w s :
  starts_with w s = true <-> exists b, s = w ++ b.
Proof.
  split.
  - intros H. eexists. apply starts_with_split, H.
  - intros [b ->]. apply starts_with_app.
Qed.

Lemma contains_iff w s :
  contains w s = true <-> exists a b, s = a ++ w ++ b.
Proof.
  split.
  - induction s as [|c s IH]; simpl; intros H.
    + apply orb_prop in H as [H|H]; [|discriminate].
      apply starts_with_iff in H as [b Hb]. exists EmptyString, b. exact Hb.
    + apply orb_prop in H as [H|H].
      * apply starts_with_iff in H as [b Hb]. exists EmptyString, b. exact Hb.
      * destruct (IH H) as (a & b & ->). exists (String c a), b. reflexivity.
  - intros (a & b & ->). induction a as [|c a IH]; simpl.
    + assert (Hs : starts_with w (w ++ b) = true) by apply starts_with_app.
      destruct (w ++ b); simpl; rewrite Hs; reflexivity.
    + rewrite IH. apply orb_true_r.
Qed.

Lemma sdrop_length s n :
  String.length (sdrop n s) = String.length s - n.
Proof.
  revert s. induction n as [|n IH]; intros [|c s]; simpl; auto.
Qed.

Lemma stake_app a b : stake (String.length a) (a ++ b) = a.
Proof. induction a as [|c a IH]; simpl; [destruct b|]; congruence. Qed.

Lemma string_length_app (a b : string) :
  String.length (a ++ b) = String.length a + String.length b.
Proof. induction a as [|c a IH]; simpl; auto. Qed.

(** ** The id character class *)

Lemma id_run_prefix s : s = id_run s ++ sdrop (String.length (id_run s)) s.
Proof.
  induction s as [|c s IH]; simpl; [reflexivity|].
  destruct (id_char c); simpl; [f_equal; exact IH | reflexivity].
Qed.

Lemma consumed_id_run s :
  consumed s (sdrop (String.length (id_run s)) s) = id_run s.
Proof.
  unfold consumed.
  assert (Hlen : String.length s - String.length (sdrop (String.length (id_run s)) s)
                 = String.length (id_run s)).
  { rewrite sdrop_length.
    assert (String.length (id_run s) <= String.length s).
    { rewrite (id_run_prefix s) at 2. rewrite string_length_app. lia. }
    lia. }
  rewrite Hlen. rewrite (id_run_prefix s) at 2. apply stake_app.
Qed.

(** The capturing group [([^&\n?#]+)] takes the longest run of id characters
    and fails on an empty one. *)
Lemma m_id_group s cap0 :
  m (Cap (Plus (CharSet true terminators))) s cap0 (fun _ cap => Some cap)
  = Some <$> id_of s.
Proof.
  change (m (Cap (Plus (CharSet true terminators))) s cap0 (fun _ cap => Some cap))
    with (m (Plus (CharSet true terminators)) s cap0
            (fun s1 _ => Some (Some (consumed s s1)))).
  assert (H : forall (k : string -> option string -> option (option string)) t c,
             (forall s1 c1, k s1 c1 <> None) ->
             m (Plus (CharSet true terminators)) t c k
             = match id_run t with
               | EmptyString => None
               | _ => k (sdrop (String.length (id_run t)) t) c
               end).
  { intros k t. induction t as [|a t IH]; intros c Hk.
    - reflexivity.
    - rewrite m_plus_class.
      change (class_ok true terminators a) with (id_char a).
      change (id_run (String a t))
        with (if id_char a then String a (id_run t) else EmptyString).
      destruct (id_char a); [|reflexivity].
      rewrite IH by exact Hk.
      cbn [String.length sdrop].
      destruct (id_run t) eqn:Hrun.
      + destruct t; reflexivity.
      + destruct (k _ c) eqn:Hkk; [reflexivity|]. exfalso. eapply Hk, Hkk. }
  rewrite H by discriminate.
  unfold id_of. rewrite consumed_id_run.
  destruct (id_run s); reflexivity.
Qed.


(** ** [getVideoType] *)

Lemma test_lits w s : test (lits w) s = contains w s.
Proof.
  unfold test. induction s as [|c s IH].
  - cbn [exec contains]. unfold match_here. rewrite m_lits.
    destruct (starts_with w EmptyString); reflexivity.
  - cbn [exec contains]. unfold match_here. rewrite m_lits.
    destruct (starts_with w (String c s)); [reflexivity|]. exact IH.
Qed.

(** C4. For every href, [getVideoType] answers [youtube] when the href
    contains [youtube.com] or [youtu.be]; otherwise [external] when it
    contains [vimeo.com]; otherwise [undefined]. The kinds are tried in the
    order of the table, so an href that matches patterns of both kinds is
    [youtube]. Here [contains w href] says that [w] occurs somewhere in the
    href, which is what [test] decides for the pattern [w]. *)
Theorem getVideoType_classifies (href : string) :
  getVideoType href
  = (if contains "youtube.com" href || contains "youtu.be" href
     then VString "youtube"
     else if contains "vimeo.com" href then VString "external"
     else VUndefined)
  /\ (forall w, test (lits w) href = contains w href)
  /\ (forall w, contains w href = true <-> exists a b, href = a ++ w ++ b).
Proof.
  split; [|split; [intros w; apply test_lits | intros w; apply contains_iff]].
  unfold getVideoType, videoTypeMap.
  cbn [List.find existsb snd fst].
  rewrite !test_lits, !orb_false_r.
  destruct (contains "youtube.com" href || contains "youtu.be" href);
    [reflexivity|].
  destruct (contains "vimeo.com" href); reflexivity.
Qed.

(** ** [getYouTubeId] *)

Lemma starts_with_append a b s :
  starts_with (a ++ b) s
  = starts_with a s && starts_with b (sdrop (String.length a) s).
Proof.
  revert s. induction a as [|c a IH]; intros s; simpl.
  - destruct s; reflexivity.
  - destruct s as [|c' s]; [reflexivity|].
    rewrite IH. simpl. apply andb_assoc.
Qed.

Lemma sdrop_add n k s : sdrop (n + k) s = sdrop k (sdrop n s).
Proof.
  revert s. induction n as [|n IH]; intros s; simpl.
  - destruct s, k; reflexivity.
  - destruct s; [destruct k; reflexivity | apply IH].
Qed.

Lemma match_here_ytExp s :
  match_here ytExp s = Some <$> id_after accepted_shapes s.
Proof.
  unfold match_here, ytExp.
  set (grp := Cap (Plus (CharSet true [("&")%char; LF; ("?")%char; ("#")%char]))).
  set (kf := fun (_ : string) (cap : option string) => Some cap).
  assert (Hg : forall t c, m grp t c kf = Some <$> id_of t)
    by (intros; apply m_id_group).
  change (starts_with "https://www.youtu.be/" s)
    with (starts_with ("https://" ++ "www." ++ "youtu.be/") s).
  cbn [m id_after accepted_shapes].
  change (starts_with "https://www.youtu.be/" s)
    with (starts_with ("https://" ++ "www." ++ "youtu.be/") s).
  change (starts_with "https://youtu.be/" s)
    with (starts_with ("https://" ++ "youtu.be/") s).
  rewrite !starts_with_append.
  change (String.length "https://www.youtu.be/") with (8 + (4 + 9)).
  change (String.length "https://youtu.be/") with (8 + 9).
  rewrite !sdrop_add.
  rewrite !m_lits.
  change (String.length "https://") with 8.
  change (String.length "www.") with 4.
  set (s8 := sdrop 8 s).
  destruct s as [|c s'].
  - reflexivity.
  - change (starts_with "?v=" (String c s'))
      with (Ascii.eqb c "?" && starts_with "v=" s').
    change (starts_with "&v=" (String c s'))
      with (Ascii.eqb c "&" && starts_with "v=" s').
    change (class_ok false [("?")%char; ("&")%char] c)
      with (Ascii.eqb c "?" || (Ascii.eqb c "&" || false)).
    change (sdrop (String.length "?v=") (String c s')) with (sdrop 2 s').
    change (sdrop (String.length "&v=") (String c s')) with (sdrop 2 s').
    rewrite !m_lits, !Hg.
    cbn [String.length].
    destruct (Ascii.eqb c "?"), (Ascii.eqb c "&"), (starts_with "v=" s'),
      (starts_with "/embed/" (String c s')), (starts_with "/1/" (String c s')),
      (starts_with "/v/" (String c s')),
      (starts_with "https://" (String c s')), (starts_with "www." s8),
      (starts_with "youtu.be/" (sdrop 4 s8)), (starts_with "youtu.be/" s8);
      cbn [orb andb];
      repeat match goal with
        | |- context [id_of ?t] => destruct (id_of t); cbn [fmap option_fmap option_map]
        end;
      reflexivity.
Qed.

Lemma exec_ytExp s : exec ytExp s = Some <$> extractId accepted_shapes s.
Proof.
  induction s as [|c s IH]; cbn [exec extractId]; rewrite match_here_ytExp;
    destruct (id_after accepted_shapes _); try reflexivity.
  exact IH.
Qed.

Lemma getYouTubeId_extractId href :
  getYouTubeId href = of_option (extractId accepted_shapes href).
Proof.
  unfold getYouTubeId. rewrite exec_ytExp.
  destruct (extractId accepted_shapes href); reflexivity.
Qed.

(** C5, as documented: a fifth path shape, [/1/], yields an id although the
    href has none of the four documented shapes. *)
Lemma getYouTubeId_undocumented_shape :
  extractId documented_shapes "https://www.youtube.com/1/abc" = None
  /\ getYouTubeId "https://www.youtube.com/1/abc" = VString "abc".
Proof. split; reflexivity. Qed.

(** C5, amended. [getYouTubeId] returns the id at the leftmost position where
    one of the accepted shapes (the query parameter [?v=]/[&v=], the paths
    [/embed/], [/1/] and [/v/], and the short form [https://youtu.be/] with
    an optional [www.]) is followed by at least one id character, and [null]
    when there is no such position. *)
Theorem getYouTubeId_accepted_shapes :
  (forall href, getYouTubeId href = of_option (extractId accepted_shapes href))
  /\ getYouTubeId "https://www.youtube.com/watch?v=abc123" = VString "abc123"
  /\ getYouTubeId "https://youtu.be/xyz789" = VString "xyz789"
  /\ getYouTubeId "https://example.com/video.mp4" = VNull.
Proof.
  split; [exact getYouTubeId_extractId|].
  repeat split; reflexivity.
Qed.

(** ** Truncation of the id *)

Lemma in_set_In c cs : in_set c cs = true <-> In c cs.
Proof.
  unfold in_set. rewrite existsb_exists. split.
  - intros (x & Hx & Heq). apply Ascii.eqb_eq in Heq. subst. exact Hx.
  - intros H. exists c. split; [exact H | apply Ascii.eqb_refl].
Qed.

Lemma id_char_false c : id_char c = false <-> In c terminators.
Proof.
  unfold id_char. rewrite negb_false_iff. apply in_set_In.
Qed.

Lemma id_char_true c : id_char c = true <-> ~ In c terminators.
Proof.
  unfold id_char. rewrite negb_true_iff, <- in_set_In.
  destruct (in_set c terminators); split; congruence.
Qed.

Lemma id_run_chars s c :
  In c (list_ascii_of_string (id_run s)) -> ~ In c terminators.
Proof.
  induction s as [|a s IH]; simpl; [tauto|].
  destruct (id_char a) eqn:Ha; simpl; [|tauto].
  intros [<-|H]; [apply id_char_true, Ha | apply IH, H].
Qed.

Lemma id_run_app id rest :
  (forall c, In c (list_ascii_of_string id) -> ~ In c terminators) ->
  id_run rest = EmptyString ->
  id_run (id ++ rest) = id.
Proof.
  intros Hid Hrest. induction id as [|a id IH]; simpl.
  - exact Hrest.
  - assert (Ha : id_char a = true) by (apply id_char_true, Hid; simpl; auto).
    rewrite Ha. f_equal. apply IH. intros c Hc. apply Hid. simpl. auto.
Qed.

Lemma id_run_stopped rest :
  rest = EmptyString
  \/ (exists c rest', rest = String c rest' /\ In c terminators) ->
  id_run rest = EmptyString.
Proof.
  intros [->|(c & rest' & -> & Hc)]; simpl; [reflexivity|].
  apply id_char_false in Hc. rewrite Hc. reflexivity.
Qed.

Lemma starts_with_before_sep w : forall p sep X,
  clean w = true ->
  sep = "?"%char \/ sep = "&"%char ->
  starts_with w (p ++ String sep X) = true ->
  starts_with w p = true.
Proof.
  induction w as [|c w IH]; intros p sep X Hc Hsep H; [reflexivity|].
  unfold clean in Hc. simpl in Hc. apply andb_prop in Hc as [Hc Hw].
  destruct p as [|b p]; simpl in *.
  - apply andb_prop in H as [H _]. apply Ascii.eqb_eq in H. subst c.
    destruct Hsep as [-> | ->]; discriminate.
  - apply andb_prop in H as [Hb H]. rewrite Hb. simpl.
    eapply IH; eauto.
Qed.

Lemma sdrop_within w : forall p X,
  starts_with w p = true ->
  sdrop (String.length w) (p ++ X) = sdrop (String.length w) p ++ X.
Proof.
  induction w as [|c w IH]; intros p X H; simpl.
  - destruct p, X; reflexivity.
  - destruct p as [|b p]; [discriminate|]. simpl in *.
    apply andb_prop in H as [_ H]. apply IH, H.
Qed.

Lemma id_of_before_sep q sep X :
  sep = "?"%char \/ sep = "&"%char ->
  id_of q = None -> id_of (q ++ String sep X) = None.
Proof.
  intros Hsep. unfold id_of. destruct q as [|b q]; simpl.
  - intros _. destruct Hsep as [-> | ->]; reflexivity.
  - destruct (id_char b); [discriminate | reflexivity].
Qed.

Lemma id_after_before_sep shapes : forall a p sep X,
  forallb clean_tail shapes = true ->
  sep = "?"%char \/ sep = "&"%char ->
  id_after shapes (String a p) = None ->
  id_after shapes (String a p ++ String sep X) = None.
Proof.
  induction shapes as [|w ws IH]; intros a p sep X Hcl Hsep Hnone;
    [reflexivity|].
  cbn [forallb] in Hcl. apply andb_prop in Hcl as [Hw Hws].
  cbn [id_after] in *.
  assert (Hrest : id_after ws (String a p) = None).
  { destruct (starts_with w (String a p)); [|exact Hnone].
    destruct (id_of _); [discriminate | exact Hnone]. }
  destruct (starts_with w (String a p ++ String sep X)) eqn:Hsw.
  - assert (Hp : starts_with w (String a p) = true).
    { destruct w as [|c w]; [reflexivity|].
      simpl in Hsw |- *. apply andb_prop in Hsw as [Hc Hsw]. rewrite Hc. simpl.
      eapply starts_with_before_sep; eauto. }
    rewrite Hp in Hnone.
    rewrite sdrop_within by exact Hp.
    destruct (id_of (sdrop (String.length w) (String a p))) eqn:Hid;
      [discriminate|].
    rewrite id_of_before_sep by assumption.
    apply IH; assumption.
  - apply IH; assumption.
Qed.

Lemma extractId_query_param pre : forall sep id rest,
  extractId accepted_shapes pre = None ->
  sep = "?"%char \/ sep = "&"%char ->
  id <> EmptyString ->
  (forall c, In c (list_ascii_of_string id) -> ~ In c terminators) ->
  id_run rest = EmptyString ->
  extractId accepted_shapes (pre ++ String sep ("v=" ++ id ++ rest)) = Some id.
Proof.
  induction pre as [|a pre IH]; intros sep id rest Hpre Hsep Hne Hid Hrest.
  - assert (Hrun : id_of (id ++ rest) = Some id).
    { unfold id_of. rewrite id_run_app by assumption.
      destruct id; [congruence | reflexivity]. }
    change (EmptyString ++ String sep ("v=" ++ id ++ rest))
      with (String sep (String "v" (String "=" (id ++ rest)))).
    destruct Hsep as [-> | ->];
      (destruct id; [congruence|]);
      cbn [extractId id_after accepted_shapes];
      repeat match goal with
        | |- context [starts_with ?w (String ?c ?t)] =>
            let b := eval cbv in (starts_with w (String c (String "v" (String "=" EmptyString)))) in
            change (starts_with w (String c t)) with b; cbv iota
        end;
      match goal with
      | |- context [sdrop ?n (String ?c ?t)] =>
          change (sdrop n (String c t)) with (String a id ++ rest)
      end;
      rewrite Hrun; reflexivity.
  - cbn [extractId] in Hpre.
    destruct (id_after accepted_shapes (String a pre)) eqn:Hhere;
      [discriminate|].
    change (String a pre ++ String sep ("v=" ++ id ++ rest))
      with (String a (pre ++ String sep ("v=" ++ id ++ rest))).
    cbn [extractId].
    change (String a (pre ++ String sep ("v=" ++ id ++ rest)))
      with (String a pre ++ String sep ("v=" ++ id ++ rest)).
    rewrite id_after_before_sep by (auto; reflexivity).
    apply IH; assumption.
Qed.

Lemma extractId_is_run shapes s id :
  extractId shapes s = Some id ->
  id <> EmptyString /\ exists t, id = id_run t.
Proof.
  assert (Hafter : forall t, id_after shapes t = Some id ->
                             id <> EmptyString /\ exists t, id = id_run t).
  { intros t. induction shapes as [|w ws IH]; cbn [id_after]; [discriminate|].
    destruct (starts_with w t); [|exact IH].
    unfold id_of. destruct (id_run _) eqn:Hrun; [exact IH|].
    intros [= <-]. split; [discriminate|]. eexists. symmetry. exact Hrun. }
  induction s as [|c s IH]; cbn [extractId];
    destruct (id_after shapes _) eqn:Hhere; try discriminate.
  - intros [= ->]. eapply Hafter, Hhere.
  - intros [= ->]. eapply Hafter, Hhere.
  - exact IH.
Qed.

(** C10. When the query parameter [?v=] or [&v=] is the first shape of the
    href, the id returned is the run of characters after it up to the first
    ampersand, question mark, hash or newline (or the end of the href); and
    no id that [getYouTubeId] returns, whatever the shape, is empty or holds
    one of these characters. *)
Theorem getYouTubeId_query_param_truncated :
  (forall pre sep id rest,
      getYouTubeId pre = VNull ->
      sep = "?"%char \/ sep = "&"%char ->
      id <> EmptyString ->
      (forall c, In c (list_ascii_of_string id) -> ~ In c terminators) ->
      rest = EmptyString
      \/ (exists c rest', rest = String c rest' /\ In c terminators) ->
      getYouTubeId (pre ++ String sep ("v=" ++ id ++ rest)) = VString id)
  /\ (forall href id,
        getYouTubeId href = VString id ->
        id <> EmptyString
        /\ forall c, In c (list_ascii_of_string id) -> ~ In c terminators)
  /\ getYouTubeId "https://www.youtube.com/watch?v=abc&t=10" = VString "abc".
Proof.
  split; [|split; [|reflexivity]].
  - intros pre sep id rest Hpre Hsep Hne Hid Hrest.
    rewrite getYouTubeId_extractId in Hpre |- *.
    destruct (extractId accepted_shapes pre) eqn:Hp; [discriminate|].
    rewrite (extractId_query_param pre sep id rest); auto.
    apply id_run_stopped, Hrest.
  - intros href id H. rewrite getYouTubeId_extractId in H.
    destruct (extractId accepted_shapes href) eqn:He; [|discriminate].
    injection H as ->.
    destruct (extractId_is_run _ _ _ He) as (Hne & t & ->).
    split; [exact Hne|]. intros c. apply id_run_chars.
Qed.

Lemma getYouTubeId_query_param_truncated_witness :
  getYouTubeId ("https://www.youtube.com/watch"
                  ++ String "?" ("v=" ++ "abc" ++ "&t=10"))
  = VString "abc"
  /\ ("abc" <> EmptyString
      /\ forall c, In c (list_ascii_of_string "abc") -> ~ In c terminators).
Proof.
  split.
  - apply (proj1 getYouTubeId_query_param_truncated).
    + reflexivity.
    + left. reflexivity.
    + discriminate.
    + intros c [<-|[<-|[<-|[]]]] [H|[H|[H|[H|[]]]]]; discriminate.
    + right. exists "&"%char, "t=10". split; [reflexivity | left; reflexivity].
  - apply (proj1 (proj2 getYouTubeId_query_param_truncated)
             "https://www.youtube.com/watch?v=abc&t=10").
    reflexivity.
Defined.

Local Close Scope string_scope.
(** ** Trees *)

Lemma node_ind' (P : node -> Prop) :
  (forall s, P (Text s)) ->
  (forall e cs, Forall P cs -> P (El e cs)) ->
  forall n, P n.
Proof.
  intros HT HE. fix IH 1. intros [s|e cs]; [apply HT|].
  apply HE. induction cs as [|c cs IHcs]; constructor; [apply IH | exact IHcs].
Qed.

Lemma first_filter_map {A B} (h : A -> B) (P : B -> bool) (Q : A -> bool) l :
  (forall a, In a l -> P (h a) = Q a) ->
  first (List.filter P (List.map h l)) = h <$> first (List.filter Q l).
Proof.
  induction l as [|a l IH]; intros HPQ; simpl; [reflexivity|].
  rewrite HPQ by (left; reflexivity).
  destruct (Q a); simpl; [reflexivity|].
  apply IH. intros b Hb. apply HPQ. right. exact Hb.
Qed.

Lemma concat_map_ext_Forall {A B} (f g : A -> list B) l :
  Forall (fun a => f a = g a) l ->
  List.concat (List.map f l) = List.concat (List.map g l).
Proof. induction 1; simpl; congruence. Qed.

Lemma walk_update x f n : forall ancs,
  walk (update x f n) (List.map (upd x f) ancs)
  = List.map (entry_map (upd x f) (update x f)) (walk n ancs).
Proof.
  induction n as [s|e cs IH] using node_ind'; intros ancs; [reflexivity|].
  cbn [update walk List.map]. unfold entry_map at 1. cbn [fst snd]. f_equal.
  rewrite List.concat_map, !List.map_map.
  apply concat_map_ext_Forall.
  eapply Forall_impl; [exact IH|]. intros c Hc. cbn beta.
  apply (Hc (e :: ancs)).
Qed.

Lemma walk_elements n : forall ancs,
  List.map (fun en => snd (fst en)) (walk n ancs) = elements n.
Proof.
  induction n as [s|e cs IH] using node_ind'; intros ancs; [reflexivity|].
  cbn [walk elements List.map fst snd]. f_equal.
  rewrite List.concat_map, List.map_map.
  apply concat_map_ext_Forall.
  eapply Forall_impl; [exact IH|]. intros c Hc. apply Hc.
Qed.

Lemma upd_nid x f e : (forall e, nid (f e) = nid e) -> nid (upd x f e) = nid e.
Proof. intros Hf. unfold upd. destruct (Nat.eqb _ _); auto. Qed.

Lemma upd_same x f e : nid e = x -> upd x f e = f e.
Proof. intros <-. unfold upd. rewrite Nat.eqb_refl. reflexivity. Qed.

Lemma first_entry_update P x f doc :
  (forall en, P (entry_map (upd x f) (update x f) en) = P en) ->
  first_entry P (update x f doc)
  = entry_map (upd x f) (update x f) <$> first_entry P doc.
Proof.
  intros HP. unfold first_entry.
  change (@nil element) with (List.map (upd x f) []) at 1.
  rewrite walk_update. apply first_filter_map. intros en _. apply HP.
Qed.

Lemma is_descendant_of_update y x f en :
  (forall e, nid (f e) = nid e) ->
  is_descendant_of y (entry_map (upd x f) (update x f) en)
  = is_descendant_of y en.
Proof.
  intros Hf. unfold is_descendant_of, entry_map. cbn [fst snd].
  induction (fst (fst en)) as [|a l IH]; simpl; [reflexivity|].
  rewrite upd_nid by exact Hf. rewrite IH. reflexivity.
Qed.

Lemma keeps_upd s x f : keeps s f -> keeps s (upd x f).
Proof. intros H e. unfold upd. destruct (Nat.eqb _ _); auto. Qed.

Lemma entry_update y x f doc :
  (forall e, nid (f e) = nid e) ->
  entry (update x f doc) y
  = entry_map (upd x f) (update x f) <$> entry doc y.
Proof.
  intros Hf. apply first_entry_update. intros en.
  unfold entry_nid, entry_map. cbn [fst snd]. rewrite upd_nid by exact Hf.
  reflexivity.
Qed.

Lemma lookup_update y x f doc :
  (forall e, nid (f e) = nid e) ->
  lookup (update x f doc) y = upd x f <$> lookup doc y.
Proof.
  intros Hf. unfold lookup. rewrite entry_update by exact Hf.
  destruct (entry doc y); reflexivity.
Qed.

Lemma parentElement_update y x f doc :
  (forall e, nid (f e) = nid e) ->
  parentElement (update x f doc) y = upd x f <$> parentElement doc y.
Proof.
  intros Hf. unfold parentElement. rewrite entry_update by exact Hf.
  destruct (entry doc y) as [[[ancs e] cs]|]; [|reflexivity].
  cbn. destruct ancs; reflexivity.
Qed.

Lemma querySelector_update y s x f doc :
  (forall e, nid (f e) = nid e) ->
  keeps s f ->
  querySelector (update x f doc) y (Sel s)
  = upd x f <$> querySelector doc y (Sel s).
Proof.
  intros Hf Hs. unfold querySelector.
  change (first (List.filter ?P (walk ?d []))) with (first_entry P d).
  rewrite first_entry_update.
  - destruct (first_entry _ doc); reflexivity.
  - intros en. rewrite is_descendant_of_update by exact Hf.
    f_equal. unfold entry_map. cbn [fst snd matches].
    apply keeps_upd, Hs.
Qed.

Lemma getElementById_update id x f doc :
  (forall e, attrs (f e) = attrs e) ->
  getElementById (update x f doc) id = upd x f <$> getElementById doc id.
Proof.
  intros Hf. unfold getElementById.
  change (first (List.filter ?P (walk ?d []))) with (first_entry P d).
  rewrite first_entry_update.
  - destruct (first_entry _ doc); reflexivity.
  - intros en. unfold entry_map. cbn [fst snd].
    replace (attrs (upd x f (snd (fst en)))) with (attrs (snd (fst en)));
      [reflexivity|].
    unfold upd. destruct (Nat.eqb _ _); auto.
Qed.

(** ** Element operations *)

Lemma has_class_set_classes c cs e :
  has_class c (set_classes cs e) = existsb (String.eqb c) cs.
Proof. reflexivity. Qed.

Lemma has_class_add_same c e : has_class c (classList_add c e) = true.
Proof.
  unfold classList_add. destruct (has_class c e) eqn:H; [exact H|].
  rewrite has_class_set_classes, existsb_app. simpl.
  rewrite String.eqb_refl. apply orb_true_r.
Qed.

Lemma has_class_add_other c d e :
  c <> d -> has_class c (classList_add d e) = has_class c e.
Proof.
  intros Hne. unfold classList_add. destruct (has_class d e); [reflexivity|].
  rewrite has_class_set_classes, existsb_app. simpl.
  apply String.eqb_neq in Hne. rewrite Hne. unfold has_class.
  rewrite !orb_false_r. reflexivity.
Qed.

Lemma has_class_remove_same c e : has_class c (classList_remove c e) = false.
Proof.
  unfold classList_remove. rewrite has_class_set_classes.
  induction (classes e) as [|d l IH]; simpl; [reflexivity|].
  destruct (String.eqb c d) eqn:Hcd; simpl; [exact IH|].
  rewrite Hcd. exact IH.
Qed.

Lemma has_class_remove_other c d e :
  c <> d -> has_class c (classList_remove d e) = has_class c e.
Proof.
  intros Hne. unfold classList_remove. rewrite has_class_set_classes.
  unfold has_class.
  induction (classes e) as [|d' l IH]; simpl; [reflexivity|].
  destruct (String.eqb d d') eqn:Hd; simpl.
  - apply String.eqb_eq in Hd. subst d'.
    apply String.eqb_neq in Hne. rewrite Hne. exact IH.
  - rewrite IH. reflexivity.
Qed.

Lemma keeps_class_add c d : c <> d -> keeps (SClass c) (classList_add d).
Proof. intros H e. apply has_class_add_other, H. Qed.

Lemma keeps_class_remove c d : c <> d -> keeps (SClass c) (classList_remove d).
Proof. intros H e. apply has_class_remove_other, H. Qed.

Lemma keeps_tag_add t d : keeps (STag t) (classList_add d).
Proof. intros e. unfold classList_add. destruct (has_class d e); reflexivity. Qed.

Lemma keeps_tag_remove t d : keeps (STag t) (classList_remove d).
Proof. intros e. reflexivity. Qed.

Lemma keeps_media_play s : keeps s media_play.
Proof. intros e. destruct s; reflexivity. Qed.

Lemma keeps_media_pause s : keeps s media_pause.
Proof. intros e. destruct s; reflexivity. Qed.

Lemma keeps_media_seek s t : keeps s (media_seek t).
Proof. intros e. destruct s; reflexivity. Qed.

Lemma nid_classList_add c e : nid (classList_add c e) = nid e.
Proof. unfold classList_add. destruct (has_class c e); reflexivity. Qed.

Lemma getAttribute_upd name x f e :
  (forall e, attrs (f e) = attrs e) ->
  String.eqb (lower name) "class" = false ->
  getAttribute name (upd x f e) = getAttribute name e.
Proof.
  intros Hf Hn. unfold getAttribute. rewrite Hn.
  unfold upd. destruct (Nat.eqb _ _); [rewrite Hf|]; reflexivity.
Qed.

Lemma paused_classList_add c e : paused (classList_add c e) = paused e.
Proof. unfold classList_add. destruct (has_class c e); reflexivity. Qed.

Lemma currentTime_classList_add c e :
  currentTime (classList_add c e) = currentTime e.
Proof. unfold classList_add. destruct (has_class c e); reflexivity. Qed.

(** ** [toggleVideoOverlay], branch by branch *)

Lemma toggle_no_modal st block :
  querySelector (document st) block selectors_videoModal = None ->
  toggleVideoOverlay block st = Thrown TypeError st.
Proof.
  intros H. unfold toggleVideoOverlay, bind, get_document. rewrite H.
  reflexivity.
Qed.

Lemma toggle_no_content st block modal :
  querySelector (document st) block selectors_videoModal = Some modal ->
  querySelector (document st) (nid modal) selectors_videoContent = None ->
  toggleVideoOverlay block st = Thrown TypeError st.
Proof.
  intros H1 H2. unfold toggleVideoOverlay, bind, get_document.
  rewrite H1, H2. reflexivity.
Qed.

Lemma toggle_close_youtube st block modal videoContent :
  found (document st) block modal videoContent ->
  has_class "open" modal = true ->
  is_youtube videoContent = true ->
  let doc1 := update (nid modal) (classList_remove "open") (document st) in
  let st1 := with_trace (trace st ++ stop_effect st) (set_document doc1 st) in
  toggleVideoOverlay block st
  = match getElementById doc1
            (ytFrame (getAttribute "data-videoId" videoContent)) with
    | Some iFrame =>
        match parentElement doc1 (nid iFrame) with
        | Some _ => Returned tt (set_document (remove_node (nid iFrame) doc1) st1)
        | None => Thrown TypeError st1
        end
    | None => Returned tt st1
    end.
Proof.
  intros [Hm Hc] Hopen Hyt doc1 st1.
  unfold toggleVideoOverlay, bind, get_document. rewrite Hm, Hc, Hopen.
  unfold is_youtube in Hyt. rewrite Hyt.
  unfold modify_document, get_player, stop_effect in *. cbn [document].
  subst st1 doc1. unfold with_trace, set_document. cbn [document trace player
    next_nid window_YT window_onYouTubePlayerAPIReady].
  destruct (player st) as [p|]; unfold emit, ret; cbn;
    rewrite ?app_nil_r;
    (destruct (getElementById _ _) as [iFrame|]; [|reflexivity]);
    (destruct (parentElement _ _); reflexivity).
Qed.


(** ** Removing a node *)

Lemma lookup_elements doc x :
  lookup doc x = first (List.filter (fun e => Nat.eqb (nid e) x) (elements doc)).
Proof.
  unfold lookup, entry. rewrite <- (walk_elements doc []).
  symmetry. apply first_filter_map. reflexivity.
Qed.

Lemma In_concat_map {A B} (f : A -> list B) l b :
  In b (List.concat (List.map f l)) <-> exists a, In a l /\ In b (f a).
Proof.
  rewrite in_concat. split.
  - intros (lb & Hlb & Hb). apply in_map_iff in Hlb as (a & <- & Ha). eauto.
  - intros (a & Ha & Hb). exists (f a). split; [apply in_map, Ha | exact Hb].
Qed.

Lemma remove_node_elements x n :
  is_node x n = false ->
  forall e, In e (elements (remove_node x n)) -> nid e <> x.
Proof.
  induction n as [s|r cs IH] using node_ind'; intros Hroot e He;
    [destruct He|].
  cbn [remove_node elements] in He. destruct He as [<-|He].
  - simpl in Hroot. apply Nat.eqb_neq, Hroot.
  - apply In_concat_map in He as (c' & Hc' & He).
    apply In_concat_map in Hc' as (c & Hc & Hc').
    destruct (is_node x c) eqn:Hx; [destruct Hc'|].
    destruct Hc' as [<-|[]].
    rewrite Forall_forall in IH. eapply IH; eauto.
    apply list_elem_of_In, Hc.
Qed.

Lemma lookup_remove_node x doc :
  is_node x doc = false -> lookup (remove_node x doc) x = None.
Proof.
  intros Hroot. rewrite lookup_elements.
  assert (H : Forall (fun e => nid e <> x) (elements (remove_node x doc))).
  { apply Forall_forall. intros e He. apply list_elem_of_In in He.
    eapply remove_node_elements; eauto. }
  induction H as [|e l He _ IH]; simpl; [reflexivity|].
  apply Nat.eqb_neq in He. rewrite He. exact IH.
Qed.

Lemma parentElement_not_root doc x p :
  parentElement doc x = Some p -> is_node x doc = false.
Proof.
  destruct doc as [s|r cs]; [reflexivity|]. simpl.
  unfold parentElement, entry. cbn [walk List.filter]. unfold entry_nid at 1.
  cbn [fst snd]. destruct (Nat.eqb (nid r) x); [discriminate | reflexivity].
Qed.


Lemma elements_update x f n :
  elements (update x f n) = List.map (upd x f) (elements n).
Proof.
  induction n as [s|r cs IH] using node_ind'; [reflexivity|].
  cbn [update elements List.map]. f_equal.
  rewrite List.concat_map, !List.map_map.
  apply concat_map_ext_Forall. exact IH.
Qed.

(** C9. On the close transition of a Youtube modal: the only call on the
    player is [stopVideo], and none is made when there is no player; the
    [player] variable keeps its value; and when the element with the id
    [ytFrame-<videoId>] exists (with its parent, the container), the call
    returns and that element is no longer in the document. *)
Theorem toggle_close_youtube_teardown st block modal videoContent :
  found (document st) block modal videoContent ->
  has_class "open" modal = true ->
  is_youtube videoContent = true ->
  let o := toggleVideoOverlay block st in
  (player st = None -> trace (state_of o) = trace st)
  /\ (forall p, player st = Some p ->
                trace (state_of o) = trace st ++ [StopVideo p])
  /\ player (state_of o) = player st
  /\ (forall iFrame container,
        getElementById (document st)
          (ytFrame (getAttribute "data-videoId" videoContent)) = Some iFrame ->
        parentElement (document st) (nid iFrame) = Some container ->
        exists st', o = Returned tt st'
                    /\ lookup (document st') (nid iFrame) = None).
Proof.
  intros Hf Hopen Hyt o. subst o.
  rewrite (toggle_close_youtube st block modal videoContent Hf Hopen Hyt).
  set (doc1 := update (nid modal) (classList_remove "open") (document st)).
  set (id := ytFrame (getAttribute "data-videoId" videoContent)).
  assert (Hid : getElementById doc1 id
                = upd (nid modal) (classList_remove "open")
                    <$> getElementById (document st) id)
    by (apply getElementById_update; reflexivity).
  assert (Hpar : forall y, parentElement doc1 y
                = upd (nid modal) (classList_remove "open")
                    <$> parentElement (document st) y)
    by (intros; apply parentElement_update; reflexivity).
  repeat split.
  - intros Hp. unfold stop_effect. rewrite Hp, app_nil_r.
    destruct (getElementById doc1 id) as [i|]; [|reflexivity].
    destruct (parentElement doc1 (nid i)); reflexivity.
  - intros p Hp. unfold stop_effect. rewrite Hp.
    destruct (getElementById doc1 id) as [i|]; [|reflexivity].
    destruct (parentElement doc1 (nid i)); reflexivity.
  - destruct (getElementById doc1 id) as [i|]; [|reflexivity].
    destruct (parentElement doc1 (nid i)); reflexivity.
  - intros iFrame container Hi Hc.
    rewrite Hid, Hi. cbn [fmap option_fmap option_map].
    assert (Hn : nid (upd (nid modal) (classList_remove "open") iFrame)
                 = nid iFrame) by (apply upd_nid; reflexivity).
    rewrite Hn, Hpar, Hc. cbn [fmap option_fmap option_map].
    eexists. split; [reflexivity|]. cbn [document set_document with_trace].
    apply lookup_remove_node.
    eapply parentElement_not_root. rewrite Hpar, Hc. reflexivity.
Qed.

Lemma toggle_close_direct st block modal videoContent :
  found (document st) block modal videoContent ->
  has_class "open" modal = true ->
  is_youtube videoContent = false ->
  let doc1 := update (nid modal) (classList_remove "open") (document st) in
  toggleVideoOverlay block st
  = match querySelector (document st) (nid modal) (Sel (STag "video")) with
    | Some video =>
        Returned tt
          (set_document
             (update (nid video) (media_seek 0)
                (update (nid video) media_pause doc1)) st)
    | None => Thrown TypeError (set_document doc1 st)
    end.
Proof.
  intros [Hm Hc] Hopen Hyt doc1.
  unfold toggleVideoOverlay, bind, get_document. rewrite Hm, Hc, Hopen.
  unfold is_youtube in Hyt. rewrite Hyt.
  unfold modify_document, set_document, ret, throw. cbn [document].
  fold doc1.
  assert (H1 : querySelector doc1 (nid modal) (Sel (STag "video"))
               = upd (nid modal) (classList_remove "open")
                   <$> querySelector (document st) (nid modal) (Sel (STag "video"))).
  { apply querySelector_update; [reflexivity | apply keeps_tag_remove]. }
  rewrite H1.
  destruct (querySelector (document st) (nid modal) (Sel (STag "video")))
    as [video|]; cbn [fmap option_fmap option_map document].
  - assert (Hn : nid (upd (nid modal) (classList_remove "open") video) = nid video)
      by (apply upd_nid; reflexivity).
    rewrite Hn.
    rewrite (querySelector_update (nid modal) (STag "video") (nid video) media_pause)
      by (try reflexivity; apply keeps_media_pause).
    rewrite H1. cbn [fmap option_fmap option_map].
    rewrite !upd_nid by reflexivity. reflexivity.
  - rewrite H1. reflexivity.
Qed.

Lemma toggle_open_direct st block modal videoContent :
  found (document st) block modal videoContent ->
  has_class "open" modal = false ->
  is_youtube videoContent = false ->
  let doc1 := update (nid modal) (classList_add "open") (document st) in
  toggleVideoOverlay block st
  = match querySelector (document st) (nid modal) (Sel (STag "video")) with
    | Some video =>
        Returned tt (set_document (update (nid video) media_play doc1) st)
    | None => Returned tt (set_document doc1 st)
    end.
Proof.
  intros [Hm Hc] Hopen Hyt doc1.
  unfold toggleVideoOverlay, bind, get_document. rewrite Hm, Hc, Hopen.
  unfold is_youtube in Hyt. rewrite Hyt.
  unfold modify_document, set_document, ret. cbn [document].
  fold doc1.
  assert (H1 : querySelector doc1 (nid modal) (Sel (STag "video"))
               = upd (nid modal) (classList_add "open")
                   <$> querySelector (document st) (nid modal) (Sel (STag "video"))).
  { apply querySelector_update; [apply nid_classList_add | apply keeps_tag_add]. }
  rewrite H1.
  destruct (querySelector (document st) (nid modal) (Sel (STag "video")))
    as [video|]; cbn [fmap option_fmap option_map document]; [|reflexivity].
  rewrite upd_nid by apply nid_classList_add. reflexivity.
Qed.

Lemma toggle_open_youtube_loaded st block modal videoContent :
  found (document st) block modal videoContent ->
  has_class "open" modal = false ->
  is_youtube videoContent = true ->
  window_YT st = true ->
  let videoId := getAttribute "data-videoId" videoContent in
  let p := {| p_element := ytFrame videoId; p_videoId := videoId |} in
  toggleVideoOverlay block st
  = Returned tt
      {| document := opened_document st modal videoContent;
         next_nid := S (next_nid st);
         window_YT := true;
         window_onYouTubePlayerAPIReady := window_onYouTubePlayerAPIReady st;
         player := Some p;
         trace := trace st ++ [NewPlayer p] |}.
Proof.
  intros [Hm Hc] Hopen Hyt HYT videoId p.
  unfold toggleVideoOverlay, bind, get_document. rewrite Hm, Hc, Hopen.
  unfold is_youtube in Hyt. rewrite Hyt.
  unfold modify_document, set_document, fresh, get_YT, loadYouTubePlayer, bind,
    get_YT, emit, set_player.
  cbn [document next_nid window_YT window_onYouTubePlayerAPIReady player trace].
  rewrite HYT. reflexivity.
Qed.

Lemma toggle_open_youtube_absent st block modal videoContent :
  found (document st) block modal videoContent ->
  has_class "open" modal = false ->
  is_youtube videoContent = true ->
  window_YT st = false ->
  let videoId := getAttribute "data-videoId" videoContent in
  let doc2 := opened_document st modal videoContent in
  let tag := setAttribute "src" (VString iframe_api)
               (new_element (S (next_nid st)) "script") in
  let st2 := {| document := doc2; next_nid := S (S (next_nid st));
                window_YT := false;
                window_onYouTubePlayerAPIReady := window_onYouTubePlayerAPIReady st;
                player := player st; trace := trace st |} in
  toggleVideoOverlay block st
  = match firstByTagName doc2 "script" with
    | None => Thrown TypeError st2
    | Some firstScriptTag =>
        match parentElement doc2 (nid firstScriptTag) with
        | None => Thrown HierarchyRequestError st2
        | Some _ =>
            Returned tt
              {| document := insert_before (El tag []) (nid firstScriptTag) doc2;
                 next_nid := S (S (next_nid st));
                 window_YT := false;
                 window_onYouTubePlayerAPIReady := Some videoId;
                 player := player st;
                 trace := trace st ++ [FetchScript iframe_api] |}
        end
    end.
Proof.
  intros [Hm Hc] Hopen Hyt HYT videoId doc2 tag st2.
  unfold toggleVideoOverlay, bind, get_document. rewrite Hm, Hc, Hopen.
  unfold is_youtube in Hyt. rewrite Hyt.
  unfold modify_document, set_document, fresh, get_YT, bind, get_document.
  cbn [document next_nid window_YT window_onYouTubePlayerAPIReady player trace].
  rewrite HYT. subst doc2 st2 tag videoId.
  unfold opened_document, ytFrame_div, throw, emit, set_onYouTubePlayerAPIReady.
  cbn [document next_nid window_YT window_onYouTubePlayerAPIReady player trace].
  match goal with
  | |- context [firstByTagName ?d "script"] =>
      destruct (firstByTagName d "script") as [s|]; [|reflexivity];
      destruct (parentElement d (nid s)); reflexivity
  end.
Qed.

(** ** Direct-file modals *)

Lemma plain_media_play : plain media_play.
Proof. split; reflexivity. Qed.
Lemma plain_media_pause : plain media_pause.
Proof. split; reflexivity. Qed.
Lemma plain_media_seek t : plain (media_seek t).
Proof. split; reflexivity. Qed.
Lemma plain_classList_add c : plain (classList_add c).
Proof.
  split; intros e; unfold classList_add; destruct (has_class c e); reflexivity.
Qed.
Lemma plain_classList_remove c : plain (classList_remove c).
Proof. split; reflexivity. Qed.

Lemma keeps_tag_plain t f : plain f -> keeps (STag t) f.
Proof. intros Hf e. simpl. rewrite (plain_tag f Hf). reflexivity. Qed.

Lemma is_youtube_upd x f e : plain f -> is_youtube (upd x f e) = is_youtube e.
Proof.
  intros Hf. unfold is_youtube.
  rewrite getAttribute_upd; [reflexivity | apply Hf | reflexivity].
Qed.

Lemma found_update doc block modal videoContent x f :
  plain f ->
  keeps (SClass "video-modal") f ->
  keeps (SClass "video-modal-content") f ->
  found doc block modal videoContent ->
  found (update x f doc) block (upd x f modal) (upd x f videoContent).
Proof.
  intros Hf Hk1 Hk2 [Hm Hc]. unfold selectors_videoModal in Hm.
  unfold selectors_videoContent in Hc. split.
  - unfold selectors_videoModal.
    rewrite querySelector_update by (try apply Hf; assumption).
    rewrite Hm. reflexivity.
  - unfold selectors_videoContent.
    rewrite querySelector_update by (try apply Hf; assumption).
    rewrite upd_nid by apply Hf. rewrite Hc. reflexivity.
Qed.

(** How an update of the element [x] shows on a direct-file modal. *)
Lemma direct_modal_update doc block nm nv o pz t x f :
  plain f ->
  keeps (SClass "video-modal") f ->
  keeps (SClass "video-modal-content") f ->
  direct_modal doc block nm nv o pz t ->
  exists modal video,
    nid modal = nm /\ has_class "open" modal = o
    /\ nid video = nv /\ paused video = pz /\ currentTime video = t
    /\ direct_modal (update x f doc) block nm nv
         (has_class "open" (upd x f modal))
         (paused (upd x f video)) (currentTime (upd x f video)).
Proof.
  intros Hf Hk1 Hk2 (modal & videoContent & video & Hfound & Hnm & Hyt & Ho
                     & Hv & Hnv & Hp & Ht).
  exists modal, video. repeat (split; [assumption|]).
  exists (upd x f modal), (upd x f videoContent), (upd x f video).
  split; [apply found_update; assumption|].
  split; [rewrite upd_nid by apply Hf; exact Hnm|].
  split; [rewrite is_youtube_upd by exact Hf; exact Hyt|].
  split; [reflexivity|].
  split.
  { unfold video_sel in *.
    rewrite querySelector_update
      by (try apply Hf; apply keeps_tag_plain, Hf).
    rewrite Hv. reflexivity. }
  split; [rewrite upd_nid by apply Hf; exact Hnv|].
  split; reflexivity.
Qed.

Lemma direct_close_step st block nm nv pz t :
  direct_modal (document st) block nm nv true pz t ->
  exists st',
    toggleVideoOverlay block st = Returned tt st'
    /\ direct_modal (document st') block nm nv false true 0.
Proof.
  intros H.
  pose proof H as (modal & videoContent & video & Hfound & Hnm & Hyt & Ho
                   & Hv & Hnv & Hp & Ht).
  subst nm. rewrite (toggle_close_direct st block modal videoContent) by assumption.
  unfold video_sel in Hv. rewrite Hv. eexists. split; [reflexivity|].
  cbn [document set_document]. rewrite Hnv.
  destruct (direct_modal_update _ block (nid modal) nv true pz t (nid modal)
              (classList_remove "open") (plain_classList_remove _)
              (keeps_class_remove "video-modal" "open" ltac:(discriminate))
              (keeps_class_remove "video-modal-content" "open" ltac:(discriminate)) H)
    as (m1 & v1 & Hm1 & Ho1 & Hv1 & Hp1 & Ht1 & H1).
  rewrite (upd_same _ _ m1 Hm1), has_class_remove_same in H1.
  destruct (direct_modal_update _ block (nid modal) nv _ _ _ nv
              media_pause plain_media_pause
              (keeps_media_pause _) (keeps_media_pause _) H1)
    as (m2 & v2 & Hm2 & Ho2 & Hv2 & Hp2 & Ht2 & H2).
  rewrite (upd_same _ _ v2 Hv2) in H2.
  replace (has_class "open" (upd nv media_pause m2)) with false in H2
    by (unfold upd; destruct (Nat.eqb _ _); symmetry; exact Ho2).
  cbn [paused currentTime media_pause set_media] in H2.
  destruct (direct_modal_update _ block (nid modal) nv _ _ _ nv
              (media_seek 0) (plain_media_seek 0)
              (keeps_media_seek _ _) (keeps_media_seek _ _) H2)
    as (m3 & v3 & Hm3 & Ho3 & Hv3 & Hp3 & Ht3 & H3).
  rewrite (upd_same _ _ v3 Hv3) in H3.
  replace (has_class "open" (upd nv (media_seek 0) m3)) with false in H3
    by (unfold upd; destruct (Nat.eqb _ _); symmetry; exact Ho3).
  cbn [paused currentTime media_seek set_media] in H3.
  rewrite Hp3 in H3. exact H3.
Qed.

Lemma direct_open_step st block nm nv pz t :
  direct_modal (document st) block nm nv false pz t ->
  exists st',
    toggleVideoOverlay block st = Returned tt st'
    /\ direct_modal (document st') block nm nv true false t.
Proof.
  intros H.
  pose proof H as (modal & videoContent & video & Hfound & Hnm & Hyt & Ho
                   & Hv & Hnv & Hp & Ht).
  subst nm. rewrite (toggle_open_direct st block modal videoContent) by assumption.
  unfold video_sel in Hv. rewrite Hv. eexists. split; [reflexivity|].
  cbn [document set_document]. rewrite Hnv.
  destruct (direct_modal_update _ block (nid modal) nv false pz t (nid modal)
              (classList_add "open") (plain_classList_add _)
              (keeps_class_add "video-modal" "open" ltac:(discriminate))
              (keeps_class_add "video-modal-content" "open" ltac:(discriminate)) H)
    as (m1 & v1 & Hm1 & Ho1 & Hv1 & Hp1 & Ht1 & H1).
  rewrite (upd_same _ _ m1 Hm1), has_class_add_same in H1.
  replace (paused (upd (nid modal) (classList_add "open") v1)) with pz in H1
    by (unfold upd; destruct (Nat.eqb _ _);
        rewrite ?paused_classList_add; symmetry; exact Hp1).
  replace (currentTime (upd (nid modal) (classList_add "open") v1)) with t in H1
    by (unfold upd; destruct (Nat.eqb _ _);
        rewrite ?currentTime_classList_add; symmetry; exact Ht1).
  destruct (direct_modal_update _ block (nid modal) nv _ _ _ nv
              media_play plain_media_play
              (keeps_media_play _) (keeps_media_play _) H1)
    as (m2 & v2 & Hm2 & Ho2 & Hv2 & Hp2 & Ht2 & H2).
  rewrite (upd_same _ _ v2 Hv2) in H2.
  replace (has_class "open" (upd nv media_play m2)) with true in H2
    by (unfold upd; destruct (Nat.eqb _ _); symmetry; exact Ho2).
  cbn [paused currentTime media_play set_media] in H2.
  rewrite Ht2 in H2. exact H2.
Qed.

Lemma direct_progress_step st block nm nv o pz t t' :
  direct_modal (document st) block nm nv o pz t ->
  direct_modal (document (step (Progress nv t') st)) block nm nv o pz t'.
Proof.
  intros H. cbn [step document set_document].
  destruct (direct_modal_update _ block nm nv _ _ _ nv
              (media_seek t') (plain_media_seek t')
              (keeps_media_seek _ _) (keeps_media_seek _ _) H)
    as (m & v & Hm & Ho & Hv & Hp & Ht & H').
  rewrite (upd_same _ _ v Hv) in H'.
  replace (has_class "open" (upd nv (media_seek t') m)) with o in H'
    by (unfold upd; destruct (Nat.eqb _ _); symmetry; exact Ho).
  cbn [paused currentTime media_seek set_media] in H'.
  rewrite Hp in H'. exact H'.
Qed.

(** C6. Closing a direct-file modal returns with its video element paused
    and at position 0; and after opening, any playback progress, and closing,
    the reopened modal finds the video at position 0 (and playing). *)
Theorem direct_file_close_resets_position :
  (forall st block nm nv pz t,
      direct_modal (document st) block nm nv true pz t ->
      exists st',
        toggleVideoOverlay block st = Returned tt st'
        /\ direct_modal (document st') block nm nv false true 0)
  /\ (forall st block nm nv pz t t',
        direct_modal (document st) block nm nv false pz t ->
        exists st1 st2 st3,
          toggleVideoOverlay block st = Returned tt st1
          /\ toggleVideoOverlay block (step (Progress nv t') st1)
             = Returned tt st2
          /\ direct_modal (document st2) block nm nv false true 0
          /\ toggleVideoOverlay block st2 = Returned tt st3
          /\ direct_modal (document st3) block nm nv true false 0).
Proof.
  split; [exact direct_close_step|].
  intros st block nm nv pz t t' H.
  destruct (direct_open_step _ _ _ _ _ _ H) as (st1 & E1 & H1).
  pose proof (direct_progress_step _ _ _ _ _ _ _ t' H1) as H1'.
  destruct (direct_close_step _ _ _ _ _ _ H1') as (st2 & E2 & H2).
  destruct (direct_open_step _ _ _ _ _ _ H2) as (st3 & E3 & H3).
  exists st1, st2, st3. auto.
Qed.

(** ** What a call of [toggleVideoOverlay] does to the outside world *)

Lemma toggle_effects block st :
  exists l,
    trace (state_of (toggleVideoOverlay block st)) = trace st ++ l
    /\ toggle_effect st l
    /\ window_YT (state_of (toggleVideoOverlay block st)) = window_YT st.
Proof.
  destruct (querySelector (document st) block selectors_videoModal)
    as [modal|] eqn:Hm.
  2:{ rewrite toggle_no_modal by exact Hm. exists []. rewrite app_nil_r.
      repeat split. constructor. }
  destruct (querySelector (document st) (nid modal) selectors_videoContent)
    as [vc|] eqn:Hc.
  2:{ rewrite (toggle_no_content st block modal) by assumption.
      exists []. rewrite app_nil_r. repeat split. constructor. }
  assert (Hf : found (document st) block modal vc) by (split; assumption).
  destruct (has_class "open" modal) eqn:Ho, (is_youtube vc) eqn:Hy.
  - rewrite (toggle_close_youtube st block modal vc) by assumption.
    exists (stop_effect st).
    assert (He : toggle_effect st (stop_effect st)).
    { unfold stop_effect. destruct (player st) eqn:Hp; constructor.
      exact Hp. }
    destruct (getElementById _ _) as [i|];
      [destruct (parentElement _ _)|]; repeat split; assumption.
  - rewrite (toggle_close_direct st block modal vc) by assumption.
    exists []. rewrite app_nil_r.
    destruct (querySelector _ _ (Sel (STag "video")));
      repeat split; constructor.
  - destruct (window_YT st) eqn:HYT.
    + rewrite (toggle_open_youtube_loaded st block modal vc) by assumption.
      eexists. repeat split. constructor. exact HYT.
    + rewrite (toggle_open_youtube_absent st block modal vc) by assumption.
      destruct (firstByTagName _ _) as [s|].
      * destruct (parentElement _ _).
        -- eexists. repeat split. constructor. exact HYT.
        -- exists []. rewrite app_nil_r. repeat split. constructor.
      * exists []. rewrite app_nil_r. repeat split. constructor.
  - rewrite (toggle_open_direct st block modal vc) by assumption.
    exists []. rewrite app_nil_r.
    destruct (querySelector _ _ (Sel (STag "video")));
      repeat split; constructor.
Qed.

Lemma sdkReady_effects st :
  fetches (trace (state_of (sdkReady st))) = fetches (trace st)
  /\ window_YT (state_of (sdkReady st)) = true.
Proof.
  unfold sdkReady. destruct (window_onYouTubePlayerAPIReady st) as [v|];
    [|split; reflexivity].
  unfold loadYouTubePlayer, bind, get_YT, emit, set_player.
  cbn [window_YT state_of trace]. split; [|reflexivity].
  unfold fetches. rewrite List.filter_app, length_app. simpl. lia.
Qed.

Lemma fetches_app l1 l2 : fetches (l1 ++ l2) = fetches l1 + fetches l2.
Proof. unfold fetches. rewrite List.filter_app. apply length_app. Qed.

Lemma step_fetches ev st :
  fetches (trace st) <= fetches (trace (step ev st))
                     <= S (fetches (trace st))
  /\ (window_YT st = true ->
      fetches (trace (step ev st)) = fetches (trace st)
      /\ window_YT (step ev st) = true)
  /\ (ev = SdkReady -> window_YT (step ev st) = true).
Proof.
  destruct ev as [block| |v t]; cbn [step].
  - destruct (toggle_effects block st) as (l & Htr & He & HYT).
    rewrite Htr, HYT, fetches_app.
    split; [|split; [|discriminate]].
    + destruct He; cbn; lia.
    + intros H. split; [|exact H].
      destruct He; cbn; try lia. congruence.
  - destruct (sdkReady_effects st) as [Hf HYT]. rewrite Hf, HYT.
    repeat split; auto; lia.
  - cbn [trace set_document window_YT]. repeat split; auto; try lia.
    discriminate.
Qed.

Lemma run_app evs1 evs2 st : run (evs1 ++ evs2) st = run evs2 (run evs1 st).
Proof. unfold run. apply fold_left_app. Qed.

Lemma run_loaded evs : forall st,
  window_YT st = true ->
  fetches (trace (run evs st)) = fetches (trace st)
  /\ window_YT (run evs st) = true.
Proof.
  induction evs as [|ev evs IH]; intros st H; [split; [reflexivity | exact H]|].
  cbn [run fold_left].
  destruct (step_fetches ev st) as (_ & Hl & _). destruct (Hl H) as [Hf HYT].
  destruct (IH _ HYT) as [Hf' HYT']. unfold run in *.
  split; [congruence | exact HYT'].
Qed.

Lemma run_fetches_bound evs : forall st,
  fetches (trace (run evs st)) <= fetches (trace st) + length evs.
Proof.
  induction evs as [|ev evs IH]; intros st; cbn [run fold_left length];
    [lia|].
  destruct (step_fetches ev st) as (Hb & _). specialize (IH (step ev st)).
  unfold run in IH. lia.
Qed.

(** ** The SDK script *)

(** C2, as stated: on the decorated teaser, with the SDK not yet loaded, the
    sequence open, close, open injects the SDK script twice; the page then
    holds two script elements for it. *)
Lemma sdk_script_injected_twice :
  let st := run [Toggle 5; Toggle 5; Toggle 5]
                (decorated false yt_href) in
  fetches (trace st) = 2
  /\ trace st = [FetchScript iframe_api; FetchScript iframe_api]
  /\ length (List.filter
               (fun e => String.eqb (tag e) "script"
                         && String.eqb (href_src e) iframe_api)
               (elements (document st))) = 2.
Proof. vm_compute. repeat split. Qed.

(** C2, amended. An open injects the SDK script exactly when it finds
    [window.YT] unset: every event injects at most one script; once
    [window.YT] is set no later event injects any, so nothing is injected
    after the SDK has announced itself, and a sequence whose second event is
    that announcement injects at most once; and an open of a closed Youtube
    modal that finds [window.YT] unset, on a page that has a script element
    to insert before, returns having injected one script. *)
Theorem sdk_script_injected_while_absent :
  (forall st ev,
      fetches (trace st) <= fetches (trace (step ev st))
                         <= S (fetches (trace st)))
  /\ (forall st evs,
        window_YT st = true ->
        fetches (trace (run evs st)) = fetches (trace st))
  /\ (forall st evs1 evs2,
        fetches (trace (run (evs1 ++ SdkReady :: evs2) st))
        = fetches (trace (run evs1 st)))
  /\ (forall st ev evs,
        fetches (trace (run (ev :: SdkReady :: evs) st))
        <= S (fetches (trace st)))
  /\ (forall st block modal videoContent firstScriptTag parent,
        found (document st) block modal videoContent ->
        has_class "open" modal = false ->
        is_youtube videoContent = true ->
        window_YT st = false ->
        firstByTagName (opened_document st modal videoContent) "script"
        = Some firstScriptTag ->
        parentElement (opened_document st modal videoContent)
          (nid firstScriptTag) = Some parent ->
        exists st',
          toggleVideoOverlay block st = Returned tt st'
          /\ trace st' = trace st ++ [FetchScript iframe_api]).
Proof.
  assert (Hready : forall st evs,
             fetches (trace (run (SdkReady :: evs) st)) = fetches (trace st)).
  { intros st evs. change (run (SdkReady :: evs) st)
      with (run evs (step SdkReady st)).
    destruct (step_fetches SdkReady st) as (_ & _ & HYT).
    destruct (run_loaded evs (step SdkReady st) (HYT eq_refl)) as [-> _].
    cbn [step]. apply sdkReady_effects. }
  split; [|split; [|split; [|split]]].
  - intros st ev. apply step_fetches.
  - intros st evs H. apply run_loaded, H.
  - intros st evs1 evs2. rewrite run_app. apply Hready.
  - intros st ev evs.
    change (run (ev :: SdkReady :: evs) st)
      with (run (SdkReady :: evs) (step ev st)).
    rewrite Hready. apply step_fetches.
  - intros st block modal vc s p Hf Ho Hy HYT Hs Hp.
    rewrite (toggle_open_youtube_absent st block modal vc) by assumption.
    rewrite Hs, Hp. eexists. split; reflexivity.
Qed.

Lemma sdk_script_injected_while_absent_witness :
  fetches (trace (run [Toggle 5; Toggle 5; Toggle 5] (decorated true yt_href)))
  = fetches (trace (decorated true yt_href))
  /\ exists st',
      toggleVideoOverlay 5 (decorated false yt_href) = Returned tt st'
      /\ trace st' = trace (decorated false yt_href) ++ [FetchScript iframe_api].
Proof.
  split.
  - apply (proj1 (proj2 sdk_script_injected_while_absent)).
    vm_compute; reflexivity.
  - assert (Hf : found (document (decorated false yt_href)) 5
                   (modal_el []) (youtube_content_el yt_href))
      by (split; vm_compute; reflexivity).
    refine (proj2 (proj2 (proj2 (proj2 sdk_script_injected_while_absent)))
              (decorated false yt_href) 5 (modal_el [])
              (youtube_content_el yt_href)
              (sample_el 2 "script" [] [("src", "/scripts/aem.js")])
              (sample_el 1 "head" [] [])
              Hf _ _ _ _ _); vm_compute; reflexivity.
Defined.

(** ** Toggling an open Youtube modal *)





Lemma toggle_close_youtube_teardown_witness :
  (let st := run [Toggle 5] (decorated true yt_href) in
   let p := {| p_element := ytFrame (VString "dQw4w9WgXcQ");
               p_videoId := VString "dQw4w9WgXcQ" |} in
   trace (state_of (toggleVideoOverlay 5 st)) = trace st ++ [StopVideo p]
   /\ exists st',
       toggleVideoOverlay 5 st = Returned tt st'
       /\ lookup (document st') (nid (ytFrame_el 21 yt_href)) = None)
  /\ (let st := page_state true (sample_page open_modal_without_container) in
      trace (state_of (toggleVideoOverlay 5 st)) = trace st).
Proof.
  split.
  - assert (Hf : found (document (run [Toggle 5] (decorated true yt_href))) 5
                   (modal_el ["open"]) (youtube_content_el yt_href))
      by (split; vm_compute; reflexivity).
    pose proof (toggle_close_youtube_teardown
                  (run [Toggle 5] (decorated true yt_href)) 5
                  (modal_el ["open"]) (youtube_content_el yt_href) Hf
                  ltac:(vm_compute; reflexivity) ltac:(vm_compute; reflexivity))
      as (_ & Hstop & _ & Hgone).
    split.
    + apply Hstop. vm_compute; reflexivity.
    + apply (Hgone (ytFrame_el 21 yt_href) (youtube_content_el yt_href));
        vm_compute; reflexivity.
  - refine (proj1 (toggle_close_youtube_teardown
                     (page_state true (sample_page open_modal_without_container))
                     5 (sample_el 6 "div" ["video-modal"; "open"] [])
                     (sample_el 7 "div" ["video-modal-content"]
                        [("data-videotype", "youtube"); ("data-videoid", "abc")])
                     (Build_found _ _ _ _ _ _) _ _) _);
      vm_compute; reflexivity.
Defined.

(** ** A Youtube href without an id *)


Lemma buildVideoModal_youtube href st :
  let n := next_nid st in
  let videoId := getYouTubeId href in
  let mk k cls a :=
    {| nid := k; tag := "div"; classes := [cls]; attrs := a; paused := true;
       currentTime := 0%Z; listeners := [] |} in
  buildVideoModal href (VString "youtube") st
  = Returned
      (El (mk n "video-modal" [("aria-modal", "true"); ("role", "dialog")])
         [El (mk (1 + n) "video-modal-overlay" []) [];
          El (mk (2 + n) "video-modal-container" [])
            [El (mk (3 + n) "video-modal-header" [])
               [El {| nid := 4 + n; tag := "button";
                      classes := ["video-modal-close"];
                      attrs := [("aria-label", "close")]; paused := true;
                      currentTime := 0%Z; listeners := [] |} []];
             El (mk (5 + n) "video-modal-content"
                   [("data-ytid", to_string videoId);
                    ("data-videotype", "youtube");
                    ("data-videoid", to_string videoId)]) []]])
      {| document := document st; next_nid := 6 + n;
         window_YT := window_YT st;
         window_onYouTubePlayerAPIReady := window_onYouTubePlayerAPIReady st;
         player := player st; trace := trace st |}.
Proof. reflexivity. Qed.




(** ** Links that are not recognised *)


Lemma bind_returned {A B} (c : M A) (k : A -> M B) st a st' :
  c st = Returned a st' -> bind c k st = k a st'.
Proof. intros H. unfold bind. rewrite H. reflexivity. Qed.


Lemma buildVideoModal_direct href videoType st :
  strict_eq_str videoType "youtube" = false ->
  buildVideoModal href videoType st
  = Returned (direct_file_modal (next_nid st) href)
      {| document := document st; next_nid := 8 + next_nid st;
         window_YT := window_YT st;
         window_onYouTubePlayerAPIReady := window_onYouTubePlayerAPIReady st;
         player := player st; trace := trace st |}.
Proof.
  intros H. unfold buildVideoModal, bind.
  cbn -[String.append indent dquote]. rewrite H. reflexivity.
Qed.

Lemma querySelector_built_close n href :
  querySelector (direct_file_modal n href) n
    (Sel (STagClass "button" "video-modal-close"))
  = Some {| nid := 4 + n; tag := "button"; classes := ["video-modal-close"];
            attrs := [("aria-label", "close")]; paused := true;
            currentTime := 0%Z; listeners := [] |}.
Proof.
  assert (Hne : forall k, Nat.eqb (S k + n) n = false)
    by (intros k; apply Nat.eqb_neq; lia).
  unfold querySelector, direct_file_modal, is_descendant_of.
  cbn [walk List.map List.concat List.app List.filter fst snd existsb matches
       matches_simple orb andb nid tag classes has_class String.eqb Ascii.eqb
       Bool.eqb];
    rewrite ?Nat.eqb_refl, ?Hne;
    cbn [List.filter orb andb first fmap option_fmap option_map fst snd].
  reflexivity.
Qed.




(** ** Closing and reopening a direct-file modal *)

Lemma direct_file_close_resets_position_witness :
  (exists st',
      toggleVideoOverlay 5 (step (Progress 21 42)
                              (run [Toggle 5] (decorated false file_href)))
      = Returned tt st'
      /\ direct_modal (document st') 5 15 21 false true 0)
  /\ (exists st1 st2 st3,
        toggleVideoOverlay 5 (decorated false file_href) = Returned tt st1
        /\ toggleVideoOverlay 5 (step (Progress 21 42) st1) = Returned tt st2
        /\ direct_modal (document st2) 5 15 21 false true 0
        /\ toggleVideoOverlay 5 st2 = Returned tt st3
        /\ direct_modal (document st3) 5 15 21 true false 0).
Proof.
  split.
  - apply (proj1 direct_file_close_resets_position _ 5 15 21 false 42%Z).
    exists (modal_el ["open"]), file_content_el,
      (set_media false 42
         (sample_el 21 "video" []
            [("controls", ""); ("playsinline", ""); ("loop", "");
             ("preload", "auto")])).
    split; [split; vm_compute; reflexivity|]. vm_compute. repeat split.
  - apply (proj2 direct_file_close_resets_position
             (decorated false file_href) 5 15 21 true 0%Z 42%Z).
    exists (modal_el []), file_content_el,
      (sample_el 21 "video" []
         [("controls", ""); ("playsinline", ""); ("loop", "");
          ("preload", "auto")]).
    split; [split; vm_compute; reflexivity|]. vm_compute. repeat split.
Defined.

(** ** Missing structure *)

(** C8, as stated: a block decorated for an [external] link has no modal, and
    [toggleVideoOverlay] on it throws; so does [decorate] on an empty block. *)
Lemma missing_modal_throws :
  querySelector (document (decorated false vimeo_href)) 5
    selectors_videoModal = None
  /\ toggleVideoOverlay 5 (decorated false vimeo_href)
     = Thrown TypeError (decorated false vimeo_href)
  /\ decorate (B := serialised_links) 5
       (page_state false (sample_page (sample_block [])))
     = Thrown TypeError (page_state false (sample_page (sample_block []))).
Proof. vm_compute. repeat split. Qed.

Lemma decorate_nothing_to_do {B : Browser} st block row :
  (subtree (document st) block
     ≫= (fun b => first (List.filter is_element (children_of b)))) = Some row ->
  length (List.filter is_element (children_of row)) <> 1 ->
  querySelector (document st) block (Sel (STag "h2")) = None ->
  querySelector (document st) block (Sel (STag "picture")) = None ->
  querySelector (document st) block (Desc (SClass "video-image") (STag "a"))
  = None ->
  querySelector (document st) block (Sel (SClass "video-text")) = None ->
  decorate block st = Returned tt st.
Proof.
  intros Hrow Hcols H2 Hpic Ha Htext.
  assert (H1 : decorate_columns block st = Returned tt st).
  { unfold decorate_columns, bind, get_document. rewrite Hrow.
    destruct (List.filter is_element (children_of row))
      as [|[s|e cs] [|c l]]; try reflexivity.
    exfalso. apply Hcols. reflexivity. }
  unfold decorate.
  rewrite (bind_returned _ _ _ _ _ H1).
  unfold decorate_text, decorate_picture, decorate_link, decorate_alignment,
    bind, get_document, ret.
  rewrite H2, Hpic, Ha, Htext. reflexivity.
Qed.

(** C8, amended. A block without a modal, or a modal without a content
    pane, makes [toggleVideoOverlay] throw a [TypeError], and a block without
    an element child makes [decorate] throw one; the page is left as it was.
    What is tolerated: opening a direct-file modal that has no video
    element, closing a Youtube modal when there is neither a player nor a
    container, and decorating a block that has no heading, no picture and
    no link. *)
Theorem missing_structure {B : Browser} :
  (forall st block,
      querySelector (document st) block selectors_videoModal = None ->
      toggleVideoOverlay block st = Thrown TypeError st)
  /\ (forall st block modal,
        querySelector (document st) block selectors_videoModal = Some modal ->
        querySelector (document st) (nid modal) selectors_videoContent = None ->
        toggleVideoOverlay block st = Thrown TypeError st)
  /\ (forall st block,
        (subtree (document st) block
           ≫= (fun b => first (List.filter is_element (children_of b)))) = None ->
        decorate block st = Thrown TypeError st)
  /\ (forall st block modal videoContent,
        found (document st) block modal videoContent ->
        has_class "open" modal = false ->
        is_youtube videoContent = false ->
        querySelector (document st) (nid modal) video_sel = None ->
        exists st', toggleVideoOverlay block st = Returned tt st')
  /\ (forall st block modal videoContent,
        found (document st) block modal videoContent ->
        has_class "open" modal = true ->
        is_youtube videoContent = true ->
        player st = None ->
        getElementById (document st)
          (ytFrame (getAttribute "data-videoId" videoContent)) = None ->
        exists st',
          toggleVideoOverlay block st = Returned tt st'
          /\ trace st' = trace st)
  /\ (forall st block row,
        (subtree (document st) block
           ≫= (fun b => first (List.filter is_element (children_of b))))
        = Some row ->
        length (List.filter is_element (children_of row)) <> 1 ->
        querySelector (document st) block (Sel (STag "h2")) = None ->
        querySelector (document st) block (Sel (STag "picture")) = None ->
        querySelector (document st) block
          (Desc (SClass "video-image") (STag "a")) = None ->
        querySelector (document st) block (Sel (SClass "video-text")) = None ->
        decorate block st = Returned tt st).
Proof.
  split; [exact toggle_no_modal|].
  split; [exact toggle_no_content|].
  split.
  { intros st block H.
    unfold decorate, decorate_columns, bind, get_document. rewrite H.
    reflexivity. }
  split.
  { intros st block modal vc Hf Ho Hy Hv.
    rewrite (toggle_open_direct st block modal vc) by assumption.
    unfold video_sel in Hv. rewrite Hv. eexists. reflexivity. }
  split; [|exact decorate_nothing_to_do].
  intros st block modal vc Hf Ho Hy Hp Hi.
  rewrite (toggle_close_youtube st block modal vc) by assumption.
  rewrite getElementById_update by reflexivity. rewrite Hi.
  eexists. split; [reflexivity|].
  unfold stop_effect. rewrite Hp. cbn. apply app_nil_r.
Qed.

Lemma missing_structure_witness :
  toggleVideoOverlay 5 (decorated false vimeo_href)
  = Thrown TypeError (decorated false vimeo_href)
  /\ toggleVideoOverlay 5 (page_state false (sample_page modal_without_content))
     = Thrown TypeError (page_state false (sample_page modal_without_content))
  /\ decorate (B := serialised_links) 5
       (page_state false (sample_page (sample_block [])))
     = Thrown TypeError (page_state false (sample_page (sample_block [])))
  /\ (exists st',
        toggleVideoOverlay 5 (page_state false (sample_page modal_without_video))
        = Returned tt st')
  /\ (exists st',
        toggleVideoOverlay 5
          (page_state true (sample_page open_modal_without_container))
        = Returned tt st'
        /\ trace st'
           = trace (page_state true (sample_page open_modal_without_container)))
  /\ decorate (B := serialised_links) 5
       (page_state false (sample_page two_empty_columns))
     = Returned tt (page_state false (sample_page two_empty_columns)).
Proof.
  pose proof (missing_structure (B := serialised_links))
    as (H1 & H2 & H3 & H4 & H5 & H6).
  split; [|split; [|split; [|split; [|split]]]].
  - apply H1. vm_compute. reflexivity.
  - apply (H2 _ 5 (sample_el 6 "div" ["video-modal"] []));
      vm_compute; reflexivity.
  - apply H3. vm_compute. reflexivity.
  - refine (H4 _ 5 (sample_el 6 "div" ["video-modal"] [])
              (sample_el 7 "div" ["video-modal-content"] [])
              (Build_found _ _ _ _ _ _) _ _ _); vm_compute; reflexivity.
  - refine (H5 _ 5 (sample_el 6 "div" ["video-modal"; "open"] [])
              (sample_el 7 "div" ["video-modal-content"]
                 [("data-videotype", "youtube"); ("data-videoid", "abc")])
              (Build_found _ _ _ _ _ _) _ _ _ _); vm_compute; reflexivity.
  - refine (H6 _ 5
              (El (sample_el 6 "div" [] [])
                 [El (sample_el 7 "div" [] []) [];
                  El (sample_el 8 "div" [] []) []]) _ _ _ _ _ _);
      try (vm_compute; reflexivity).
    vm_compute. discriminate.
Defined.

(** ** The teaser, end to end *)

(** A teaser with one image-and-link column and no heading, linked to
    [https://youtu.be/dQw4w9WgXcQ]: decoration marks the image pane as
    single, puts a play control in place of the link and adds a closed modal
    carrying the video id; activating the control opens the modal and
    requests the SDK; activating the close control closes it and removes the
    hosting container. *)
Example teaser_end_to_end :
  let st := decorated false yt_href in
  let opened := snd (click 13 st) in
  let closed := snd (click 19 opened) in
  (classes <$> lookup (document st) 7) = Some ["video-image"; "single-video"]
  /\ (tag <$> lookup (document st) 13) = Some "button"
  /\ (has_class "open" <$> lookup (document st) 15) = Some false
  /\ (getAttribute "data-videoId" <$> lookup (document st) 20)
     = Some (VString "dQw4w9WgXcQ")
  /\ (has_class "open" <$> lookup (document opened) 15) = Some true
  /\ trace opened = [FetchScript iframe_api]
  /\ (nid <$> getElementById (document opened) "ytFrame-dQw4w9WgXcQ") = Some 21
  /\ (has_class "open" <$> lookup (document closed) 15) = Some false
  /\ getElementById (document closed) "ytFrame-dQw4w9WgXcQ" = None.
Proof. vm_compute. repeat split. Qed.

(** * Further properties of the link functions *)

Local Open Scope string_scope.

(** * Further properties *)

(** ** Where the id sits in the href *)

Lemma id_after_None shapes s :
  id_after shapes s = None
  <-> Forall (fun p => starts_with p s = false
                       \/ id_of (sdrop (String.length p) s) = None) shapes.
Proof.
  induction shapes as [|p ps IH]; cbn [id_after].
  - split; [constructor | reflexivity].
  - rewrite Forall_cons. destruct (starts_with p s) eqn:Hp.
    + destruct (id_of _) eqn:Hid.
      * split; [discriminate|]. intros [[H|H] _]; discriminate.
      * rewrite IH. split; [intros H; split; auto | intros [_ H]; exact H].
    + rewrite IH. split; [intros H; split; auto | intros [_ H]; exact H].
Qed.

Lemma starts_with_extend w s x :
  starts_with w s = true -> starts_with w (s ++ x) = true.
Proof.
  intros H. apply starts_with_iff in H as [b ->].
  replace ((w ++ b) ++ x) with (w ++ (b ++ x)); [apply starts_with_app|].
  clear. induction w as [|c w IH]; simpl; [reflexivity | f_equal; exact IH].
Qed.

Lemma id_of_extend q x : id_of q <> None -> id_of (q ++ x) <> None.
Proof.
  unfold id_of. destruct q as [|c q]; simpl; [congruence|].
  destruct (id_char c); [discriminate | congruence].
Qed.

Lemma id_after_extend shapes s x :
  id_after shapes s <> None -> id_after shapes (s ++ x) <> None.
Proof.
  intros H Hx. apply H. apply id_after_None. apply id_after_None in Hx.
  eapply Forall_impl; [exact Hx|]. intros p [Hp|Hp]; cbn beta in *.
  - left. destruct (starts_with p s) eqn:E; [|reflexivity].
    rewrite (starts_with_extend p s x E) in Hp. discriminate.
  - destruct (starts_with p s) eqn:E; [|left; reflexivity]. right.
    rewrite sdrop_within in Hp by exact E.
    destruct (id_of (sdrop (String.length p) s)) eqn:Hid; [|reflexivity].
    exfalso. eapply id_of_extend; [|exact Hp]. congruence.
Qed.

Lemma extractId_split s : forall id,
  extractId accepted_shapes s = Some id ->
  exists pre suf,
    s = pre ++ suf
    /\ id_after accepted_shapes suf = Some id
    /\ extractId accepted_shapes pre = None.
Proof.
  induction s as [|c s IH]; intros id H; cbn [extractId] in H.
  - destruct (id_after accepted_shapes EmptyString) eqn:E; [|discriminate].
    exists EmptyString, EmptyString. repeat split. congruence.
  - destruct (id_after accepted_shapes (String c s)) eqn:E.
    + exists EmptyString, (String c s). repeat split. congruence.
    + destruct (IH id H) as (pre & suf & -> & Hsuf & Hpre).
      exists (String c pre), suf. split; [reflexivity|]. split; [exact Hsuf|].
      cbn [extractId]. rewrite Hpre.
      destruct (id_after accepted_shapes (String c pre)) eqn:E'; [|reflexivity].
      exfalso. eapply (id_after_extend accepted_shapes (String c pre) suf);
        [congruence | exact E].
Qed.

Lemma id_run_rest t :
  let rest := sdrop (String.length (id_run t)) t in
  rest = EmptyString
  \/ exists c rest', rest = String c rest' /\ In c terminators.
Proof.
  induction t as [|c t IH]; cbn [id_run]; [left; reflexivity|].
  destruct (id_char c) eqn:Hc; cbn [String.length sdrop].
  - exact IH.
  - right. exists c, t. split; [reflexivity|]. apply id_char_false, Hc.
Qed.

Lemma id_after_shape shapes suf id :
  id_after shapes suf = Some id ->
  exists shape rest,
    In shape shapes /\ suf = shape ++ id ++ rest /\ id = id_run (id ++ rest).
Proof.
  induction shapes as [|p ps IH]; cbn [id_after]; [discriminate|].
  intros H.
  assert (Hcase : (starts_with p suf = true
                   /\ id_of (sdrop (String.length p) suf) = Some id)
                  \/ id_after ps suf = Some id).
  { destruct (starts_with p suf); [|right; exact H].
    destruct (id_of _) eqn:E; [left; split; congruence | right; exact H]. }
  destruct Hcase as [[Hp Hid]|Hrec].
  - exists p, (sdrop (String.length id) (sdrop (String.length p) suf)).
    unfold id_of in Hid.
    destruct (id_run (sdrop (String.length p) suf)) eqn:Hrun; [discriminate|].
    injection Hid as <-.
    pose proof (id_run_prefix (sdrop (String.length p) suf)) as Hpre.
    rewrite Hrun in Hpre.
    split; [left; reflexivity|]. split.
    + rewrite <- Hpre. apply starts_with_split, Hp.
    + rewrite <- Hpre. symmetry. exact Hrun.
  - destruct (IH Hrec) as (shape & rest & Hin & Hs & Hr).
    exists shape, rest. split; [right; exact Hin | split; assumption].
Qed.

Lemma id_run_app_rest id rest :
  id = id_run (id ++ rest) ->
  rest = EmptyString
  \/ exists c rest', rest = String c rest' /\ In c terminators.
Proof.
  intros H. pose proof (id_run_rest (id ++ rest)) as Hr. cbv zeta in Hr.
  rewrite <- H in Hr.
  replace (sdrop (String.length id) (id ++ rest)) with rest in Hr; [exact Hr|].
  clear. induction id as [|c id IH]; simpl; [destruct rest; reflexivity|].
  exact IH.
Qed.

(** X1. An id that [getYouTubeId] returns sits in the href: the href is some
    text without any match, then one of the accepted shapes, then the id,
    then either nothing or a text that begins with an ampersand, a newline,
    a question mark or a hash. *)
Theorem getYouTubeId_locates_id href id :
  getYouTubeId href = VString id ->
  exists pre shape rest,
    href = pre ++ shape ++ id ++ rest
    /\ In shape accepted_shapes
    /\ getYouTubeId pre = VNull
    /\ (rest = EmptyString
        \/ exists c rest', rest = String c rest' /\ In c terminators).
Proof.
  intros H. rewrite getYouTubeId_extractId in H.
  destruct (extractId accepted_shapes href) as [id'|] eqn:E; [|discriminate].
  injection H as ->.
  destruct (extractId_split _ _ E) as (pre & suf & -> & Hsuf & Hpre).
  destruct (id_after_shape _ _ _ Hsuf) as (shape & rest & Hin & -> & Hrun).
  exists pre, shape, rest. repeat split; try assumption.
  - rewrite getYouTubeId_extractId, Hpre. reflexivity.
  - exact (id_run_app_rest _ _ Hrun).
Qed.

Lemma getYouTubeId_locates_id_witness :
  exists pre shape rest,
    "https://www.youtube.com/watch?v=abc&t=10" = pre ++ shape ++ "abc" ++ rest
    /\ In shape accepted_shapes
    /\ getYouTubeId pre = VNull
    /\ (rest = EmptyString
        \/ exists c rest', rest = String c rest' /\ In c terminators).
Proof.
  apply (getYouTubeId_locates_id "https://www.youtube.com/watch?v=abc&t=10").
  reflexivity.
Defined.

(** ** Links made from an id *)

Lemma id_of_well_formed id rest :
  well_formed_id id -> id_stops rest -> id_of (id ++ rest) = Some id.
Proof.
  intros [Hne Hch] Hrest. unfold id_of.
  rewrite id_run_app by (try assumption; apply id_run_stopped, Hrest).
  destruct id; [congruence | reflexivity].
Qed.

Lemma getVideoType_contains href :
  getVideoType href
  = if contains "youtube.com" href || contains "youtu.be" href
    then VString "youtube"
    else if contains "vimeo.com" href then VString "external"
    else VUndefined.
Proof.
  unfold getVideoType, videoTypeMap.
  cbn [List.find existsb snd fst].
  rewrite !test_lits, !orb_false_r.
  destruct (contains "youtube.com" href || contains "youtu.be" href);
    [reflexivity|].
  destruct (contains "vimeo.com" href); reflexivity.
Qed.

Lemma contains_app_l w a s : contains w s = true -> contains w (a ++ s) = true.
Proof.
  intros H. apply contains_iff in H as (x & y & ->).
  apply contains_iff. exists (a ++ x), y.
  clear. induction a as [|c a IH]; simpl; [reflexivity | f_equal; exact IH].
Qed.

Lemma contains_app_r w s b : contains w s = true -> contains w (s ++ b) = true.
Proof.
  intros H. apply contains_iff in H as (x & y & ->).
  apply contains_iff. exists x, (y ++ b).
  assert (Hassoc : forall p q r : string, (p ++ q) ++ r = p ++ (q ++ r)).
  { clear. intros p q r. induction p as [|c p IH]; simpl;
      [reflexivity | f_equal; exact IH]. }
  rewrite !Hassoc. reflexivity.
Qed.

Lemma contains_prefix w t : contains w (w ++ t) = true.
Proof. apply contains_iff. exists EmptyString, t. reflexivity. Qed.

(** X2. A link made of one of the usual forms, a well-formed id and whatever
    may follow an id is classified [youtube], and [getYouTubeId] gives the
    id back. *)
Theorem link_round_trip form id rest :
  In form link_forms ->
  well_formed_id id ->
  id_stops rest ->
  getVideoType (form ++ id ++ rest) = VString "youtube"
  /\ getYouTubeId (form ++ id ++ rest) = VString id.
Proof.
  intros Hform Hid Hrest.
  pose proof (id_of_well_formed id rest Hid Hrest) as Hof.
  assert (Hyt : forall a b t : string,
             getVideoType (a ++ "youtube.com" ++ b ++ t) = VString "youtube").
  { intros a b t. rewrite getVideoType_contains.
    replace (contains "youtube.com" (a ++ "youtube.com" ++ b ++ t)) with true;
      [reflexivity|].
    symmetry. apply contains_app_l, contains_prefix. }
  assert (Hbe : forall a b t : string,
             getVideoType (a ++ "youtu.be" ++ b ++ t) = VString "youtube").
  { intros a b t. rewrite getVideoType_contains.
    replace (contains "youtu.be" (a ++ "youtu.be" ++ b ++ t)) with true;
      [rewrite orb_true_r; reflexivity|].
    symmetry. apply contains_app_l, contains_prefix. }
  rewrite getYouTubeId_extractId.
  destruct Hform as [<-|[<-|[<-|[<-|[<-|[]]]]]].
  - split; [exact (Hyt "https://www." "/watch?v=" (id ++ rest))|].
    change ("https://www.youtube.com/watch?v=" ++ id ++ rest)
      with ("https://www.youtube.com/watch" ++ String "?" ("v=" ++ id ++ rest)).
    rewrite (extractId_query_param "https://www.youtube.com/watch" "?" id rest);
      try reflexivity; try apply Hid; [left; reflexivity|].
    apply id_run_stopped, Hrest.
  - split; [exact (Hyt "https://www." "/embed/" (id ++ rest))|].
    cbn. rewrite Hof. reflexivity.
  - split; [exact (Hyt "https://www." "/v/" (id ++ rest))|].
    cbn. rewrite Hof. reflexivity.
  - split; [exact (Hbe "https://" "/" (id ++ rest))|].
    cbn. rewrite Hof. reflexivity.
  - split; [exact (Hbe "https://www." "/" (id ++ rest))|].
    cbn. rewrite Hof. reflexivity.
Qed.

Lemma link_round_trip_witness :
  getVideoType ("https://www.youtube.com/embed/" ++ "dQw4w9WgXcQ" ++ "?rel=0")
  = VString "youtube"
  /\ getYouTubeId ("https://www.youtube.com/embed/" ++ "dQw4w9WgXcQ" ++ "?rel=0")
     = VString "dQw4w9WgXcQ".
Proof.
  apply link_round_trip.
  - right. left. reflexivity.
  - split; [discriminate|]. intros c Hc Ht.
    apply id_char_false in Ht. revert Hc Ht. cbn.
    intuition (subst; discriminate).
  - right. exists "?"%char, "rel=0". split; [reflexivity|].
    cbn. tauto.
Defined.

(** ** Classification of a text that holds a link *)

Lemma getVideoType_youtube_iff href :
  getVideoType href = VString "youtube"
  <-> contains "youtube.com" href || contains "youtu.be" href = true.
Proof.
  rewrite getVideoType_contains.
  destruct (contains "youtube.com" href || contains "youtu.be" href).
  - split; reflexivity.
  - destruct (contains "vimeo.com" href); split; discriminate.
Qed.

(** X3. Text around a link never weakens its classification: a text that
    holds a [youtube] link is [youtube], and a text that holds an [external]
    link is not left [undefined]. *)
Theorem getVideoType_in_context a href b :
  (getVideoType href = VString "youtube" ->
   getVideoType (a ++ href ++ b) = VString "youtube")
  /\ (getVideoType href = VString "external" ->
      getVideoType (a ++ href ++ b) <> VUndefined).
Proof.
  assert (Hmono : forall w, contains w href = true ->
                            contains w (a ++ href ++ b) = true)
    by (intros w H; apply contains_app_l, contains_app_r, H).
  split.
  - rewrite !getVideoType_youtube_iff. intros H.
    apply orb_prop in H as [H|H]; rewrite (Hmono _ H);
      [reflexivity | apply orb_true_r].
  - rewrite !getVideoType_contains.
    destruct (contains "youtube.com" href || contains "youtu.be" href);
      [discriminate|].
    destruct (contains "vimeo.com" href) eqn:Hv; [|discriminate].
    intros _. rewrite (Hmono _ Hv).
    destruct (_ || _); discriminate.
Qed.

Lemma getVideoType_in_context_witness :
  getVideoType ("see " ++ "https://youtu.be/abc" ++ " and https://vimeo.com/1")
  = VString "youtube"
  /\ getVideoType ("see " ++ "https://vimeo.com/1" ++ " today") <> VUndefined.
Proof.
  split.
  - apply (proj1 (getVideoType_in_context _ _ _)). reflexivity.
  - apply (proj2 (getVideoType_in_context _ _ _)). reflexivity.
Defined.

(** ** Links without a recognised shape *)

Lemma starts_with_chars p s c :
  starts_with p s = true ->
  In c (list_ascii_of_string p) -> In c (list_ascii_of_string s).
Proof.
  intros H. apply starts_with_iff in H as [t ->].
  induction p as [|a p IH]; simpl; [tauto|].
  intros [->|Hc]; [left; reflexivity | right; apply IH, Hc].
Qed.

Lemma starts_with_free cs p s c :
  free_of cs s -> In c cs -> In c (list_ascii_of_string p) ->
  starts_with p s = false.
Proof.
  intros Hfree Hcs Hp. destruct (starts_with p s) eqn:E; [|reflexivity].
  exfalso. eapply Hfree; [eapply starts_with_chars; eauto | exact Hcs].
Qed.

Lemma id_after_free s :
  free_of separators s -> id_after accepted_shapes s = None.
Proof.
  intros Hfree. apply id_after_None. unfold accepted_shapes.
  repeat (apply Forall_cons; split; [left|]); [..|constructor].
  - apply (starts_with_free separators _ s "?");
      [exact Hfree | cbn; repeat (first [left; reflexivity | right])..].
  - apply (starts_with_free separators _ s "&");
      [exact Hfree | cbn; repeat (first [left; reflexivity | right])..].
  - apply (starts_with_free separators _ s "/");
      [exact Hfree | cbn; repeat (first [left; reflexivity | right])..].
  - apply (starts_with_free separators _ s "/");
      [exact Hfree | cbn; repeat (first [left; reflexivity | right])..].
  - apply (starts_with_free separators _ s "/");
      [exact Hfree | cbn; repeat (first [left; reflexivity | right])..].
  - apply (starts_with_free separators _ s "/");
      [exact Hfree | cbn; repeat (first [left; reflexivity | right])..].
  - apply (starts_with_free separators _ s "/");
      [exact Hfree | cbn; repeat (first [left; reflexivity | right])..].
Qed.

Lemma free_of_tail cs c s : free_of cs (String c s) -> free_of cs s.
Proof. intros H a Ha. apply H. right. exact Ha. Qed.

Lemma extractId_free s :
  free_of separators s -> extractId accepted_shapes s = None.
Proof.
  induction s as [|c s IH]; intros Hfree; cbn [extractId];
    rewrite id_after_free by exact Hfree; [reflexivity|].
  apply IH. eapply free_of_tail, Hfree.
Qed.

Lemma extractId_step c s :
  id_after accepted_shapes (String c s) = None ->
  extractId accepted_shapes (String c s) = extractId accepted_shapes s.
Proof. intros H. cbn [extractId]. rewrite H. reflexivity. Qed.

Lemma id_after_slash s :
  free_of separators s -> id_after accepted_shapes (String "/" s) = None.
Proof.
  intros Hfree. apply id_after_None. unfold accepted_shapes.
  repeat (apply Forall_cons; split; [left|]); [..|constructor];
    try reflexivity.
  - change (starts_with "/embed/" (String "/" s)) with (starts_with "embed/" s).
    apply (starts_with_free separators _ s "/");
      [exact Hfree | cbn; repeat (first [left; reflexivity | right])..].
  - change (starts_with "/1/" (String "/" s)) with (starts_with "1/" s).
    apply (starts_with_free separators _ s "/");
      [exact Hfree | cbn; repeat (first [left; reflexivity | right])..].
  - change (starts_with "/v/" (String "/" s)) with (starts_with "v/" s).
    apply (starts_with_free separators _ s "/");
      [exact Hfree | cbn; repeat (first [left; reflexivity | right])..].
Qed.

(** X4. The short form is recognised with [https] only: a link
    [http://youtu.be/<id>], for an id without slash, question mark or
    ampersand, is classified [youtube] and yet has no id. *)
Theorem http_short_link_has_no_id id :
  free_of separators id ->
  getVideoType ("http://youtu.be/" ++ id) = VString "youtube"
  /\ getYouTubeId ("http://youtu.be/" ++ id) = VNull.
Proof.
  intros Hfree. split.
  - apply getVideoType_youtube_iff.
    replace (contains "youtu.be" ("http://youtu.be/" ++ id)) with true;
      [apply orb_true_r|].
    symmetry. apply (contains_app_l "youtu.be" "http://" ("youtu.be/" ++ id)).
    apply (contains_prefix "youtu.be" ("/" ++ id)).
  - rewrite getYouTubeId_extractId.
    cbn [String.append].
    rewrite !extractId_step by reflexivity.
    rewrite extractId_step by (apply id_after_slash, Hfree).
    rewrite extractId_free by exact Hfree. reflexivity.
Qed.

Lemma http_short_link_has_no_id_witness :
  getVideoType ("http://youtu.be/" ++ "dQw4w9WgXcQ") = VString "youtube"
  /\ getYouTubeId ("http://youtu.be/" ++ "dQw4w9WgXcQ") = VNull.
Proof.
  apply http_short_link_has_no_id.
  intros c Hc Hs. revert Hc Hs. cbn. intuition (subst; discriminate).
Defined.

Local Close Scope string_scope.

(** * Further properties of the page *)

(** ** The globals of the page under [toggleVideoOverlay] *)

Ltac toggle_cases block st :=
  let modal := fresh "modal" in
  let vc := fresh "vc" in
  let Hm := fresh "Hm" in
  let Hc := fresh "Hc" in
  let Hf := fresh "Hf" in
  let Ho := fresh "Ho" in
  let Hy := fresh "Hy" in
  let HYT := fresh "HYT" in
  destruct (querySelector (document st) block selectors_videoModal)
    as [modal|] eqn:Hm;
  [ destruct (querySelector (document st) (nid modal) selectors_videoContent)
      as [vc|] eqn:Hc;
    [ assert (Hf : found (document st) block modal vc) by (split; assumption);
      destruct (has_class "open" modal) eqn:Ho, (is_youtube vc) eqn:Hy;
      [ rewrite (toggle_close_youtube st block modal vc Hf Ho Hy)
      | rewrite (toggle_close_direct st block modal vc Hf Ho Hy)
      | destruct (window_YT st) eqn:HYT;
        [ rewrite (toggle_open_youtube_loaded st block modal vc Hf Ho Hy HYT)
        | rewrite (toggle_open_youtube_absent st block modal vc Hf Ho Hy HYT) ]
      | rewrite (toggle_open_direct st block modal vc Hf Ho Hy) ]
    | rewrite (toggle_no_content st block modal Hm Hc) ]
  | rewrite (toggle_no_modal st block Hm) ].

(** One call, summed up: what it appends to the trace and what it leaves in
    [let player] and in the pending callback. *)
Lemma toggle_summary block st :
  let st' := state_of (toggleVideoOverlay block st) in
  window_YT st' = window_YT st
  /\ next_nid st <= next_nid st'
  /\ ((player st' = player st
       /\ window_onYouTubePlayerAPIReady st' = window_onYouTubePlayerAPIReady st
       /\ (trace st' = trace st
           \/ exists p, player st = Some p
                        /\ trace st' = trace st ++ [StopVideo p]))
      \/ (exists p, window_YT st = true /\ player st' = Some p
                    /\ window_onYouTubePlayerAPIReady st'
                       = window_onYouTubePlayerAPIReady st
                    /\ trace st' = trace st ++ [NewPlayer p])
      \/ (exists v, window_YT st = false /\ player st' = player st
                    /\ window_onYouTubePlayerAPIReady st' = Some v
                    /\ trace st' = trace st ++ [FetchScript iframe_api])).
Proof.
  assert (Hstop : forall d,
    let st1 := with_trace (trace st ++ stop_effect st) (set_document d st) in
    trace st1 = trace st
    \/ exists p, player st = Some p /\ trace st1 = trace st ++ [StopVideo p]).
  { intros d. unfold stop_effect. cbn.
    destruct (player st) as [p|]; [right; exists p; split; reflexivity|].
    left. apply app_nil_r. }
  toggle_cases block st; cbv zeta.
  - destruct (getElementById _ _) as [i|]; [destruct (parentElement _ _)|];
      cbn [state_of set_document with_trace window_YT next_nid player
           window_onYouTubePlayerAPIReady trace];
      (split; [reflexivity|]); (split; [lia|]); left;
      (split; [reflexivity|]); (split; [reflexivity|]); apply (Hstop (document st)).
  - destruct (querySelector _ _ (Sel (STag "video")));
      cbn [state_of set_document window_YT next_nid player
           window_onYouTubePlayerAPIReady trace];
      (split; [reflexivity|]); (split; [lia|]); left; auto.
  - cbn [state_of window_YT next_nid player window_onYouTubePlayerAPIReady trace].
    split; [reflexivity|]. split; [lia|]. right. left.
    eexists. repeat split.
  - destruct (firstByTagName _ _) as [s|]; [destruct (parentElement _ _)|];
      cbn [state_of window_YT next_nid player window_onYouTubePlayerAPIReady
           trace];
      (split; [reflexivity|]); (split; [lia|]).
    + right. right. eexists. repeat split.
    + left. auto.
    + left. auto.
  - destruct (querySelector _ _ (Sel (STag "video")));
      cbn [state_of set_document window_YT next_nid player
           window_onYouTubePlayerAPIReady trace];
      (split; [reflexivity|]); (split; [lia|]); left; auto.
  - cbn [state_of]. split; [reflexivity|]. split; [lia|]. left. auto.
  - cbn [state_of]. split; [reflexivity|]. split; [lia|]. left. auto.
Qed.

(** X5. A call of [toggleVideoOverlay] never clears [let player] nor the
    pending callback and never touches [window.YT]: [player] changes only
    to a player the call constructs, which needs the SDK; the callback
    changes only when the call fetches the SDK script, which needs the SDK
    to be absent. *)
Theorem toggle_keeps_globals block st :
  let st' := state_of (toggleVideoOverlay block st) in
  window_YT st' = window_YT st
  /\ (player st' = player st
      \/ exists p, window_YT st = true /\ player st' = Some p
                   /\ trace st' = trace st ++ [NewPlayer p])
  /\ (window_onYouTubePlayerAPIReady st' = window_onYouTubePlayerAPIReady st
      \/ exists v, window_YT st = false
                   /\ window_onYouTubePlayerAPIReady st' = Some v
                   /\ trace st' = trace st ++ [FetchScript iframe_api]).
Proof.
  destruct (toggle_summary block st) as (HYT & _ & H). cbv zeta.
  split; [exact HYT|].
  destruct H as [(Hp & Hc & _)|[(p & Hy & Hp & Hc & Ht)|(v & Hy & Hp & Hc & Ht)]].
  - split; left; assumption.
  - split; [right; exists p; auto | left; assumption].
  - split; [left; assumption | right; exists v; auto].
Qed.

(** X6. A call of [toggleVideoOverlay] that throws has reached neither the
    player constructor nor the script insertion: [let player], the pending
    callback and [window.YT] are as before, and the trace has grown by at
    most a [stopVideo] on the current player. [HierarchyRequestError]
    is thrown only while the SDK is absent. *)
Theorem toggle_throw_leaves_globals block st e st' :
  toggleVideoOverlay block st = Thrown e st' ->
  window_YT st' = window_YT st
  /\ player st' = player st
  /\ window_onYouTubePlayerAPIReady st' = window_onYouTubePlayerAPIReady st
  /\ (trace st' = trace st
      \/ exists p, player st = Some p /\ trace st' = trace st ++ [StopVideo p])
  /\ (e = HierarchyRequestError -> window_YT st = false).
Proof.
  assert (Hstop : forall d,
    let st1 := with_trace (trace st ++ stop_effect st) (set_document d st) in
    trace st1 = trace st
    \/ exists p, player st = Some p /\ trace st1 = trace st ++ [StopVideo p]).
  { intros d. unfold stop_effect. cbn.
    destruct (player st) as [p|]; [right; exists p; split; reflexivity|].
    left. apply app_nil_r. }
  toggle_cases block st; cbv zeta.
  - destruct (getElementById _ _) as [i|]; [destruct (parentElement _ _)|];
      intros H; inversion H; subst.
    cbn [with_trace set_document window_YT next_nid player
         window_onYouTubePlayerAPIReady].
    repeat (split; [reflexivity|]). split; [|discriminate].
    apply (Hstop (document st)).
  - destruct (querySelector _ _ (Sel (STag "video")));
      intros H; inversion H; subst.
    cbn. repeat (split; [reflexivity|]). split; [left; reflexivity|discriminate].
  - discriminate.
  - destruct (firstByTagName _ _) as [s|]; [destruct (parentElement _ _)|];
      intros H; inversion H; subst; cbn;
      repeat (split; [first [reflexivity | assumption]|]);
      (split; [left; reflexivity|]); intros; reflexivity.
  - destruct (querySelector _ _ (Sel (STag "video"))); discriminate.
  - intros H; inversion H; subst.
    repeat (split; [reflexivity|]). split; [left; reflexivity|discriminate].
  - intros H; inversion H; subst.
    repeat (split; [reflexivity|]). split; [left; reflexivity|discriminate].
Qed.

Lemma toggle_throw_leaves_globals_witness :
  let st := page_state false (sample_page modal_without_content) in
  window_YT st = window_YT st
  /\ player st = player st
  /\ window_onYouTubePlayerAPIReady st = window_onYouTubePlayerAPIReady st
  /\ (trace st = trace st
      \/ exists p, player st = Some p /\ trace st = trace st ++ [StopVideo p])
  /\ (TypeError = HierarchyRequestError -> window_YT st = false).
Proof.
  apply (toggle_throw_leaves_globals 5
           (page_state false (sample_page modal_without_content))).
  vm_compute. reflexivity.
Defined.

(** ** [let player] along a run *)

Lemma sdkReady_summary st :
  let st' := state_of (sdkReady st) in
  window_YT st' = true
  /\ document st' = document st
  /\ window_onYouTubePlayerAPIReady st' = window_onYouTubePlayerAPIReady st
  /\ ((window_onYouTubePlayerAPIReady st = None
       /\ player st' = player st /\ trace st' = trace st)
      \/ exists v, window_onYouTubePlayerAPIReady st = Some v
                   /\ player st' = Some {| p_element := ytFrame v; p_videoId := v |}
                   /\ trace st'
                      = trace st
                          ++ [NewPlayer {| p_element := ytFrame v; p_videoId := v |}]).
Proof.
  unfold sdkReady. destruct (window_onYouTubePlayerAPIReady st) as [v|] eqn:Hc.
  - unfold loadYouTubePlayer, bind, get_YT, emit, set_player. cbn.
    repeat split; try assumption. right. exists v. repeat split.
  - cbn. repeat split; try assumption. left. repeat split.
Qed.

Lemma last_player_snoc tr ev :
  last_player (tr ++ [ev])
  = match ev with NewPlayer p => Some p | _ => last_player tr end.
Proof. unfold last_player. rewrite fold_left_app. reflexivity. Qed.

Lemma stops_last_player_snoc tr ev :
  stops_last_player tr ->
  (forall p, ev = StopVideo p -> last_player tr = Some p) ->
  stops_last_player (tr ++ [ev]).
Proof.
  intros Htr Hev l1 p l2 H.
  destruct (exists_last (l := StopVideo p :: l2)) as (l2' & z & Hz);
    [discriminate|].
  destruct l2' as [|s l2'']; cbn in Hz.
  - injection Hz as Hs Hl. subst z l2.
    apply app_inj_tail in H as [-> ->]. apply Hev. reflexivity.
  - injection Hz as <- ->.
    change (l1 ++ StopVideo p :: l2'' ++ [z])
      with (l1 ++ (StopVideo p :: l2'') ++ [z]) in H.
    rewrite app_assoc in H. apply app_inj_tail in H as [-> _].
    apply (Htr l1 p l2''). reflexivity.
Qed.

Lemma step_player_invariant ev st :
  player st = last_player (trace st) ->
  stops_last_player (trace st) ->
  player (step ev st) = last_player (trace (step ev st))
  /\ stops_last_player (trace (step ev st)).
Proof.
  intros Hp Hs. destruct ev as [block| |v t]; cbn [step].
  - destruct (toggle_summary block st) as (_ & _ & H). cbv zeta in H.
    destruct H as [(Hp' & _ & [Ht|(p & Hpl & Ht)])
                  |[(p & _ & Hp' & _ & Ht)|(v & _ & Hp' & _ & Ht)]];
      rewrite Hp', Ht; try rewrite last_player_snoc.
    + split; assumption.
    + split; [assumption|]. apply stops_last_player_snoc; [assumption|].
      intros q Hq. injection Hq as <-. rewrite <- Hp. exact Hpl.
    + split; [reflexivity|]. apply stops_last_player_snoc; [assumption|].
      discriminate.
    + split; [assumption|]. apply stops_last_player_snoc; [assumption|].
      discriminate.
  - destruct (sdkReady_summary st) as (_ & _ & _ & H). cbv zeta in H.
    destruct H as [(_ & Hp' & Ht)|(v & _ & Hp' & Ht)]; rewrite Hp', Ht.
    + split; assumption.
    + rewrite last_player_snoc. split; [reflexivity|].
      apply stops_last_player_snoc; [assumption|]. discriminate.
  - cbn. split; assumption.
Qed.

(** X7. Along any sequence of toggles, SDK callbacks and playback, [let
    player] holds the player constructed last, and every [stopVideo] is a
    call on the player constructed last before it, whichever modal is being
    closed. *)
Theorem player_is_last_constructed evs : forall st,
  player st = last_player (trace st) ->
  stops_last_player (trace st) ->
  player (run evs st) = last_player (trace (run evs st))
  /\ stops_last_player (trace (run evs st)).
Proof.
  induction evs as [|ev evs IH]; intros st Hp Hs; [split; assumption|].
  change (run (ev :: evs) st) with (run evs (step ev st)).
  destruct (step_player_invariant ev st Hp Hs) as [Hp' Hs'].
  apply IH; assumption.
Qed.

Lemma player_is_last_constructed_witness :
  let st := run [Toggle 5; Toggle 5; SdkReady; Toggle 5]
              (decorated true yt_href) in
  player st = last_player (trace st) /\ stops_last_player (trace st).
Proof.
  apply (player_is_last_constructed [Toggle 5; Toggle 5; SdkReady; Toggle 5]
           (decorated true yt_href)).
  - vm_compute. reflexivity.
  - intros [|a l1] p l2 H; vm_compute in H; discriminate.
Defined.

(** X8. While the SDK is absent and does not call back, no player is
    constructed: [let player] stays as it is and the trace gains no
    [new YT.Player]. *)
Theorem no_player_without_sdk evs : forall st,
  window_YT st = false ->
  forallb (fun ev => negb (is_sdk_ready ev)) evs = true ->
  window_YT (run evs st) = false
  /\ player (run evs st) = player st
  /\ new_players (trace (run evs st)) = new_players (trace st).
Proof.
  induction evs as [|ev evs IH]; intros st HYT Hev; [repeat split; assumption|].
  change (run (ev :: evs) st) with (run evs (step ev st)).
  cbn [forallb] in Hev. apply andb_prop in Hev as [Hev Hevs].
  assert (H : window_YT (step ev st) = false
              /\ player (step ev st) = player st
              /\ new_players (trace (step ev st)) = new_players (trace st)).
  { destruct ev as [block| |v t]; [|discriminate|repeat split; assumption].
    cbn [step].
    destruct (toggle_summary block st) as (HYT' & _ & H). cbv zeta in H.
    rewrite HYT'. split; [exact HYT|].
    destruct H as [(Hp' & _ & [Ht|(p & Hpl & Ht)])
                  |[(p & Hy & _)|(v & _ & Hp' & _ & Ht)]];
      try congruence; rewrite Hp', Ht; split; try reflexivity;
      unfold new_players; rewrite List.filter_app; cbn; apply app_nil_r. }
  destruct H as (H1 & H2 & H3).
  destruct (IH (step ev st) H1 Hevs) as (I1 & I2 & I3).
  split; [exact I1|]. split; congruence.
Qed.

Lemma no_player_without_sdk_witness :
  let st := run [Toggle 5; Toggle 5; Toggle 5] (decorated false yt_href) in
  window_YT st = false
  /\ player st = player (decorated false yt_href)
  /\ new_players (trace st) = new_players (trace (decorated false yt_href)).
Proof.
  apply (no_player_without_sdk [Toggle 5; Toggle 5; Toggle 5]
           (decorated false yt_href)); vm_compute; reflexivity.
Defined.

(** ** Decoration touches the document only *)

Lemma same_globals_refl st : same_globals st st.
Proof. repeat split. Qed.

Lemma same_globals_trans st1 st2 st3 :
  same_globals st1 st2 -> same_globals st2 st3 -> same_globals st1 st3.
Proof.
  intros (A1 & A2 & A3 & A4) (B1 & B2 & B3 & B4).
  repeat split; congruence.
Qed.

Lemma quiet_ret {A} (a : A) : quiet (ret a).
Proof. intros st. split; [apply same_globals_refl | apply Nat.le_refl]. Qed.

Lemma quiet_throw {A} e : quiet (@throw A e).
Proof. intros st. split; [apply same_globals_refl | apply Nat.le_refl]. Qed.

Lemma quiet_get_document : quiet get_document.
Proof. intros st. split; [apply same_globals_refl | apply Nat.le_refl]. Qed.

Lemma quiet_modify_document f : quiet (modify_document f).
Proof. intros st. split; [repeat split | apply Nat.le_refl]. Qed.

Lemma quiet_fresh : quiet fresh.
Proof. intros st. split; [repeat split | cbn; lia]. Qed.

Lemma quiet_bind {A B} (c : M A) (k : A -> M B) :
  quiet c -> (forall a, quiet (k a)) -> quiet (bind c k).
Proof.
  intros Hc Hk st. unfold bind. specialize (Hc st).
  destruct (c st) as [a st1|e st1]; cbn [state_of] in Hc; [|exact Hc].
  destruct Hc as [G1 N1]. destruct (Hk a st1) as [G2 N2].
  split; [eapply same_globals_trans; eassumption | lia].
Qed.

Ltac quiet_step :=
  first
    [ apply quiet_ret | apply quiet_throw | apply quiet_get_document
    | apply quiet_modify_document | apply quiet_fresh
    | apply quiet_bind; [|intros]
    | match goal with
      | |- quiet (match ?x with _ => _ end) => destruct x
      | |- quiet (if ?b then _ else _) => destruct b
      end ].

Lemma quiet_createTag t attributes : quiet (createTag t attributes).
Proof. unfold createTag. repeat quiet_step. Qed.

Lemma quiet_decorateVideoLink link videoType label :
  quiet (decorateVideoLink link videoType label).
Proof.
  unfold decorateVideoLink.
  repeat first [apply quiet_createTag | quiet_step].
Qed.

Lemma quiet_buildVideoModal href videoType :
  quiet (buildVideoModal href videoType).
Proof.
  unfold buildVideoModal.
  repeat first [apply quiet_createTag | quiet_step].
Qed.

Lemma quiet_decorate_link {B : Browser} block : quiet (decorate_link block).
Proof.
  unfold decorate_link, decorate_link_as.
  repeat first [apply quiet_decorateVideoLink | apply quiet_buildVideoModal
               | quiet_step].
Qed.

(** X9. [decorate] acts on the document only, whatever the block and
    whether it returns or throws: it constructs no player, fetches no
    script, and leaves [window.YT], the pending callback and [let player]
    as they are. *)
Theorem decorate_touches_document_only {B : Browser} block st :
  same_globals st (state_of (decorate block st))
  /\ next_nid st <= next_nid (state_of (decorate block st)).
Proof.
  revert st. change (quiet (decorate block)).
  unfold decorate. repeat (apply quiet_bind; [|intros _]).
  - unfold decorate_columns. repeat quiet_step.
  - unfold decorate_text. repeat quiet_step.
  - unfold decorate_picture. repeat quiet_step.
  - apply quiet_decorate_link.
  - unfold decorate_alignment. repeat quiet_step.
Qed.

(** ** A direct-file modal keeps the structure of the page *)

Lemma Forall2_map_same {A} (R : A -> A -> Prop) (g : A -> A) l :
  (forall a, R a (g a)) -> Forall2 R l (List.map g l).
Proof. intros H. induction l; constructor; auto. Qed.

Lemma same_but_class m v x (f : element -> element) e :
  plain f -> listeners (f e) = listeners e ->
  paused (f e) = paused e -> currentTime (f e) = currentTime e ->
  x = m -> same_but m v e (upd x f e).
Proof.
  intros [Hn Ha Ht] Hl Hp Hc ->. unfold upd.
  destruct (Nat.eqb_spec (nid e) m) as [E|E].
  - repeat split; auto. intros H. contradiction.
  - repeat split; auto.
Qed.

Lemma same_but_media m x (f : element -> element) e :
  plain f -> listeners (f e) = listeners e -> classes (f e) = classes e ->
  same_but m (Some x) e (upd x f e).
Proof.
  intros [Hn Ha Ht] Hl Hc. unfold upd.
  destruct (Nat.eqb_spec (nid e) x) as [E|E].
  - split; [apply Hn|]. split; [apply Ht|]. split; [apply Ha|].
    split; [exact Hl|]. split; [intros _; exact Hc|].
    intros H. exfalso. apply H. congruence.
  - repeat split; auto.
Qed.

Lemma same_but_trans m v e1 e2 e3 :
  same_but m v e1 e2 -> same_but m v e2 e3 -> same_but m v e1 e3.
Proof.
  intros (A1 & A2 & A3 & A4 & A5 & A6) (B1 & B2 & B3 & B4 & B5 & B6).
  do 4 (split; [congruence|]). split.
  - intros H. rewrite B5, A5; congruence.
  - intros H. destruct (A6 H) as [P1 P2].
    assert (H' : Some (nid e2) <> v) by congruence.
    destruct (B6 H') as [Q1 Q2]. split; congruence.
Qed.

Lemma listeners_classList_add c e :
  listeners (classList_add c e) = listeners e.
Proof. unfold classList_add. destruct (has_class c e); reflexivity. Qed.

(** X10. Toggling a direct-file modal, open or closed, adds and removes no
    element and creates none: element by element, the page afterwards has
    the identities, tags, attributes and listeners it had; classes change
    on the modal only, the playback state on its video only; and nothing
    is done outside the document. *)
Theorem toggle_direct_keeps_structure st block modal videoContent :
  found (document st) block modal videoContent ->
  is_youtube videoContent = false ->
  let st' := state_of (toggleVideoOverlay block st) in
  Forall2
    (same_but (nid modal)
       (nid <$> querySelector (document st) (nid modal) video_sel))
    (elements (document st)) (elements (document st'))
  /\ same_globals st st'
  /\ next_nid st' = next_nid st.
Proof.
  intros Hf Hy. cbv zeta. unfold video_sel.
  destruct (has_class "open" modal) eqn:Ho.
  - rewrite (toggle_close_direct st block modal videoContent Hf Ho Hy).
    cbv zeta.
    destruct (querySelector (document st) (nid modal) (Sel (STag "video")))
      as [v|]; cbn [state_of document set_document fmap option_fmap option_map];
      (split; [|split; [repeat split | reflexivity]]);
      rewrite !elements_update, ?List.map_map; apply Forall2_map_same; intros e.
    + eapply same_but_trans; [eapply same_but_trans|].
      * apply (same_but_class _ _ (nid modal) (classList_remove "open"));
          try reflexivity. apply plain_classList_remove.
      * apply (same_but_media _ (nid v) media_pause); try reflexivity.
        apply plain_media_pause.
      * apply (same_but_media _ (nid v) (media_seek 0)); try reflexivity.
        apply plain_media_seek.
    + apply (same_but_class _ _ (nid modal) (classList_remove "open"));
        try reflexivity. apply plain_classList_remove.
  - rewrite (toggle_open_direct st block modal videoContent Hf Ho Hy).
    cbv zeta.
    destruct (querySelector (document st) (nid modal) (Sel (STag "video")))
      as [v|]; cbn [state_of document set_document fmap option_fmap option_map];
      (split; [|split; [repeat split | reflexivity]]);
      rewrite !elements_update, ?List.map_map; apply Forall2_map_same; intros e.
    + eapply same_but_trans.
      * apply (same_but_class _ _ (nid modal) (classList_add "open"));
          try reflexivity;
          [apply plain_classList_add | apply listeners_classList_add
          | apply paused_classList_add | apply currentTime_classList_add].
      * apply (same_but_media _ (nid v) media_play); try reflexivity.
        apply plain_media_play.
    + apply (same_but_class _ _ (nid modal) (classList_add "open"));
        try reflexivity;
        [apply plain_classList_add | apply listeners_classList_add
        | apply paused_classList_add | apply currentTime_classList_add].
Qed.

Lemma toggle_direct_keeps_structure_witness :
  let st := decorated false file_href in
  let st' := state_of (toggleVideoOverlay 5 st) in
  Forall2
    (same_but (nid (modal_el []))
       (nid <$> querySelector (document st) (nid (modal_el [])) video_sel))
    (elements (document st)) (elements (document st'))
  /\ same_globals st st'
  /\ next_nid st' = next_nid st.
Proof.
  assert (Hf : found (document (decorated false file_href)) 5
                 (modal_el []) file_content_el)
    by (split; vm_compute; reflexivity).
  refine (toggle_direct_keeps_structure (decorated false file_href) 5
            (modal_el []) file_content_el Hf _).
  vm_compute. reflexivity.
Defined.

(** ** Lists and first matches *)

Lemma first_filter_In {A} (P : A -> bool) l a :
  first (List.filter P l) = Some a -> In a l /\ P a = true.
Proof.
  induction l as [|b l IH]; cbn; [discriminate|].
  destruct (P b) eqn:E; cbn.
  - intros [= ->]. auto.
  - intros H. destruct (IH H). auto.
Qed.

Lemma first_filter_None {A} (P : A -> bool) l :
  first (List.filter P l) = None <-> forall a, In a l -> P a = false.
Proof.
  induction l as [|b l IH]; cbn.
  - split; [intros _ a []|reflexivity].
  - destruct (P b) eqn:E; cbn.
    + split; [discriminate|]. intros H.
      specialize (H b (or_introl eq_refl)). congruence.
    + rewrite IH. split; intros H a.
      * intros [<-|Ha]; auto.
      * intros Ha. apply H. auto.
Qed.

Lemma first_filter_unique {A} (P : A -> bool) l d :
  (forall a, In a l -> P a = true -> a = d) -> In d l -> P d = true ->
  first (List.filter P l) = Some d.
Proof.
  intros Hu Hd HP. destruct (first (List.filter P l)) as [a|] eqn:E.
  - apply first_filter_In in E as [Ha Hpa]. f_equal. apply Hu; assumption.
  - rewrite first_filter_None in E. rewrite (E d Hd) in HP. discriminate.
Qed.


Lemma filter_none {A} (P : A -> bool) l :
  (forall a, In a l -> P a = false) -> List.filter P l = [].
Proof.
  induction l as [|b l IH]; intros H; cbn; [reflexivity|].
  rewrite (H b) by (left; reflexivity). apply IH.
  intros a Ha. apply H. right. exact Ha.
Qed.

Lemma existsb_none {A} (P : A -> bool) l :
  (forall a, In a l -> P a = false) -> existsb P l = false.
Proof.
  induction l as [|b l IH]; intros H; cbn; [reflexivity|].
  rewrite (H b) by (left; reflexivity). apply IH.
  intros a Ha. apply H. right. exact Ha.
Qed.

Lemma NoDup_app_disjoint {A} (l1 l2 : list A) a :
  List.NoDup (l1 ++ l2) -> In a l1 -> In a l2 -> False.
Proof.
  induction l1 as [|b l1 IH]; cbn; [tauto|].
  intros H [->|Ha] Hb; apply List.NoDup_cons_iff in H as [Hn Hd].
  - apply Hn, in_or_app. right. exact Hb.
  - exact (IH Hd Ha Hb).
Qed.

Lemma NoDup_map_eq {A B} (f : A -> B) l a b :
  List.NoDup (List.map f l) -> In a l -> In b l -> f a = f b -> a = b.
Proof.
  induction l as [|c l IH]; cbn; [tauto|].
  intros H Ha Hb E. apply List.NoDup_cons_iff in H as [Hn Hd].
  destruct Ha as [->|Ha], Hb as [->|Hb]; auto.
  - exfalso. apply Hn. rewrite E. apply in_map, Hb.
  - exfalso. apply Hn. rewrite <- E. apply in_map, Ha.
Qed.

(** ** Elements with their ancestors *)

Lemma keys_El e cs ancs :
  keys (El e cs) ancs
  = (ancs, e) :: List.concat (List.map (fun c => keys c (e :: ancs)) cs).
Proof.
  unfold keys. cbn [walk List.map fst]. f_equal.
  rewrite List.concat_map, List.map_map. reflexivity.
Qed.

Lemma nids_El e cs :
  nids (El e cs) = nid e :: List.concat (List.map nids cs).
Proof.
  unfold nids. cbn [elements List.map]. f_equal.
  rewrite List.concat_map, List.map_map. reflexivity.
Qed.

Lemma keys_elements n ancs : List.map snd (keys n ancs) = elements n.
Proof.
  unfold keys. rewrite List.map_map. apply walk_elements.
Qed.

Lemma querySelector_keys doc x sel :
  querySelector doc x sel
  = snd <$> first (List.filter (selects x sel) (keys doc [])).
Proof.
  unfold querySelector, keys.
  rewrite (first_filter_map fst (selects x sel)
             (fun en => is_descendant_of x en
                        && matches sel (fst (fst en)) (snd (fst en))))
    by reflexivity.
  destruct (first _); reflexivity.
Qed.


Lemma parentElement_keys doc x :
  parentElement doc x
  = first (List.filter (fun k => Nat.eqb (nid (snd k)) x) (keys doc []))
      ≫= (fun k => first (fst k)).
Proof.
  unfold parentElement, entry, keys.
  rewrite (first_filter_map fst (fun k => Nat.eqb (nid (snd k)) x)
             (fun en => Nat.eqb (entry_nid en) x)) by reflexivity.
  destruct (first _); reflexivity.
Qed.

Lemma In_nids n e : In e (elements n) -> In (nid e) (nids n).
Proof. apply in_map. Qed.

Lemma keys_inside n : forall ancs k,
  In k (keys n ancs) ->
  In (snd k) (elements n)
  /\ exists local, fst k = local ++ ancs
                   /\ forall a, In a local -> In a (elements n).
Proof.
  induction n as [s|e cs IH] using node_ind'; intros ancs k; [intros []|].
  rewrite keys_El. cbn [elements]. intros [<-|Hk].
  - split; [left; reflexivity|]. exists []. split; [reflexivity|intros a []].
  - apply In_concat_map in Hk as (c & Hc & Hk).
    rewrite List.Forall_forall in IH.
    destruct (IH c Hc _ _ Hk) as (Hs & local & Hl & Hin).
    split.
    + right. apply In_concat_map. eauto.
    + exists (local ++ [e]). split.
      * rewrite Hl, <- app_assoc. reflexivity.
      * intros a Ha. apply in_app_or in Ha as [Ha|[<-|[]]].
        -- right. apply In_concat_map. eauto.
        -- left. reflexivity.
Qed.

Lemma querySelector_In doc x sel e :
  querySelector doc x sel = Some e -> In e (elements doc).
Proof.
  rewrite querySelector_keys.
  destruct (first _) as [k|] eqn:E; [|discriminate]. intros [= <-].
  apply first_filter_In in E as [Hk _]. apply (keys_inside _ _ _ Hk).
Qed.

(** ** Pages without two elements of the same identity *)

Lemma NoDup_nids_child e cs c :
  List.NoDup (nids (El e cs)) -> In c cs ->
  List.NoDup (nids c) /\ ~ In (nid e) (nids c)
  /\ forall x, In x (nids c) -> In x (nids (El e cs)).
Proof.
  rewrite nids_El. intros H Hc. apply List.NoDup_cons_iff in H as [Hn Hd].
  assert (Hsub : forall x, In x (nids c) ->
                           In x (List.concat (List.map nids cs)))
    by (intros x Hx; apply In_concat_map; eauto).
  split; [|split].
  - clear Hn Hsub. induction cs as [|c' cs IH]; [destruct Hc|].
    cbn in Hd. destruct Hc as [->|Hc].
    + eapply NoDup_app_remove_r, Hd.
    + apply IH; [eapply NoDup_app_remove_l, Hd | exact Hc].
  - intros Hx. apply Hn, Hsub, Hx.
  - intros x Hx. right. apply Hsub, Hx.
Qed.

Lemma NoDup_nids_siblings cs : forall c1 c2 x,
  List.NoDup (List.concat (List.map nids cs)) ->
  In c1 cs -> In c2 cs -> In x (nids c1) -> In x (nids c2) -> c1 = c2.
Proof.
  induction cs as [|c cs IH]; intros c1 c2 x Hd H1 H2 X1 X2; [destruct H1|].
  cbn in Hd.
  destruct H1 as [->|H1], H2 as [->|H2]; auto.
  - exfalso. eapply NoDup_app_disjoint; [exact Hd | exact X1 |].
    apply In_concat_map. eauto.
  - exfalso. eapply NoDup_app_disjoint; [exact Hd | exact X2 |].
    apply In_concat_map. eauto.
  - eapply IH; eauto. eapply NoDup_app_remove_l, Hd.
Qed.

(** An element is not among its own ancestors. *)
Lemma key_not_own_ancestor n : forall ancs k a,
  List.NoDup (nids n) -> In k (keys n ancs) ->
  In a (fst k) -> nid a = nid (snd k) -> In a ancs.
Proof.
  induction n as [s|e cs IH] using node_ind'; intros ancs k a Hd; [intros []|].
  rewrite keys_El. intros [<-|Hk]; [auto|].
  apply In_concat_map in Hk as (c & Hc & Hk).
  rewrite List.Forall_forall in IH. intros Ha E.
  destruct (NoDup_nids_child e cs c Hd Hc) as (Hdc & Hne & _).
  destruct (IH c Hc (e :: ancs) k a Hdc Hk Ha E) as [<-|Hin]; [|exact Hin].
  exfalso. apply Hne. rewrite E. apply In_nids, (keys_inside _ _ _ Hk).
Qed.

(** The ancestors of an ancestor are ancestors. *)
Lemma ancestors_nested n : forall ancs k1 k2 a,
  List.NoDup (nids n) ->
  (forall b, In b ancs -> ~ In (nid b) (nids n)) ->
  In k1 (keys n ancs) -> In k2 (keys n ancs) ->
  In a (fst k2) -> nid a = nid (snd k1) ->
  incl (fst k1) (fst k2).
Proof.
  induction n as [s|e cs IH] using node_ind';
    intros ancs k1 k2 a Hd Hout H1 H2 Ha E; [destruct H1|].
  assert (Hk2 := keys_inside _ _ _ H2).
  assert (Hk1 := keys_inside _ _ _ H1).
  destruct Hk1 as (He1 & _).
  rewrite keys_El in H1, H2. destruct H1 as [<-|H1].
  - destruct Hk2 as (_ & local & -> & _). cbn [fst].
    intros b Hb. apply in_or_app. right. exact Hb.
  - apply In_concat_map in H1 as (c1 & Hc1 & H1).
    destruct (NoDup_nids_child e cs c1 Hd Hc1) as (Hdc & Hne & Hsub).
    assert (Hin1 : In (nid (snd k1)) (nids c1))
      by (apply In_nids, (keys_inside _ _ _ H1)).
    destruct H2 as [<-|H2].
    + exfalso. cbn [fst] in Ha. apply (Hout a Ha). rewrite E.
      apply Hsub, Hin1.
    + apply In_concat_map in H2 as (c2 & Hc2 & H2).
      destruct (keys_inside _ _ _ H2) as (_ & local & Hl & Hloc).
      rewrite Hl in Ha. apply in_app_or in Ha as [Ha|[<-|Ha]].
      * assert (c1 = c2).
        { rewrite nids_El in Hd. apply List.NoDup_cons_iff in Hd as [_ Hd].
          eapply (NoDup_nids_siblings cs c1 c2 (nid a)); eauto.
          - rewrite E. exact Hin1.
          - apply In_nids, Hloc, Ha. }
        subst c2. rewrite List.Forall_forall in IH.
        eapply (IH c1 Hc1 (e :: ancs) k1 k2 a); eauto.
        -- intros b [<-|Hb]; [exact Hne|].
           intros Hx. apply (Hout b Hb), Hsub, Hx.
        -- rewrite Hl. apply in_or_app. left. exact Ha.
      * exfalso. apply Hne. rewrite E. exact Hin1.
      * exfalso. apply (Hout a Ha). rewrite E. apply Hsub, Hin1.
Qed.

(** The element a query finds below [y] does not hold [y]. *)
Lemma not_below_found D k1 k2 :
  unique_ids D -> In k1 (keys D []) -> In k2 (keys D []) ->
  below (nid (snd k1)) k2 = true ->
  below (nid (snd k2)) k1 = false /\ below (nid (snd k2)) k2 = false.
Proof.
  intros Hu H1 H2 Hb. unfold below in *.
  apply existsb_exists in Hb as (a & Ha & E). apply Nat.eqb_eq in E.
  assert (H22 : existsb (fun b => Nat.eqb (nid b) (nid (snd k2))) (fst k2)
                = false).
  { apply existsb_none. intros b Hb. apply Nat.eqb_neq. intros Eb.
    exact (key_not_own_ancestor D [] k2 b Hu H2 Hb Eb). }
  split; [|exact H22].
  apply existsb_none. intros b Hb. apply Nat.eqb_neq. intros Eb.
  assert (Hin : In b (fst k2)).
  { eapply (ancestors_nested D [] k1 k2 a); eauto; intros ? []. }
  exact (key_not_own_ancestor D [] k2 b Hu H2 Hin Eb).
Qed.

(** ** Replacing the children of an element *)

Lemma below_inside c e ancs k :
  In k (keys c (e :: ancs)) -> below (nid e) k = true.
Proof.
  intros Hk. destruct (keys_inside _ _ _ Hk) as (_ & local & Hl & _).
  unfold below. rewrite Hl. apply existsb_exists. exists e.
  split; [apply in_or_app; right; left; reflexivity | apply Nat.eqb_refl].
Qed.

(** What a query sees after [set_children], when nothing it looks for is
    among the new children: what it saw before outside the element. *)
Lemma filter_keys_set_children (P : list element * element -> bool) x new n :
  forall ancs,
  (forall b, In b ancs -> nid b <> x) ->
  (forall ancs' k,
      In k (List.concat (List.map (fun c => keys c ancs') new)) -> P k = false) ->
  List.filter P (keys (set_children x new n) ancs)
  = List.filter (fun k => P k && negb (below x k)) (keys n ancs).
Proof.
  induction n as [s|e cs IH] using node_ind'; intros ancs Hout Hnew;
    [reflexivity|].
  assert (Hhead : below x (ancs, e) = false).
  { apply existsb_none. intros b Hb. apply Nat.eqb_neq, Hout, Hb. }
  cbn [set_children]. destruct (Nat.eqb_spec (nid e) x) as [E|E].
  - rewrite !keys_El. cbn [List.filter]. rewrite Hhead, andb_true_r.
    rewrite (filter_none P) by (apply Hnew).
    rewrite (filter_none (fun k => P k && negb (below x k))); [reflexivity|].
    intros k Hk. apply In_concat_map in Hk as (c & _ & Hk).
    rewrite <- E, (below_inside _ _ _ _ Hk). apply andb_false_r.
  - rewrite !keys_El. cbn [List.filter]. rewrite Hhead, andb_true_r.
    assert (Htail :
      List.filter P
        (List.concat
           (List.map (fun c => keys c (e :: ancs))
              (List.map (set_children x new) cs)))
      = List.filter (fun k => P k && negb (below x k))
          (List.concat (List.map (fun c => keys c (e :: ancs)) cs))).
    { rewrite List.map_map, <- !concat_filter_map, !List.map_map.
      apply concat_map_ext_Forall.
      eapply Forall_impl; [exact IH|]. intros c Hc. cbn beta.
      apply Hc; [|exact Hnew]. intros b [<-|Hb]; [exact E | apply Hout, Hb]. }
    rewrite Htail. reflexivity.
Qed.











(** ** Updates *)





(** ** Opening and closing a Youtube modal *)

Lemma unique_ids_update x f doc :
  (forall e, nid (f e) = nid e) ->
  nids (update x f doc) = nids doc.
Proof.
  intros Hn. unfold nids. rewrite elements_update, List.map_map.
  apply List.map_ext. intros e. apply upd_nid, Hn.
Qed.


Lemma entry_nids n ancs :
  List.map entry_nid (walk n ancs) = nids n.
Proof.
  unfold nids. rewrite <- (walk_elements n ancs), List.map_map. reflexivity.
Qed.

(** On a page of distinct elements an element has one entry. *)
Lemma entry_unique doc x en en' :
  unique_ids doc -> entry doc x = Some en ->
  In en' (walk doc []) -> entry_nid en' = x -> en' = en.
Proof.
  intros Hu He Hin Hx. unfold entry in He.
  apply first_filter_In in He as [Hen Hn]. apply Nat.eqb_eq in Hn.
  eapply (NoDup_map_eq entry_nid); [|exact Hin|exact Hen|congruence].
  rewrite entry_nids. exact Hu.
Qed.




Lemma unique_ids_check doc :
  List.nodup Nat.eq_dec (nids doc) = nids doc -> unique_ids doc.
Proof. intros H. unfold unique_ids. rewrite <- H. apply List.NoDup_nodup. Qed.

Lemma allocated_check n doc :
  forallb (fun e => Nat.ltb (nid e) n) (elements doc) = true -> allocated n doc.
Proof.
  intros H e He. rewrite forallb_forall in H. apply Nat.ltb_lt, H, He.
Qed.



(** ** The place of an element in a page of distinct elements *)

Lemma concat_map_single {A} (g : A -> list A) l :
  (forall a, In a l -> g a = [a]) -> List.concat (List.map g l) = l.
Proof.
  induction l as [|a l IH]; intros H; [reflexivity|].
  cbn [List.map List.concat]. rewrite (H a) by (left; reflexivity).
  cbn [app]. f_equal. apply IH. intros b Hb. apply H. right. exact Hb.
Qed.

Lemma map_same {A} (g : A -> A) l :
  (forall a, In a l -> g a = a) -> List.map g l = l.
Proof.
  intros H. rewrite <- (List.map_id l) at 2. apply List.map_ext_in. exact H.
Qed.

(** Where [x] is not, nothing happens. *)
Lemma absent_ops x c :
  ~ In x (nids c) ->
  is_node x c = false
  /\ remove_node x c = c
  /\ (forall new, append_child x new c = c)
  /\ (forall new, set_children x new c = c).
Proof.
  induction c as [s|e cs IH] using node_ind'; intros H; [repeat split|].
  rewrite nids_El in H.
  assert (E : Nat.eqb (nid e) x = false).
  { apply Nat.eqb_neq. intros E. apply H. left. exact E. }
  assert (Hcs : forall c, In c cs -> ~ In x (nids c)).
  { intros c Hc Hx. apply H. right. apply In_concat_map. eauto. }
  rewrite List.Forall_forall in IH.
  split; [exact E|]. split; [|split; intros new].
  - cbn [remove_node]. f_equal. apply concat_map_single. intros c Hc.
    destruct (IH c Hc (Hcs c Hc)) as (-> & -> & _). reflexivity.
  - cbn [append_child]. rewrite E. f_equal. apply map_same. intros c Hc.
    apply (IH c Hc (Hcs c Hc)).
  - cbn [set_children]. rewrite E. f_equal. apply map_same. intros c Hc.
    apply (IH c Hc (Hcs c Hc)).
Qed.

Lemma nids_app_children cs1 cs2 :
  List.concat (List.map nids (cs1 ++ cs2))
  = List.concat (List.map nids cs1) ++ List.concat (List.map nids cs2).
Proof. rewrite List.map_app, List.concat_app. reflexivity. Qed.

Lemma located_exists n x :
  List.NoDup (nids n) -> In x (nids n) -> exists ex csx, located x ex csx n.
Proof.
  induction n as [s|e cs IH] using node_ind'; intros Hd Hx; [destruct Hx|].
  rewrite nids_El in Hx.
  destruct (Nat.eq_dec (nid e) x) as [E|E].
  - exists e, cs. apply located_here; [exact E|].
    rewrite nids_El in Hd. apply List.NoDup_cons_iff in Hd as [Hn _].
    rewrite <- E. exact Hn.
  - destruct Hx as [Hx|Hx]; [contradiction|].
    apply In_concat_map in Hx as (c & Hc & Hx).
    destruct (in_split _ _ Hc) as (cs1 & cs2 & ->).
    rewrite List.Forall_forall in IH.
    destruct (NoDup_nids_child e _ c Hd Hc) as (Hdc & _ & _).
    destruct (IH c Hc Hdc Hx) as (ex & csx & Hl).
    exists ex, csx. apply located_there; [exact E|exact Hl|].
    intros c' Hc' Hx'.
    rewrite nids_El in Hd. apply List.NoDup_cons_iff in Hd as [_ Hd].
    rewrite nids_app_children in Hd. cbn [List.map List.concat] in Hd.
    apply in_app_or in Hc' as [Hc'|Hc'].
    + eapply (NoDup_app_disjoint _ _ x Hd).
      * apply In_concat_map. eauto.
      * apply in_or_app. left. exact Hx.
    + apply NoDup_app_remove_l in Hd.
      eapply (NoDup_app_disjoint _ _ x Hd); [exact Hx|].
      apply In_concat_map. eauto.
Qed.

Lemma keys_app_children (cs1 cs2 : list node) ancs :
  List.concat (List.map (fun c => keys c ancs) (cs1 ++ cs2))
  = List.concat (List.map (fun c => keys c ancs) cs1)
      ++ List.concat (List.map (fun c => keys c ancs) cs2).
Proof. rewrite List.map_app, List.concat_app. reflexivity. Qed.

Lemma keys_absent x c ancs k :
  ~ In x (nids c) -> In k (keys c ancs) -> nid (snd k) <> x.
Proof.
  intros H Hk E. apply H. rewrite <- E.
  apply In_nids, (keys_inside _ _ _ Hk).
Qed.

(** The page around the element [x], in document order: what comes before
    it, the element with what it holds, and what comes after; and what the
    operations on [x] make of it. *)
Lemma located_keys x ex csx n :
  located x ex csx n -> forall ancs,
  exists pre post local,
    let ax := local ++ ancs in
    nid ex = x
    /\ keys n ancs = pre ++ keys (El ex csx) ax ++ post
    /\ (forall k, In k (pre ++ post) -> nid (snd k) <> x)
    /\ (forall k, In k (List.concat (List.map (fun c => keys c (ex :: ax)) csx)) ->
                  nid (snd k) <> x)
    /\ (forall new,
          keys (append_child x new n) ancs
          = pre ++ keys (El ex csx) ax ++ keys new (ex :: ax) ++ post)
    /\ (forall new,
          keys (set_children x new n) ancs
          = pre ++ (ax, ex)
                :: List.concat (List.map (fun c => keys c (ex :: ax)) new)
                ++ post)
    /\ (is_node x n = false -> keys (remove_node x n) ancs = pre ++ post)
    /\ (is_node x n = true -> pre = [] /\ post = [] /\ local = []).
Proof.
  induction 1 as [E Hn|e cs1 c cs2 E Hl IH Habs]; intros ancs.
  - exists [], [], []. cbv zeta. cbn [app].
    split; [exact E|]. split; [rewrite app_nil_r; reflexivity|].
    split; [intros k []|]. split.
    { intros k Hk Ek. apply Hn. rewrite <- Ek.
      apply In_concat_map in Hk as (c & Hc & Hk).
      apply In_concat_map. exists c. split; [exact Hc|].
      apply In_nids, (keys_inside _ _ _ Hk). }
    split; [|split; [|split]].
    + intros new. cbn [append_child]. rewrite E, Nat.eqb_refl.
      rewrite !keys_El, keys_app_children. cbn [List.map List.concat].
      rewrite !app_nil_r. reflexivity.
    + intros new. cbn [set_children]. rewrite E, Nat.eqb_refl.
      rewrite keys_El, app_nil_r. reflexivity.
    + cbn [is_node]. rewrite E, Nat.eqb_refl. discriminate.
    + auto.
  - destruct (IH (e :: ancs))
      as (pre & post & local & Hx & Hk & Hout & Hin & Happ & Hset & Hrem & Hroot).
    cbv zeta in *.
    assert (Hcs : forall c', In c' (cs1 ++ cs2) ->
              is_node x c' = false /\ remove_node x c' = c'
              /\ (forall new, append_child x new c' = c')
              /\ (forall new, set_children x new c' = c'))
      by (intros c' Hc'; apply absent_ops, Habs, Hc').
    assert (H1 : forall c', In c' cs1 -> In c' (cs1 ++ cs2))
      by (intros; apply in_or_app; left; assumption).
    assert (H2 : forall c', In c' cs2 -> In c' (cs1 ++ cs2))
      by (intros; apply in_or_app; right; assumption).
    assert (En : Nat.eqb (nid e) x = false) by (apply Nat.eqb_neq, E).
    set (K1 := List.concat (List.map (fun c => keys c (e :: ancs)) cs1)).
    set (K2 := List.concat (List.map (fun c => keys c (e :: ancs)) cs2)).
    exists ((ancs, e) :: K1 ++ pre), (post ++ K2), (local ++ [e]).
    replace ((local ++ [e]) ++ ancs) with (local ++ e :: ancs)
      by (rewrite <- app_assoc; reflexivity).
    split; [exact Hx|]. split; [|split; [|split; [exact Hin|]]].
    + rewrite keys_El, keys_app_children. cbn [List.map List.concat].
      rewrite Hk. fold K1 K2. cbn [app]. rewrite <- !app_assoc. reflexivity.
    + intros k Hk'. cbn [app] in Hk'. destruct Hk' as [<-|Hk']; [exact E|].
      rewrite <- app_assoc in Hk'.
      apply in_app_or in Hk' as [Hk'|Hk'].
      { apply In_concat_map in Hk' as (c' & Hc' & Hk').
        eapply keys_absent; [apply Habs, H1, Hc' | exact Hk']. }
      rewrite app_assoc in Hk'. apply in_app_or in Hk' as [Hk'|Hk'].
      { apply Hout, Hk'. }
      apply In_concat_map in Hk' as (c' & Hc' & Hk').
      eapply keys_absent; [apply Habs, H2, Hc' | exact Hk'].
    + split; [|split; [|split]].
      * intros new. cbn [append_child]. rewrite En, keys_El.
        rewrite List.map_app. cbn [List.map].
        rewrite (map_same (append_child x new) cs1)
          by (intros c' Hc'; apply (Hcs c'), H1, Hc').
        rewrite (map_same (append_child x new) cs2)
          by (intros c' Hc'; apply (Hcs c'), H2, Hc').
        rewrite keys_app_children. cbn [List.map List.concat].
        rewrite Happ. fold K1 K2. cbn [app]. rewrite <- !app_assoc.
        reflexivity.
      * intros new. cbn [set_children]. rewrite En, keys_El.
        rewrite List.map_app. cbn [List.map].
        rewrite (map_same (set_children x new) cs1)
          by (intros c' Hc'; apply (Hcs c'), H1, Hc').
        rewrite (map_same (set_children x new) cs2)
          by (intros c' Hc'; apply (Hcs c'), H2, Hc').
        rewrite keys_app_children. cbn [List.map List.concat].
        rewrite Hset. fold K1 K2. cbn [app].
        repeat (rewrite <- app_assoc || rewrite <- app_comm_cons).
        reflexivity.
      * intros _. cbn [remove_node]. rewrite keys_El.
        rewrite List.map_app, List.concat_app. cbn [List.map List.concat].
        rewrite (concat_map_single _ cs1), (concat_map_single _ cs2).
        2:{ intros c' Hc'. destruct (Hcs c' (H2 c' Hc')) as (-> & -> & _).
            reflexivity. }
        2:{ intros c' Hc'. destruct (Hcs c' (H1 c' Hc')) as (-> & -> & _).
            reflexivity. }
        destruct (is_node x c) eqn:Ec.
        -- destruct (Hroot eq_refl) as (-> & -> & ->).
           cbn [app]. rewrite ?keys_app_children. fold K1 K2.
           rewrite ?app_nil_r. reflexivity.
        -- rewrite ?keys_app_children. cbn [List.map List.concat app].
           rewrite (Hrem eq_refl), ?app_nil_r. fold K1 K2.
           rewrite <- ?app_assoc. reflexivity.
      * cbn [is_node]. rewrite En. discriminate.
Qed.

Lemma nids_keys n ancs :
  nids n = List.map (fun k => nid (snd k)) (keys n ancs).
Proof.
  unfold nids. rewrite <- (keys_elements n ancs), List.map_map. reflexivity.
Qed.

Lemma nids_keys_children (cs : list node) ancs :
  List.map (fun k => nid (snd k))
    (List.concat (List.map (fun c => keys c ancs) cs))
  = List.concat (List.map nids cs).
Proof.
  rewrite List.concat_map, List.map_map. f_equal.
  apply List.map_ext. intros c. symmetry. apply nids_keys.
Qed.

Lemma elements_keys_children (cs : list node) ancs :
  List.map snd (List.concat (List.map (fun c => keys c ancs) cs))
  = List.concat (List.map elements cs).
Proof.
  rewrite List.concat_map, List.map_map. f_equal.
  apply List.map_ext. intros c. apply keys_elements.
Qed.

Lemma located_walk x ex csx n :
  located x ex csx n -> forall ancs, exists ax, In (ax, ex, csx) (walk n ancs).
Proof.
  induction 1 as [E Hn|e cs1 c cs2 E Hl IH Habs]; intros ancs.
  - exists ancs. left. reflexivity.
  - destruct (IH (e :: ancs)) as (ax & Hax). exists ax.
    right. apply In_concat_map. exists c.
    split; [apply in_or_app; right; left; reflexivity | exact Hax].
Qed.

Lemma entry_In doc x en :
  entry doc x = Some en -> In en (walk doc []) /\ entry_nid en = x.
Proof.
  unfold entry. intros H. apply first_filter_In in H as [Hin Hn].
  split; [exact Hin | apply Nat.eqb_eq, Hn].
Qed.

Lemma entry_exists doc x :
  In x (nids doc) -> exists en, entry doc x = Some en.
Proof.
  intros Hx. unfold entry. destruct (first _) as [en|] eqn:E; [eauto|].
  exfalso. rewrite first_filter_None in E.
  rewrite <- (entry_nids doc []) in Hx.
  apply in_map_iff in Hx as (en & Hn & Hin).
  specialize (E en Hin). rewrite Hn, Nat.eqb_refl in E. discriminate.
Qed.

Lemma located_subtree doc x e cs :
  unique_ids doc -> subtree doc x = Some (El e cs) -> located x e cs doc.
Proof.
  intros Hu Hs. unfold subtree in Hs.
  destruct (entry doc x) as [en|] eqn:He; [|discriminate].
  injection Hs as He1 He2.
  destruct (entry_In _ _ _ He) as [Hin Hn].
  assert (Hx : In x (nids doc)).
  { rewrite <- (entry_nids doc []), <- Hn. apply in_map, Hin. }
  destruct (located_exists doc x Hu Hx) as (ex & csx & Hl).
  destruct (located_walk _ _ _ _ Hl []) as (ax & Hax).
  assert (Hnx : nid ex = x).
  { destruct (located_keys _ _ _ _ Hl []) as (? & ? & ? & Hnx & _).
    exact Hnx. }
  assert (Heq : (ax, ex, csx) = en)
    by (eapply entry_unique; eauto).
  subst en. cbn in He1, He2. subst. exact Hl.
Qed.

Lemma walk_child n : forall a ancs e cs e' cs',
  In (ancs, e, cs) (walk n a) -> In (El e' cs') cs ->
  In (e :: ancs, e', cs') (walk n a).
Proof.
  induction n as [s|r rs IH] using node_ind'; intros a ancs e cs e' cs';
    [intros []|].
  cbn [walk]. intros [H|H] Hc.
  - injection H as <- <- <-. right. apply In_concat_map.
    exists (El e' cs'). split; [exact Hc | left; reflexivity].
  - apply In_concat_map in H as (c & Hcr & H).
    rewrite List.Forall_forall in IH. right. apply In_concat_map.
    exists c. split; [exact Hcr|]. eapply IH; eauto.
Qed.

Lemma NoDup_insert {A} (L1 M L2 : list A) :
  List.NoDup (L1 ++ L2) -> List.NoDup M ->
  (forall a, In a M -> ~ In a (L1 ++ L2)) ->
  List.NoDup (L1 ++ M ++ L2).
Proof.
  intros H12 HM Hd.
  apply (Permutation.Permutation_NoDup (l := M ++ L1 ++ L2)).
  - apply Permutation.Permutation_app_swap_app.
  - apply List.NoDup_app; assumption.
Qed.

Lemma NoDup_middle {A} (L1 M L2 : list A) :
  List.NoDup (L1 ++ M ++ L2) ->
  List.NoDup (L1 ++ L2) /\ List.NoDup M
  /\ forall a, In a M -> ~ In a (L1 ++ L2).
Proof.
  intros H.
  assert (H' : List.NoDup (M ++ L1 ++ L2)).
  { eapply Permutation.Permutation_NoDup; [|exact H].
    apply Permutation.Permutation_app_swap_app. }
  split; [eapply NoDup_app_remove_l, H'|].
  split; [eapply NoDup_app_remove_r, H'|].
  intros a Ha Hb. exact (NoDup_app_disjoint _ _ a H' Ha Hb).
Qed.

(** ** What the steps of [decorate] keep *)

Lemma block_is_div_incl block doc doc' :
  (forall e, In e (elements doc') ->
             exists e0, In e0 (elements doc) /\ nid e0 = nid e /\ tag e0 = tag e) ->
  block_is_div block doc -> block_is_div block doc'.
Proof.
  intros H Hb e He Hn. destruct (H e He) as (e0 & He0 & En & Et).
  rewrite <- Et. apply Hb; [exact He0 | congruence].
Qed.

Lemma page_inv_incl block n d d' :
  unique_ids d' -> incl (elements d') (elements d) ->
  page_inv block n d -> page_inv block n d'.
Proof.
  intros Hu Hincl (_ & Hb & Hal). split; [exact Hu|]. split.
  - intros e He. apply Hb, Hincl, He.
  - intros e He. apply Hal, Hincl, He.
Qed.

Lemma page_inv_update block n x f d :
  plain f -> page_inv block n d -> page_inv block n (update x f d).
Proof.
  intros Hp (Hu & Hb & Hal). split; [|split].
  - unfold unique_ids. rewrite unique_ids_update; [exact Hu|apply Hp].
  - eapply block_is_div_incl; [|exact Hb]. intros e He.
    rewrite elements_update in He. apply in_map_iff in He as (e0 & <- & He0).
    exists e0. split; [exact He0|]. unfold upd.
    destruct (Nat.eqb (nid e0) x); [|auto].
    split; [symmetry; apply Hp | symmetry; apply Hp].
  - intros e He. rewrite elements_update in He.
    apply in_map_iff in He as (e0 & <- & He0).
    rewrite (upd_nid x f e0 (plain_nid f Hp)). apply Hal, He0.
Qed.

(** The identities and the elements around [x], and what the operations
    on [x] make of them. *)
Lemma located_nids x ex csx n :
  located x ex csx n ->
  exists A B,
    nids n = A ++ (x :: List.concat (List.map nids csx)) ++ B
    /\ (forall new,
          nids (set_children x new n)
          = A ++ (x :: List.concat (List.map nids new)) ++ B)
    /\ (forall new,
          nids (append_child x new n)
          = (A ++ x :: List.concat (List.map nids csx)) ++ nids new ++ B)
    /\ (is_node x n = false -> nids (remove_node x n) = A ++ B).
Proof.
  intros Hl.
  destruct (located_keys _ _ _ _ Hl [])
    as (pre & post & local & Hx & Hk & _ & _ & Happ & Hset & Hrem & _).
  cbv zeta in *.
  exists (List.map (fun k => nid (snd k)) pre),
         (List.map (fun k => nid (snd k)) post).
  rewrite keys_El in *.
  split; [|split; [|split]].
  - rewrite (nids_keys n []), Hk.
    rewrite !List.map_app. cbn [List.map snd].
    rewrite nids_keys_children, Hx. reflexivity.
  - intros new. rewrite (nids_keys _ []), Hset.
    rewrite !List.map_app. cbn [List.map snd]. rewrite !List.map_app.
    rewrite nids_keys_children, Hx. reflexivity.
  - intros new. rewrite (nids_keys _ []), Happ.
    rewrite !List.map_app. cbn [List.map snd].
    rewrite nids_keys_children, Hx, <- (nids_keys new), <- !app_assoc.
    reflexivity.
  - intros H. rewrite (nids_keys _ []), (Hrem H). apply List.map_app.
Qed.

Lemma located_elements x ex csx n :
  located x ex csx n ->
  exists A B,
    elements n = A ++ (ex :: List.concat (List.map elements csx)) ++ B
    /\ (forall new,
          elements (set_children x new n)
          = A ++ (ex :: List.concat (List.map elements new)) ++ B)
    /\ (forall new,
          elements (append_child x new n)
          = (A ++ ex :: List.concat (List.map elements csx))
              ++ elements new ++ B)
    /\ (is_node x n = false -> elements (remove_node x n) = A ++ B).
Proof.
  intros Hl.
  destruct (located_keys _ _ _ _ Hl [])
    as (pre & post & local & Hx & Hk & _ & _ & Happ & Hset & Hrem & _).
  cbv zeta in *.
  exists (List.map snd pre), (List.map snd post).
  rewrite keys_El in *.
  split; [|split; [|split]].
  - rewrite <- (keys_elements n []), Hk.
    rewrite !List.map_app. cbn [List.map snd].
    rewrite elements_keys_children. reflexivity.
  - intros new. rewrite <- (keys_elements _ []), Hset.
    rewrite !List.map_app. cbn [List.map snd]. rewrite !List.map_app.
    rewrite elements_keys_children. reflexivity.
  - intros new. rewrite <- (keys_elements _ []), Happ.
    rewrite !List.map_app. cbn [List.map snd].
    rewrite elements_keys_children, keys_elements, <- !app_assoc.
    reflexivity.
  - intros H. rewrite <- (keys_elements _ []), (Hrem H). apply List.map_app.
Qed.

Lemma nids_incl (new old : list node) :
  incl (List.concat (List.map elements new))
       (List.concat (List.map elements old)) ->
  incl (List.concat (List.map nids new)) (List.concat (List.map nids old)).
Proof.
  intros H a Ha. apply In_concat_map in Ha as (c & Hc & Ha).
  apply in_map_iff in Ha as (e & <- & He).
  assert (He' : In e (List.concat (List.map elements old)))
    by (apply H, In_concat_map; eauto).
  apply In_concat_map in He' as (c' & Hc' & He').
  apply In_concat_map. exists c'. split; [exact Hc' | apply In_nids, He'].
Qed.

(** Replacing the children of an element by nodes taken from among them. *)
Lemma inv_set_children x ex csx new doc :
  unique_ids doc ->
  located x ex csx doc ->
  List.NoDup (List.concat (List.map nids new)) ->
  incl (List.concat (List.map elements new))
       (List.concat (List.map elements csx)) ->
  unique_ids (set_children x new doc)
  /\ incl (elements (set_children x new doc)) (elements doc).
Proof.
  intros Hu Hl Hnew Hincl. split.
  - destruct (located_nids _ _ _ _ Hl) as (A & B & Hn & Hset & _).
    unfold unique_ids in *. rewrite Hset. rewrite Hn in Hu.
    apply NoDup_middle in Hu as (H12 & HM & Hd).
    apply nids_incl in Hincl.
    apply NoDup_insert; [exact H12| |].
    + apply List.NoDup_cons_iff in HM as [Hx HM].
      apply List.NoDup_cons_iff. split; [|exact Hnew].
      intros Hin. apply Hx, Hincl, Hin.
    + intros a [<-|Ha]; apply Hd; [left; reflexivity|].
      right. apply Hincl, Ha.
  - destruct (located_elements _ _ _ _ Hl) as (A & B & Hn & Hset & _).
    intros e He. rewrite Hset in He. rewrite Hn.
    apply in_app_or in He as [He|He]; [apply in_or_app; left; exact He|].
    apply in_or_app. right.
    apply in_app_or in He as [[He|He]|He]; apply in_or_app.
    + left. left. exact He.
    + left. right. apply Hincl, He.
    + right. exact He.
Qed.

(** ** Elements with their ancestors, on a page of distinct elements *)

Lemma querySelector_key doc x sel e :
  querySelector doc x sel = Some e ->
  exists k, In k (keys doc []) /\ snd k = e /\ below x k = true
            /\ matches sel (fst k) e = true.
Proof.
  rewrite querySelector_keys.
  destruct (first _) as [k|] eqn:E; [|discriminate]. intros [= <-].
  apply first_filter_In in E as [Hin Hs]. unfold selects in Hs.
  apply andb_prop in Hs as [Hb Hm]. exists k. auto.
Qed.

Lemma closest_keys doc x s :
  closest doc x s
  = first (List.filter (fun k => Nat.eqb (nid (snd k)) x) (keys doc []))
      ≫= (fun k => first (List.filter (matches_simple s) (snd k :: fst k))).
Proof.
  unfold closest, entry, keys.
  rewrite (first_filter_map fst (fun k => Nat.eqb (nid (snd k)) x)
             (fun en => Nat.eqb (entry_nid en) x)) by reflexivity.
  destruct (first _); reflexivity.
Qed.

Lemma key_unique doc k :
  unique_ids doc -> In k (keys doc []) ->
  first (List.filter (fun k' => Nat.eqb (nid (snd k')) (nid (snd k)))
           (keys doc []))
  = Some k.
Proof.
  intros Hu Hin. apply first_filter_unique.
  - intros k' Hin' E. apply Nat.eqb_eq in E.
    eapply (NoDup_map_eq (fun k => nid (snd k))); [|exact Hin'|exact Hin|exact E].
    rewrite <- nids_keys. exact Hu.
  - exact Hin.
  - apply Nat.eqb_refl.
Qed.

Lemma keys_ancestor_In doc k a :
  In k (keys doc []) -> In a (fst k) -> In a (elements doc).
Proof.
  intros Hk Ha. destruct (keys_inside _ _ _ Hk) as (_ & local & Hl & Hin).
  rewrite app_nil_r in Hl. rewrite Hl in Ha. apply Hin, Ha.
Qed.

Lemma located_key x ex csx d :
  located x ex csx d ->
  exists anc, In (anc, ex) (keys d []) /\ nid ex = x
              /\ (is_node x d = true -> anc = []).
Proof.
  intros Hl.
  destruct (located_keys _ _ _ _ Hl [])
    as (pre & post & local & Hx & Hkeys & _ & _ & _ & _ & _ & Hroot).
  cbv zeta in *. exists (local ++ []). split; [|split; [exact Hx|]].
  - rewrite Hkeys, keys_El. apply in_or_app. right. left. reflexivity.
  - intros H. destruct (Hroot H) as (_ & _ & ->). reflexivity.
Qed.

Lemma key_In_nids d k : In k (keys d []) -> In (nid (snd k)) (nids d).
Proof.
  intros Hk. rewrite (nids_keys d []).
  apply (in_map (fun k => nid (snd k))), Hk.
Qed.

Lemma keys_same_nid d k k' :
  unique_ids d -> In k (keys d []) -> In k' (keys d []) ->
  nid (snd k) = nid (snd k') -> k = k'.
Proof.
  intros Hu Hk Hk' E.
  eapply (NoDup_map_eq (fun k => nid (snd k))); eauto.
  rewrite <- nids_keys. exact Hu.
Qed.

Lemma keys_update x f n : forall ancs,
  keys (update x f n) (List.map (upd x f) ancs)
  = List.map (fun k => (List.map (upd x f) (fst k), upd x f (snd k)))
      (keys n ancs).
Proof.
  intros ancs. unfold keys. rewrite walk_update, !List.map_map.
  reflexivity.
Qed.

Lemma keys_update_In x f n k :
  (forall e, nid (f e) = nid e) -> In k (keys n []) ->
  exists k', In k' (keys (update x f n) [])
             /\ nid (snd k') = nid (snd k)
             /\ forall y, below y k' = below y k.
Proof.
  intros Hn Hk.
  exists (List.map (upd x f) (fst k), upd x f (snd k)).
  split; [|split].
  - change (@nil element) with (List.map (upd x f) []).
    rewrite (keys_update x f n []).
    apply (in_map (fun k => (List.map (upd x f) (fst k), upd x f (snd k)))),
      Hk.
  - apply upd_nid, Hn.
  - intros y. unfold below. cbn [fst].
    induction (fst k) as [|a l IH]; [reflexivity|].
    cbn [List.map existsb]. rewrite IH, (upd_nid x f a Hn). reflexivity.
Qed.

Lemma upd_other x f e : nid e <> x -> upd x f e = e.
Proof. intros H. unfold upd. apply Nat.eqb_neq in H. rewrite H. reflexivity. Qed.

Lemma allocated_update m x f d :
  (forall e, nid (f e) = nid e) -> allocated m d -> allocated m (update x f d).
Proof.
  intros Hn Hal e He. rewrite elements_update in He.
  apply in_map_iff in He as (e0 & <- & He0). rewrite (upd_nid x f e0 Hn).
  apply Hal, He0.
Qed.

Lemma app_eq_length {A} (l1 l1' l2 l2' : list A) :
  l1 ++ l2 = l1' ++ l2' -> length l2 = length l2' -> l1 = l1' /\ l2 = l2'.
Proof.
  revert l1'. induction l1 as [|a l1 IH]; intros [|a' l1'] H Hlen; cbn in *.
  - auto.
  - exfalso. subst l2. cbn in Hlen. rewrite length_app in Hlen. lia.
  - exfalso. subst l2'. cbn in Hlen. rewrite length_app in Hlen. lia.
  - injection H as -> H. destruct (IH l1' H Hlen) as [-> ->]. auto.
Qed.

(** The ancestors of an element are elements of the page, each with the
    ancestors that follow it in the list. *)
Lemma keys_ancestor_chain n : forall ancs k l1 b l2,
  In k (keys n ancs) -> fst k = l1 ++ b :: l2 -> length ancs <= length l2 ->
  In (l2, b) (keys n ancs).
Proof.
  induction n as [s|e cs IH] using node_ind'; intros ancs k l1 b l2;
    [intros []|].
  rewrite keys_El. intros [<-|Hk] Hf Hlen.
  - exfalso. cbn [fst] in Hf. apply (f_equal (@length _)) in Hf.
    rewrite length_app in Hf. cbn in Hf. lia.
  - apply In_concat_map in Hk as (c & Hc & Hk).
    rewrite List.Forall_forall in IH.
    destruct (le_lt_dec (length (e :: ancs)) (length l2)) as [Hle|Hlt].
    + right. apply In_concat_map. exists c. split; [exact Hc|].
      eapply IH; eauto.
    + cbn in Hlt.
      destruct (keys_inside _ _ _ Hk) as (_ & local & Hl & _).
      rewrite Hf in Hl.
      change (l1 ++ b :: l2) with (l1 ++ [b] ++ l2) in Hl.
      change (local ++ e :: ancs) with (local ++ [e] ++ ancs) in Hl.
      rewrite !app_assoc in Hl.
      apply app_eq_length in Hl as [Hl ->]; [|lia].
      apply app_inj_tail in Hl as [_ ->]. left. reflexivity.
Qed.

Lemma first_filter_before {A} (P : A -> bool) l d a :
  first (List.filter P l) = Some d -> In a l -> P a = true ->
  exists l1 l2, l = l1 ++ d :: l2 /\ (a = d \/ In a l2).
Proof.
  induction l as [|c l IH]; cbn; [discriminate|].
  destruct (P c) eqn:E; cbn.
  - intros [= ->] [->|Ha] _; exists [], l; auto.
  - intros Hd [->|Ha] Hp; [congruence|].
    destruct (IH Hd Ha Hp) as (l1 & l2 & -> & H).
    exists (c :: l1), l2. auto.
Qed.

(** ** What lies outside the block *)

Lemma below_app x l1 l2 e e' :
  below x (l2, e) = true -> below x (l1 ++ l2, e') = true.
Proof.
  unfold below. cbn [fst]. intros H. rewrite existsb_app, H.
  apply orb_true_r.
Qed.

Lemma inside_extends block ax ex local e :
  inside block (ax, ex) = true -> below block (local ++ ex :: ax, e) = true.
Proof.
  unfold inside, below. cbn [fst snd]. intros H.
  rewrite existsb_app. cbn [existsb].
  apply orb_prop in H as [H|H]; rewrite H, ?orb_true_r; reflexivity.
Qed.

Lemma inside_children block c ax ex k :
  inside block (ax, ex) = true -> In k (keys c (ex :: ax)) ->
  inside block k = true.
Proof.
  intros Hi Hk. destruct (keys_inside _ _ _ Hk) as (_ & local & Hl & _).
  unfold inside. destruct k as [ancs e]. cbn [fst snd] in *. subst ancs.
  rewrite (inside_extends block ax ex local e Hi). reflexivity.
Qed.

Lemma same_outside_refl block d : same_outside block d d.
Proof. intros k _. reflexivity. Qed.

Lemma same_outside_trans block d1 d2 d3 :
  same_outside block d1 d2 -> same_outside block d2 d3 ->
  same_outside block d1 d3.
Proof.
  intros H1 H2 k Hk. rewrite (H1 k Hk). apply H2, Hk.
Qed.

Lemma located_inside block x ex csx d kx :
  unique_ids d -> located x ex csx d ->
  In kx (keys d []) -> nid (snd kx) = x -> inside block kx = true ->
  forall ax, In (ax, ex) (keys d []) -> inside block (ax, ex) = true.
Proof.
  intros Hu Hl Hk Hn Hi ax Hax.
  destruct (located_key _ _ _ _ Hl) as (_ & _ & Hx & _).
  rewrite (keys_same_nid d (ax, ex) kx Hu Hax Hk); [exact Hi|].
  cbn [snd]. congruence.
Qed.

(** Replacing the children of an element of the block. *)
Lemma frame_set_children block x new d kx :
  unique_ids d -> In kx (keys d []) -> nid (snd kx) = x ->
  inside block kx = true ->
  same_outside block d (set_children x new d).
Proof.
  intros Hu Hk Hn Hi.
  destruct (located_exists d x Hu) as (ex & csx & Hl).
  { rewrite <- Hn. apply key_In_nids, Hk. }
  pose proof (located_inside block _ _ _ _ _ Hu Hl Hk Hn Hi) as Hin.
  destruct (located_keys _ _ _ _ Hl [])
    as (pre & post & local & _ & Hkeys & _ & _ & _ & Hset & _).
  cbv zeta in *. specialize (Hset new). rewrite keys_El in Hkeys.
  assert (Hax : inside block (local ++ [], ex) = true).
  { apply Hin. rewrite Hkeys. apply in_or_app. right. left. reflexivity. }
  intros k Hout. rewrite Hkeys, Hset. rewrite !in_app_iff. cbn [In].
  rewrite !in_app_iff.
  split; [intros [H|[[H|H]|H]] | intros [H|[H|[H|H]]]]; try tauto; exfalso;
    apply In_concat_map in H as (c & _ & H);
    rewrite (inside_children block c _ _ k Hax H) in Hout; discriminate.
Qed.

(** Appending to an element of the block. *)
Lemma frame_append_child block x new d kx :
  unique_ids d -> In kx (keys d []) -> nid (snd kx) = x ->
  inside block kx = true ->
  same_outside block d (append_child x new d).
Proof.
  intros Hu Hk Hn Hi.
  destruct (located_exists d x Hu) as (ex & csx & Hl).
  { rewrite <- Hn. apply key_In_nids, Hk. }
  pose proof (located_inside block _ _ _ _ _ Hu Hl Hk Hn Hi) as Hin.
  destruct (located_keys _ _ _ _ Hl [])
    as (pre & post & local & _ & Hkeys & _ & _ & Happ & _).
  cbv zeta in *. specialize (Happ new).
  assert (Hax : inside block (local ++ [], ex) = true).
  { apply Hin. rewrite Hkeys, keys_El. apply in_or_app. right. left.
    reflexivity. }
  intros k Hout. rewrite Hkeys, Happ. rewrite !in_app_iff.
  split; [tauto | intros [H|[H|[H|H]]]; try tauto].
  exfalso. rewrite (inside_children block new _ _ k Hax H) in Hout.
  discriminate.
Qed.

(** Removing an element that lies in the block. *)
Lemma frame_remove_node block x d kx :
  unique_ids d -> In kx (keys d []) -> nid (snd kx) = x ->
  below block kx = true ->
  is_node x d = false
  /\ same_outside block d (remove_node x d).
Proof.
  intros Hu Hk Hn Hb.
  assert (Hi : inside block kx = true) by (unfold inside; rewrite Hb; reflexivity).
  destruct (located_exists d x Hu) as (ex & csx & Hl).
  { rewrite <- Hn. apply key_In_nids, Hk. }
  pose proof (located_inside block _ _ _ _ _ Hu Hl Hk Hn Hi) as Hin.
  destruct (located_keys _ _ _ _ Hl [])
    as (pre & post & local & Hx & Hkeys & _ & _ & _ & _ & Hrem & Hroot).
  cbv zeta in *. rewrite keys_El in Hkeys.
  assert (Hkx : In (local ++ [], ex) (keys d [])).
  { rewrite Hkeys. apply in_or_app. right. left. reflexivity. }
  assert (Hax := Hin _ Hkx).
  assert (Hnr : is_node x d = false).
  { destruct (is_node x d) eqn:E; [|reflexivity].
    destruct (Hroot eq_refl) as (_ & _ & ->).
    rewrite (keys_same_nid d kx ([] ++ [], ex) Hu Hk Hkx) in Hb
      by (cbn [snd]; congruence).
    discriminate. }
  split; [exact Hnr|].
  intros k Hout. rewrite Hkeys, (Hrem Hnr). rewrite !in_app_iff. cbn [In].
  split; [intros [H|[[H|H]|H]]; try tauto | tauto].
  - exfalso. subst k. rewrite Hax in Hout. discriminate.
  - exfalso. apply In_concat_map in H as (c & _ & H).
    rewrite (inside_children block c _ _ k Hax H) in Hout. discriminate.
Qed.

(** Changing an element of the block in place. *)
Lemma frame_update block x f d kx :
  unique_ids d -> (forall e, nid (f e) = nid e) ->
  In kx (keys d []) -> nid (snd kx) = x -> inside block kx = true ->
  same_outside block d (update x f d).
Proof.
  intros Hu Hf Hk Hn Hi.
  set (U := fun k : list element * element =>
              (List.map (upd x f) (fst k), upd x f (snd k))).
  assert (Hkeys : keys (update x f d) [] = List.map U (keys d []))
    by (apply (keys_update x f d [])).
  assert (HiU : forall k, inside block (U k) = inside block k).
  { intros k. unfold inside, below, U. cbn [fst snd].
    rewrite (upd_nid x f _ Hf). f_equal.
    induction (fst k) as [|a l IH]; [reflexivity|].
    cbn [List.map existsb]. rewrite IH, (upd_nid x f a Hf). reflexivity. }
  assert (HU : forall k, In k (keys d []) -> inside block k = false -> U k = k).
  { intros k Hin Hout. unfold U. destruct k as [ancs e]. cbn [fst snd] in *.
    f_equal.
    - apply map_same. intros a Ha. apply upd_other. intros Ea.
      apply in_split in Ha as (l1 & l2 & ->).
      assert (Hka : In (l2, a) (keys d [])).
      { apply (keys_ancestor_chain d [] (l1 ++ a :: l2, e) l1 a l2 Hin);
          [reflexivity | cbn; lia]. }
      rewrite (keys_same_nid d kx (l2, a) Hu Hk Hka) in Hi
        by (cbn [snd]; congruence).
      unfold inside in Hout.
      rewrite (inside_extends block l2 a l1 e Hi) in Hout. discriminate.
    - apply upd_other. intros Ee.
      rewrite (keys_same_nid d kx (ancs, e) Hu Hk Hin) in Hi
        by (cbn [snd]; congruence).
      congruence. }
  intros k Hout. rewrite Hkeys. split.
  - intros Hin. rewrite <- (HU k Hin Hout). apply in_map, Hin.
  - intros Hin. apply in_map_iff in Hin as (k0 & <- & Hin0).
    rewrite HiU in Hout. rewrite (HU k0 Hin0 Hout). exact Hin0.
Qed.

Lemma located_of_entry doc ancs e cs :
  unique_ids doc -> In (ancs, e, cs) (walk doc []) ->
  located (nid e) e cs doc.
Proof.
  intros Hu Hin.
  assert (Hx : In (nid e) (nids doc)).
  { rewrite <- (entry_nids doc []).
    apply (in_map entry_nid _ _ Hin). }
  destruct (located_exists doc (nid e) Hu Hx) as (ex & csx & Hl).
  destruct (located_walk _ _ _ _ Hl []) as (ax & Hax).
  assert (Hnx : nid ex = nid e).
  { destruct (located_keys _ _ _ _ Hl []) as (? & ? & ? & Hnx & _).
    exact Hnx. }
  assert (Heq : (ax, ex, csx) = (ancs, e, cs)).
  { eapply (NoDup_map_eq entry_nid); [|exact Hax|exact Hin|exact Hnx].
    rewrite entry_nids. exact Hu. }
  injection Heq as _ <- <-. exact Hl.
Qed.

Lemma unwrap_paragraphs kids :
  List.NoDup (List.concat (List.map nids kids)) ->
  let new := List.concat
               (List.map (fun c => if is_paragraph c then children_of c
                                   else [c]) kids) in
  List.NoDup (List.concat (List.map nids new))
  /\ incl (List.concat (List.map elements new))
          (List.concat (List.map elements kids)).
Proof.
  cbv zeta. induction kids as [|c kids IH]; intros Hd.
  - split; [constructor | intros a []].
  - cbn [List.map List.concat] in *.
    rewrite !List.map_app, !List.concat_app.
    destruct (IH (NoDup_app_remove_l _ _ Hd)) as [IH1 IH2].
    set (g := if is_paragraph c then children_of c else [c]).
    assert (Hg : incl (List.concat (List.map elements g)) (elements c)
                 /\ List.NoDup (List.concat (List.map nids g))).
    { subst g. destruct (is_paragraph c).
      - destruct c as [s|p pcs]; cbn [children_of List.map List.concat elements].
        + split; [intros a [] | constructor].
        + split; [intros a Ha; right; exact Ha|].
          apply NoDup_app_remove_r in Hd. rewrite nids_El in Hd.
          apply List.NoDup_cons_iff in Hd. apply Hd.
      - cbn [List.map List.concat]. rewrite !app_nil_r.
        split; [apply incl_refl | eapply NoDup_app_remove_r, Hd]. }
    destruct Hg as [Hg1 Hg2]. split.
    + apply List.NoDup_app; [exact Hg2 | exact IH1 |].
      intros a Ha Hb. apply (NoDup_app_disjoint _ _ a Hd).
      * apply In_concat_map in Ha as (c' & Hc' & Ha).
        apply in_map_iff in Ha as (e & <- & He).
        apply In_nids, Hg1, In_concat_map. eauto.
      * apply (nids_incl _ _ IH2), Hb.
    + intros a Ha. apply in_app_or in Ha as [Ha|Ha]; apply in_or_app.
      * left. apply Hg1, Ha.
      * right. apply IH2, Ha.
Qed.

Lemma NoDup_children_of_entry doc ancs e cs :
  unique_ids doc -> In (ancs, e, cs) (walk doc []) ->
  List.NoDup (List.concat (List.map nids cs)).
Proof.
  intros Hu Hin.
  destruct (located_nids _ _ _ _ (located_of_entry _ _ _ _ Hu Hin))
    as (A & B & Hn & _).
  unfold unique_ids in Hu. rewrite Hn in Hu.
  apply NoDup_middle in Hu as (_ & HM & _).
  apply List.NoDup_cons_iff in HM. apply HM.
Qed.

(** The first step returns when the block has a row; it keeps the page a
    page of distinct elements and works inside the block. *)
Lemma decorate_columns_inv st block n row :
  page_inv block n (document st) ->
  (subtree (document st) block
     ≫= (fun b => first (List.filter is_element (children_of b)))) = Some row ->
  exists st',
    decorate_columns block st = Returned tt st'
    /\ page_inv block n (document st')
    /\ next_nid st' = next_nid st
    /\ same_outside block (document st) (document st').
Proof.
  intros Hinv Hrow. unfold decorate_columns, bind, get_document.
  rewrite Hrow.
  destruct (List.filter is_element (children_of row))
    as [|[s|firstCol kids] [|c2 cols]] eqn:Hcols;
    try (exists st; split; [reflexivity|]; split; [exact Hinv|];
         split; [reflexivity | apply same_outside_refl]).
  eexists. split; [reflexivity|]. cbn [document set_document next_nid].
  destruct (subtree (document st) block) as [b|] eqn:Hb; [|discriminate].
  cbn in Hrow. unfold subtree in Hb.
  destruct (entry (document st) block) as [[[ancs e] cs]|] eqn:He;
    [|discriminate].
  injection Hb as <-. cbn [children_of fst snd] in Hrow.
  destruct (entry_In _ _ _ He) as [Hin Hne].
  apply first_filter_In in Hrow as [Hrow_in Hrow_el].
  destruct row as [s|r csr]; [discriminate|]. cbn [children_of] in Hcols.
  assert (Hin_r := walk_child _ _ _ _ _ _ _ Hin Hrow_in).
  assert (Hcol : In (El firstCol kids) csr).
  { assert (H : In (El firstCol kids) (List.filter is_element csr))
      by (rewrite Hcols; left; reflexivity).
    apply filter_In in H. apply H. }
  assert (Hin_c := walk_child _ _ _ _ _ _ _ Hin_r Hcol).
  pose proof Hinv as (Hu & _ & _).
  destruct (unwrap_paragraphs kids
              (NoDup_children_of_entry _ _ _ _ Hu Hin_c)) as [N1 N2].
  destruct (inv_set_children (nid firstCol) firstCol kids _ (document st)
              Hu (located_of_entry _ _ _ _ Hu Hin_c) N1 N2) as [Hu' Hincl].
  split; [exact (page_inv_incl _ _ _ _ Hu' Hincl Hinv)|].
  split; [reflexivity|].
  apply (frame_set_children block _ _ _ (r :: e :: ancs, firstCol) Hu).
  - unfold keys. apply (in_map fst _ _ Hin_c).
  - reflexivity.
  - unfold inside, below. cbn [fst snd existsb]. unfold entry_nid in Hne.
    cbn [fst snd] in Hne. rewrite Hne, Nat.eqb_refl, !orb_true_r. reflexivity.
Qed.

(** Below a block that is a [div], [closest('div')] finds an element, and
    finds it in the block. *)
Lemma closest_div doc block k :
  unique_ids doc -> block_is_div block doc ->
  In k (keys doc []) -> below block k = true ->
  exists d, closest doc (nid (snd k)) (STag "div") = Some d
            /\ tag d = "div"
            /\ (d = snd k \/ In d (fst k))
            /\ exists kd, In kd (keys doc []) /\ snd kd = d
                          /\ inside block kd = true.
Proof.
  intros Hu Hb Hk Hbelow. rewrite closest_keys, (key_unique doc k Hu Hk).
  cbn [mbind option_bind].
  pose proof Hbelow as Hbl.
  apply existsb_exists in Hbl as (a & Ha & En). apply Nat.eqb_eq in En.
  assert (Hdiv : matches_simple (STag "div") a = true).
  { cbn [matches_simple].
    rewrite (Hb a (keys_ancestor_In _ _ _ Hk Ha) En). reflexivity. }
  destruct (first _) as [d|] eqn:E.
  - pose proof (first_filter_In _ _ _ E) as [Hin Hm]. exists d.
    split; [reflexivity|]. split; [apply String.eqb_eq, Hm|].
    split; [destruct Hin as [<-|Hin]; auto|].
    destruct (first_filter_before _ _ _ a E (or_intror Ha) Hdiv)
      as (l1 & l2 & Hl & Hpos).
    destruct l1 as [|h l1]; cbn [app] in Hl; injection Hl as Hh Hl.
    + exists k. split; [exact Hk|]. split; [auto|].
      unfold inside. rewrite Hbelow. reflexivity.
    + exists (l2, d). split; [|split; [reflexivity|]].
      * apply (keys_ancestor_chain doc [] k l1 d l2 Hk Hl). cbn. lia.
      * unfold inside, below. cbn [fst snd].
        destruct Hpos as [<-|Hpos].
        -- rewrite En, Nat.eqb_refl. apply orb_true_r.
        -- replace (existsb (fun a0 => Nat.eqb (nid a0) block) l2) with true;
             [reflexivity|].
           symmetry. apply existsb_exists. exists a.
           split; [exact Hpos | apply Nat.eqb_eq, En].
  - exfalso. rewrite first_filter_None in E.
    specialize (E a (or_intror Ha)). congruence.
Qed.

Lemma decorate_text_inv st block n :
  page_inv block n (document st) ->
  exists st',
    decorate_text block st = Returned tt st'
    /\ page_inv block n (document st')
    /\ next_nid st' = next_nid st
    /\ same_outside block (document st) (document st').
Proof.
  intros Hinv. unfold decorate_text, bind, get_document.
  destruct (querySelector (document st) block (Sel (STag "h2")))
    as [heading|] eqn:Hq.
  2:{ exists st. split; [reflexivity|]. split; [exact Hinv|].
      split; [reflexivity | apply same_outside_refl]. }
  apply querySelector_key in Hq as (k & Hk & <- & Hb & _).
  pose proof Hinv as (Hu & Hbd & _).
  destruct (closest_div _ block k Hu Hbd Hk Hb)
    as (d & -> & _ & _ & kd & Hkd & Ekd & Hid).
  eexists. split; [reflexivity|]. cbn [document set_document next_nid].
  split; [apply page_inv_update; [apply plain_classList_add | exact Hinv]|].
  split; [reflexivity|].
  apply (frame_update block _ _ _ kd Hu (nid_classList_add _) Hkd);
    [congruence | exact Hid].
Qed.



(** Moving an element to the end of one of its ancestors. *)
Lemma inv_move block n doc x c ex csx k kc :
  page_inv block n doc ->
  subtree doc x = Some (El ex csx) ->
  In k (keys doc []) -> nid (snd k) = x -> below c k = true ->
  below block k = true ->
  In kc (keys doc []) -> nid (snd kc) = c -> inside block kc = true ->
  page_inv block n (append_child c (El ex csx) (remove_node x doc))
  /\ same_outside block doc (append_child c (El ex csx) (remove_node x doc)).
Proof.
  intros Hinv Hs Hk Hx Hbelow Hblock Hkc0 Hnc Hic.
  pose proof Hinv as (Hu & _ & _).
  destruct (frame_remove_node block x doc k Hu Hk Hx Hblock) as [_ Hframe].
  assert (Hl := located_subtree _ _ _ _ Hu Hs).
  destruct (located_keys _ _ _ _ Hl [])
    as (pre & post & local & Hnx & Hkeys & Hout & Hin & _ & _ & Hrem & Hroot).
  cbv zeta in *. rewrite app_nil_r in *.
  (* [k] is the key of [x] *)
  assert (Hkx : In (local, ex) (keys doc [])).
  { rewrite Hkeys, keys_El. apply in_or_app. right. left. reflexivity. }
  assert (Ek : k = (local, ex)).
  { eapply (NoDup_map_eq (fun k => nid (snd k))); [|exact Hk|exact Hkx|].
    - rewrite <- nids_keys. exact Hu.
    - cbn [snd]. congruence. }
  subst k. cbn [snd] in Hx.
  (* [x] is not the root *)
  assert (Hnr : is_node x doc = false).
  { destruct (is_node x doc) eqn:E; [|reflexivity].
    destruct (Hroot eq_refl) as (_ & _ & ->). discriminate. }
  specialize (Hrem Hnr).
  (* the ancestor [c] is not removed *)
  apply existsb_exists in Hbelow as (a & Ha & Ea). apply Nat.eqb_eq in Ea.
  cbn [fst] in Ha.
  assert (Hael : In a (elements doc))
    by (eapply keys_ancestor_In; [exact Hkx | exact Ha]).
  rewrite <- (keys_elements doc []) in Hael.
  apply in_map_iff in Hael as (kc0 & Ekc & Hkc).
  assert (Hkc' : In kc0 (pre ++ post)).
  { pose proof Hkc as H. rewrite Hkeys in H. apply in_app_or in H as [H|H];
      [apply in_or_app; left; exact H|].
    apply in_app_or in H as [H|H]; [|apply in_or_app; right; exact H].
    exfalso. rewrite keys_El in H. destruct H as [<-|H].
    - cbn [snd] in Ekc. subst a.
      assert (In ex []) as []. 
      eapply (key_not_own_ancestor doc [] (local, ex) ex Hu Hkx Ha).
      reflexivity.
    - apply In_concat_map in H as (c' & _ & H).
      apply below_inside in H.
      assert (Hb : below (nid (snd kc0)) (local, ex) = true).
      { apply existsb_exists. exists a. split; [exact Ha|].
        rewrite Ekc. apply Nat.eqb_refl. }
      destruct (not_below_found doc kc0 (local, ex) Hu Hkc Hkx Hb) as [B _].
      cbn [snd] in B. rewrite H in B. discriminate. }
  assert (Hc : In c (nids (remove_node x doc))).
  { rewrite (nids_keys _ []), Hrem, <- Ea, <- Ekc.
    apply (in_map (fun k => nid (snd k))), Hkc'. }
  (* the identities *)
  destruct (located_nids _ _ _ _ Hl) as (A & B & Hn & _ & _ & HremN).
  specialize (HremN Hnr).
  pose proof Hu as Hu'. unfold unique_ids in Hu'. rewrite Hn in Hu'.
  apply NoDup_middle in Hu' as (H12 & HM & Hd).
  assert (Hu3 : unique_ids (remove_node x doc))
    by (unfold unique_ids; rewrite HremN; exact H12).
  destruct (located_exists _ _ Hu3 Hc) as (ec & csc & Hlc).
  assert (Hkc3 : In kc (keys (remove_node x doc) [])).
  { rewrite Hrem. replace kc with kc0; [exact Hkc'|].
    apply (keys_same_nid doc); auto. congruence. }
  assert (Hu4 : unique_ids (append_child c (El ex csx) (remove_node x doc))).
  { destruct (located_nids _ _ _ _ Hlc) as (A' & B' & Hn' & _ & Happ' & _).
    unfold unique_ids. rewrite Happ'.
    assert (HT : nids (El ex csx) = x :: List.concat (List.map nids csx))
      by (rewrite nids_El, Hnx; reflexivity).
    rewrite HT. apply NoDup_insert; [|exact HM|].
    + rewrite <- HremN in H12. rewrite Hn' in H12.
      rewrite <- app_assoc. exact H12.
    + intros b Hb Hb'. apply (Hd b Hb). rewrite <- HremN, Hn'.
      rewrite <- app_assoc in Hb'. exact Hb'. }
  split.
  - destruct (located_elements _ _ _ _ Hl) as (E1 & E2 & He & _ & _ & HremE).
    specialize (HremE Hnr).
    destruct (located_elements _ _ _ _ Hlc)
      as (E1' & E2' & He' & _ & HappE & _).
    apply (page_inv_incl _ _ doc); [exact Hu4| |exact Hinv].
    intros e Hin_e. rewrite HappE in Hin_e. rewrite He.
    assert (Hold : forall b, In b (elements (remove_node x doc)) ->
                             In b (E1 ++ (ex :: List.concat (List.map elements csx)) ++ E2)).
    { intros b Hb. rewrite HremE in Hb.
      apply in_app_or in Hb as [Hb|Hb]; apply in_or_app; [left; exact Hb|].
      right. apply in_or_app. right. exact Hb. }
    apply in_app_or in Hin_e as [H|H].
    + apply Hold. rewrite He'.
      apply in_app_or in H as [H|H]; apply in_or_app; [left; exact H|].
      right. apply in_or_app. left. exact H.
    + apply in_app_or in H as [H|H].
      * apply in_or_app. right. apply in_or_app. left. exact H.
      * apply Hold. rewrite He'. apply in_or_app. right.
        apply in_or_app. right. exact H.
  - eapply same_outside_trans; [exact Hframe|].
    apply (frame_append_child block c _ _ kc Hu3 Hkc3 Hnc Hic).
Qed.

Lemma count_exists doc x :
  In x (nids doc) -> exists c, parentNode_childElementCount doc x = Some c.
Proof.
  intros Hx. destruct (entry_exists doc x Hx) as (en & He).
  unfold parentNode_childElementCount. rewrite He. cbn [mbind option_bind].
  destruct (fst (fst en)) as [|p ps] eqn:Ea; [eauto|].
  destruct (entry_In _ _ _ He) as [Hin _].
  assert (Hp : In (nid p) (nids doc)).
  { apply In_nids. apply (keys_ancestor_In doc (fst en) p).
    - unfold keys. apply in_map, Hin.
    - rewrite Ea. left. reflexivity. }
  destruct (entry_exists doc (nid p) Hp) as (pn & ->). cbn. eauto.
Qed.

Lemma subtree_is_element doc x T :
  subtree doc x = Some T -> exists e cs, T = El e cs.
Proof.
  unfold subtree. destruct (entry doc x) as [en|]; [|discriminate].
  intros [= <-]. eauto.
Qed.

Lemma decorate_picture_inv st block n :
  page_inv block n (document st) ->
  exists st',
    decorate_picture block st = Returned tt st'
    /\ page_inv block n (document st')
    /\ next_nid st' = next_nid st
    /\ same_outside block (document st) (document st').
Proof.
  intros Hinv. unfold decorate_picture. unfold bind at 1, get_document at 1.
  destruct (querySelector (document st) block (Sel (STag "picture")))
    as [picture|] eqn:Hq.
  2:{ exists st. split; [reflexivity|]. split; [exact Hinv|].
      split; [reflexivity | apply same_outside_refl]. }
  apply querySelector_key in Hq as (k & Hk & <- & Hb & Hm).
  pose proof Hinv as (Hu & Hbd & _).
  destruct (closest_div _ block k Hu Hbd Hk Hb)
    as (pc & -> & Htag & Hpc & kd & Hkd & Ekd & Hid).
  assert (Hanc : In pc (fst k)).
  { destruct Hpc as [->|H]; [|exact H]. cbn [matches matches_simple] in Hm.
    apply String.eqb_eq in Hm. rewrite Hm in Htag. discriminate. }
  assert (Hbelow : below (nid pc) k = true).
  { apply existsb_exists. exists pc. split; [exact Hanc|apply Nat.eqb_refl]. }
  assert (Hnd : nid (snd kd) = nid pc) by congruence.
  assert (Hins : forall k1 k2 : list element * element,
             nid (snd k2) = nid (snd k1) ->
             (forall y, below y k2 = below y k1) ->
             inside block k2 = inside block k1).
  { intros k1 k2 E1 E2. unfold inside. rewrite E1, E2. reflexivity. }
  unfold bind at 1, modify_document at 1.
  set (d1 := update (nid pc) (classList_add "video-image") (document st)).
  assert (Hinv1 : page_inv block n d1)
    by (apply page_inv_update; [apply plain_classList_add | exact Hinv]).
  assert (Hf1 : same_outside block (document st) d1).
  { apply (frame_update block _ _ _ kd Hu (nid_classList_add _) Hkd Hnd Hid). }
  destruct (keys_update_In (nid pc) (classList_add "video-image")
              (document st) k (nid_classList_add _) Hk)
    as (k1 & Hk1 & Hn1 & Hb1).
  destruct (keys_update_In (nid pc) (classList_add "video-image")
              (document st) kd (nid_classList_add _) Hkd)
    as (kd1 & Hkd1 & Hnd1 & Hbd1).
  assert (Hpc1 : In (nid pc) (nids d1)).
  { unfold d1. rewrite unique_ids_update by apply nid_classList_add.
    apply In_nids, (keys_ancestor_In _ _ _ Hk Hanc). }
  assert (Htail : forall st2,
    page_inv block n (document st2) ->
    (exists k2 kd2, In k2 (keys (document st2) [])
                /\ nid (snd k2) = nid (snd k)
                /\ below (nid pc) k2 = true
                /\ below block k2 = true
                /\ In kd2 (keys (document st2) [])
                /\ nid (snd kd2) = nid pc
                /\ inside block kd2 = true) ->
    exists st',
      (doc <- get_document;;
       match subtree doc (nid (snd k)) with
       | Some pictureNode =>
           modify_document
             (fun d => append_child (nid pc) pictureNode
                         (remove_node (nid (snd k)) d))
       | None => ret tt
       end) st2 = Returned tt st'
      /\ page_inv block n (document st')
      /\ next_nid st' = next_nid st2
      /\ same_outside block (document st2) (document st')).
  { intros st2 Hinv2 (k2 & kd2 & Hk2 & Hn2 & Hb2 & Hbb2 & Hkd2 & Hnd2 & Hid2).
    unfold bind, get_document.
    destruct (subtree (document st2) (nid (snd k))) as [T|] eqn:Hs.
    2:{ exists st2. split; [reflexivity|]. split; [exact Hinv2|].
        split; [reflexivity | apply same_outside_refl]. }
    destruct (subtree_is_element _ _ _ Hs) as (ex & csx & ->).
    eexists. split; [reflexivity|]. cbn [document set_document next_nid].
    destruct (inv_move block n (document st2) (nid (snd k)) (nid pc) ex csx
                k2 kd2 Hinv2 Hs Hk2 Hn2 Hb2 Hbb2 Hkd2 Hnd2 Hid2) as [I F].
    split; [exact I|]. split; [reflexivity | exact F]. }
  assert (Hex1 : exists k2 kd2, In k2 (keys d1 [])
                /\ nid (snd k2) = nid (snd k)
                /\ below (nid pc) k2 = true
                /\ below block k2 = true
                /\ In kd2 (keys d1 [])
                /\ nid (snd kd2) = nid pc
                /\ inside block kd2 = true).
  { exists k1, kd1. rewrite !Hb1, (Hins kd kd1 Hnd1 Hbd1).
    repeat (split; [first [assumption | congruence]|]). exact Hid. }
  unfold bind at 1. unfold bind at 1, get_document at 1.
  cbn [document set_document].
  destruct (count_exists d1 (nid pc) Hpc1) as (c & ->).
  assert (Hplain : forall st2 : state,
    document st2 = d1 -> next_nid st2 = next_nid st ->
    exists st',
      (doc <- get_document;;
       match subtree doc (nid (snd k)) with
       | Some pictureNode =>
           modify_document
             (fun d => append_child (nid pc) pictureNode
                         (remove_node (nid (snd k)) d))
       | None => ret tt
       end) st2 = Returned tt st'
      /\ page_inv block n (document st')
      /\ next_nid st' = next_nid st
      /\ same_outside block (document st) (document st')).
  { intros st2 Hd2 Hn2.
    destruct (Htail st2) as (st' & R & I & N & F).
    - rewrite Hd2. exact Hinv1.
    - rewrite Hd2. exact Hex1.
    - exists st'. split; [exact R|]. split; [exact I|].
      split; [congruence|]. rewrite Hd2 in F.
      eapply same_outside_trans; eassumption. }
  destruct c as [|[|c]].
  - unfold ret at 1. apply Hplain; reflexivity.
  - unfold modify_document at 1. cbn [document set_document].
    set (d2 := update (nid pc) (classList_add "single-video") d1).
    destruct Hex1 as (k1' & kd1' & A1 & A2 & A3 & A4 & A5 & A6 & A7).
    pose proof Hinv1 as (Hu1 & _ & _).
    destruct (keys_update_In (nid pc) (classList_add "single-video")
                d1 k1' (nid_classList_add _) A1) as (k2 & Hk2 & Hn2 & Hb2).
    destruct (keys_update_In (nid pc) (classList_add "single-video")
                d1 kd1' (nid_classList_add _) A5) as (kd2 & Hkd2 & Hnd2 & Hbd2).
    destruct (Htail (set_document d2 st)) as (st' & R & I & N & F).
    + cbn [document set_document].
      apply page_inv_update; [apply plain_classList_add | exact Hinv1].
    + cbn [document set_document]. exists k2, kd2.
      rewrite !Hb2, (Hins kd1' kd2 Hnd2 Hbd2).
      repeat (split; [first [assumption | congruence]|]). exact A7.
    + exists st'. split; [exact R|]. split; [exact I|].
      split; [exact N|]. cbn [document set_document] in F.
      eapply same_outside_trans; [exact Hf1|].
      eapply same_outside_trans; [|exact F].
      apply (frame_update block _ _ _ kd1' Hu1 (nid_classList_add _) A5 A6 A7).
  - unfold ret at 1. apply Hplain; reflexivity.
Qed.

(** ** The link step *)

Lemma buildVideoModal_built href videoType st :
  buildVideoModal href videoType st
  = Returned (built_modal (next_nid st) href videoType)
      (with_page (document st) (built_size videoType + next_nid st) st).
Proof.
  unfold built_modal, built_size.
  destruct (strict_eq_str videoType "youtube") eqn:E.
  - destruct videoType as [| |s]; try discriminate. cbn in E.
    apply String.eqb_eq in E. subst s.
    rewrite buildVideoModal_youtube. reflexivity.
  - rewrite buildVideoModal_direct by exact E. reflexivity.
Qed.

Lemma querySelector_built_close_youtube n v :
  querySelector (youtube_modal n v) n
    (Sel (STagClass "button" "video-modal-close"))
  = Some {| nid := 4 + n; tag := "button"; classes := ["video-modal-close"];
            attrs := [("aria-label", "close")]; paused := true;
            currentTime := 0%Z; listeners := [] |}.
Proof.
  assert (Hne : forall k, Nat.eqb (S k + n) n = false)
    by (intros k; apply Nat.eqb_neq; lia).
  unfold querySelector, youtube_modal, is_descendant_of.
  cbn [walk List.map List.concat List.app List.filter fst snd existsb matches
       matches_simple orb andb nid tag classes has_class String.eqb Ascii.eqb
       Bool.eqb];
    rewrite ?Nat.eqb_refl, ?Hne;
    cbn [List.filter orb andb first fmap option_fmap option_map fst snd].
  reflexivity.
Qed.

Lemma built_modal_root n href videoType :
  exists root cs, built_modal n href videoType = El root cs /\ nid root = n.
Proof.
  unfold built_modal. destruct (strict_eq_str videoType "youtube");
    eexists; eexists; split; reflexivity.
Qed.

Lemma querySelector_built_close_any n href videoType :
  querySelector (built_modal n href videoType) n
    (Sel (STagClass "button" "video-modal-close"))
  = Some {| nid := 4 + n; tag := "button"; classes := ["video-modal-close"];
            attrs := [("aria-label", "close")]; paused := true;
            currentTime := 0%Z; listeners := [] |}.
Proof.
  unfold built_modal. destruct (strict_eq_str videoType "youtube").
  - apply querySelector_built_close_youtube.
  - apply querySelector_built_close.
Qed.

(** What the link step does with a link that is not external. *)
Lemma decorate_link_modal {B : Browser} st block link parent :
  querySelector (document st) block (Desc (SClass "video-image") (STag "a"))
  = Some link ->
  parentElement (document st) (nid link) = Some parent ->
  strict_eq_str (getVideoType (href link)) "external" = false ->
  decorate_link block st
  = Returned tt
      (with_page (linked_document block link parent st)
         (built_size (getVideoType (href link)) + (2 + next_nid st)) st).
Proof.
  intros Hq Hp Hext.
  unfold decorate_link, bind at 1, get_document at 1. rewrite Hq. cbv zeta.
  unfold linked_document. cbv zeta.
  set (vt := getVideoType (href link)) in *.
  set (n := next_nid st).
  unfold decorate_link_as, decorateVideoLink. rewrite Hext.
  cbn [negb].
  unfold bind at 1. unfold bind at 1. unfold bind at 1.
  unfold createTag at 1, bind at 1, fresh at 1, ret at 1.
  unfold bind at 1, get_document at 1. cbn [document]. rewrite Hp.
  unfold bind, modify_document, set_document, fresh, ret.
  cbn [document next_nid window_YT window_onYouTubePlayerAPIReady player trace
       nid fold_left fst snd].
  rewrite buildVideoModal_built.
  cbn [document next_nid window_YT window_onYouTubePlayerAPIReady player trace
       with_page].
  change (S (S (next_nid st))) with (2 + n).
  destruct (built_modal_root (2 + n) (href link) vt) as (root & cs & Hr & Hn).
  rewrite Hr, Hn, <- Hr. rewrite querySelector_built_close_any.
  unfold with_page.
  cbn [document next_nid window_YT window_onYouTubePlayerAPIReady player trace
       nid].
  reflexivity.
Qed.

(** On a page of distinct elements the link step returns. *)
Lemma decorate_link_returns {B : Browser} st block :
  unique_ids (document st) ->
  exists st', decorate_link block st = Returned tt st'.
Proof.
  intros Hu.
  destruct (querySelector (document st) block
              (Desc (SClass "video-image") (STag "a"))) as [link|] eqn:Hq.
  2:{ unfold decorate_link, bind, get_document. rewrite Hq. eexists.
      reflexivity. }
  destruct (strict_eq_str (getVideoType (href link)) "external") eqn:Hext.
  - unfold decorate_link, bind at 1, get_document at 1. rewrite Hq. cbv zeta.
    unfold decorate_link_as, decorateVideoLink. rewrite Hext. cbn [negb].
    eexists. reflexivity.
  - destruct (querySelector_key _ _ _ _ Hq) as (k & Hk & Es & Hb & _).
    assert (Hp : exists parent,
               parentElement (document st) (nid link) = Some parent).
    { rewrite parentElement_keys, <- Es, (key_unique _ k Hu Hk).
      cbn [mbind option_bind]. unfold below in Hb.
      destruct (fst k) as [|a l]; [discriminate|]. eexists. reflexivity. }
    destruct Hp as (parent & Hp).
    rewrite (decorate_link_modal st block link parent Hq Hp Hext).
    eexists. reflexivity.
Qed.

Lemma decorate_alignment_returns st block :
  exists st', decorate_alignment block st = Returned tt st'.
Proof.
  unfold decorate_alignment, bind, get_document.
  destruct (querySelector _ _ _) as [t|]; [|eexists; reflexivity].
  destruct (previousElementSibling _ _); eexists; reflexivity.
Qed.

Lemma allocated_exists d : exists n, allocated n d.
Proof.
  exists (S (list_max (nids d))). intros e He.
  assert (H := proj1 (List.list_max_le (nids d) (list_max (nids d)))
                 (Nat.le_refl _)).
  rewrite List.Forall_forall in H. specialize (H (nid e) (In_nids _ _ He)).
  lia.
Qed.

(** X12. [decorate] returns on every page of distinct elements whose block
    is a [div] with an element child: none of its property reads and calls
    meets [null]. *)
Theorem decorate_returns {B : Browser} st block row :
  unique_ids (document st) ->
  block_is_div block (document st) ->
  (subtree (document st) block
     ≫= (fun b => first (List.filter is_element (children_of b)))) = Some row ->
  exists st', decorate block st = Returned tt st'.
Proof.
  intros Hu Hb Hrow. unfold decorate.
  destruct (allocated_exists (document st)) as (n & Hal).
  destruct (decorate_columns_inv st block n row (conj Hu (conj Hb Hal)) Hrow)
    as (st1 & H1 & Hinv1 & _).
  destruct (decorate_text_inv st1 block n Hinv1) as (st2 & H2 & Hinv2 & _).
  destruct (decorate_picture_inv st2 block n Hinv2) as (st3 & H3 & Hinv3 & _).
  destruct (decorate_link_returns st3 block (proj1 Hinv3)) as (st4 & H4).
  destruct (decorate_alignment_returns st4 block) as (st5 & H5).
  exists st5.
  rewrite (bind_returned _ _ _ _ _ H1), (bind_returned _ _ _ _ _ H2),
    (bind_returned _ _ _ _ _ H3), (bind_returned _ _ _ _ _ H4).
  exact H5.
Qed.

Lemma block_is_div_check block doc :
  forallb (fun e => negb (Nat.eqb (nid e) block) || String.eqb (tag e) "div")
    (elements doc) = true ->
  block_is_div block doc.
Proof.
  intros H e He Hn. rewrite forallb_forall in H. specialize (H e He).
  rewrite Hn, Nat.eqb_refl in H. apply String.eqb_eq, H.
Qed.

Lemma decorate_returns_witness :
  exists st',
    decorate (B := serialised_links) 5 (teaser_state false yt_href)
    = Returned tt st'.
Proof.
  refine (decorate_returns (B := serialised_links)
            (teaser_state false yt_href) 5
            (El (sample_el 6 "div" [] [])
               (children_of
                  (El (sample_el 6 "div" [] [])
                     [ El (sample_el 7 "div" [] [])
                         [ El (sample_el 8 "p" [] [])
                             [ El (sample_el 9 "picture" [] [])
                                 [ El (sample_el 10 "img" []
                                         [("src", "/poster.jpg")]) [] ] ];
                           El (sample_el 11 "p" [] [])
                             [ El (sample_el 12 "a" [] [("href", yt_href)])
                                 [Text yt_href] ] ] ]))) _ _ _).
  - apply unique_ids_check. vm_compute. reflexivity.
  - apply block_is_div_check. vm_compute. reflexivity.
  - vm_compute. reflexivity.
Defined.

(** ** Keys under the operations *)

Lemma first_filter_app {A} (P : A -> bool) l1 l2 :
  (forall a, In a l1 -> P a = false) ->
  first (List.filter P (l1 ++ l2)) = first (List.filter P l2).
Proof.
  intros H. rewrite List.filter_app, (filter_none P l1 H). reflexivity.
Qed.

Lemma keys_append_child_cases x ex csx d new k :
  located x ex csx d -> In k (keys (append_child x new d) []) ->
  In k (keys d []) \/ exists anc, In k (keys new (ex :: anc)).
Proof.
  intros Hl Hk.
  destruct (located_keys _ _ _ _ Hl [])
    as (pre & post & local & _ & Hkeys & _ & _ & Happ & _).
  cbv zeta in *. rewrite Happ in Hk. rewrite Hkeys.
  apply in_app_or in Hk as [Hk|Hk]; [left; apply in_or_app; left; exact Hk|].
  apply in_app_or in Hk as [Hk|Hk].
  { left. apply in_or_app. right. apply in_or_app. left. exact Hk. }
  apply in_app_or in Hk as [Hk|Hk]; [right; eauto|].
  left. apply in_or_app. right. apply in_or_app. right. exact Hk.
Qed.

Lemma key_survives_append x ex csx d new k :
  located x ex csx d -> In k (keys d []) ->
  In k (keys (append_child x new d) []).
Proof.
  intros Hl Hk.
  destruct (located_keys _ _ _ _ Hl [])
    as (pre & post & local & _ & Hkeys & _ & _ & Happ & _).
  cbv zeta in *. rewrite Happ. rewrite Hkeys in Hk.
  apply in_app_or in Hk as [Hk|Hk]; [apply in_or_app; left; exact Hk|].
  apply in_or_app. right.
  apply in_app_or in Hk as [Hk|Hk]; apply in_or_app; [left; exact Hk|].
  right. apply in_or_app. right. exact Hk.
Qed.

Lemma appended_key x ex csx d e :
  located x ex csx d ->
  exists anc, In (ex :: anc, e) (keys (append_child x (El e []) d) [])
              /\ In (anc, ex) (keys d []).
Proof.
  intros Hl.
  destruct (located_keys _ _ _ _ Hl [])
    as (pre & post & local & _ & Hkeys & _ & _ & Happ & _).
  cbv zeta in *. exists (local ++ []). split.
  - rewrite Happ. apply in_or_app. right. apply in_or_app. right.
    apply in_or_app. left. left. reflexivity.
  - rewrite Hkeys, keys_El. apply in_or_app. right. left. reflexivity.
Qed.

Lemma keys_remove_node_incl x ex csx d k :
  located x ex csx d -> is_node x d = false ->
  In k (keys (remove_node x d) []) -> In k (keys d []).
Proof.
  intros Hl Hnr Hk.
  destruct (located_keys _ _ _ _ Hl [])
    as (pre & post & local & _ & Hkeys & _ & _ & _ & _ & Hrem & _).
  cbv zeta in *. rewrite (Hrem Hnr) in Hk. rewrite Hkeys.
  apply in_app_or in Hk as [Hk|Hk]; apply in_or_app; [left; exact Hk|].
  right. apply in_or_app. right. exact Hk.
Qed.

Lemma key_survives_remove x ex csx d k :
  located x ex csx d -> is_node x d = false ->
  In k (keys d []) -> nid (snd k) <> x -> below x k = false ->
  In k (keys (remove_node x d) []).
Proof.
  intros Hl Hnr Hk Hn Hb.
  destruct (located_keys _ _ _ _ Hl [])
    as (pre & post & local & Hx & Hkeys & _ & _ & _ & _ & Hrem & _).
  cbv zeta in *. rewrite (Hrem Hnr). rewrite Hkeys in Hk.
  apply in_app_or in Hk as [Hk|Hk]; [apply in_or_app; left; exact Hk|].
  apply in_app_or in Hk as [Hk|Hk]; [|apply in_or_app; right; exact Hk].
  exfalso. rewrite keys_El in Hk. destruct Hk as [<-|Hk].
  - apply Hn. exact Hx.
  - apply In_concat_map in Hk as (c & _ & Hk). apply below_inside in Hk.
    rewrite Hx, Hb in Hk. discriminate.
Qed.

Lemma keys_set_children_cases x ex csx d new k :
  located x ex csx d -> In k (keys (set_children x new d) []) ->
  In k (keys d [])
  \/ exists anc,
       In k (List.concat (List.map (fun c => keys c (ex :: anc)) new)).
Proof.
  intros Hl Hk.
  destruct (located_keys _ _ _ _ Hl [])
    as (pre & post & local & _ & Hkeys & _ & _ & _ & Hset & _).
  cbv zeta in *. rewrite Hset in Hk. rewrite Hkeys, keys_El.
  apply in_app_or in Hk as [Hk|Hk]; [left; apply in_or_app; left; exact Hk|].
  destruct Hk as [<-|Hk].
  { left. apply in_or_app. right. left. reflexivity. }
  apply in_app_or in Hk as [Hk|Hk]; [right; eauto|].
  left. apply in_or_app. right. right. apply in_or_app. right. exact Hk.
Qed.

Lemma key_survives_set_children x ex csx d new k :
  located x ex csx d -> In k (keys d []) -> below x k = false ->
  In k (keys (set_children x new d) []).
Proof.
  intros Hl Hk Hb.
  destruct (located_keys _ _ _ _ Hl [])
    as (pre & post & local & Hx & Hkeys & _ & _ & _ & Hset & _).
  cbv zeta in *. rewrite Hset. rewrite Hkeys, keys_El in Hk.
  apply in_app_or in Hk as [Hk|Hk]; [apply in_or_app; left; exact Hk|].
  apply in_or_app. right. destruct Hk as [<-|Hk]; [left; reflexivity|].
  right. apply in_app_or in Hk as [Hk|Hk]; [|apply in_or_app; right; exact Hk].
  exfalso. apply In_concat_map in Hk as (c & _ & Hk).
  apply below_inside in Hk. rewrite Hx, Hb in Hk. discriminate.
Qed.

(** ** Distinct elements under the operations *)

Lemma unique_append_fresh x ex csx d new :
  unique_ids d -> located x ex csx d ->
  List.NoDup (nids new) -> (forall a, In a (nids new) -> ~ In a (nids d)) ->
  unique_ids (append_child x new d).
Proof.
  intros Hu Hl Hnew Hfresh.
  destruct (located_nids _ _ _ _ Hl) as (A & B & Hn & _ & Happ & _).
  unfold unique_ids in *. rewrite Happ.
  assert (E : nids d = (A ++ x :: List.concat (List.map nids csx)) ++ B)
    by (rewrite Hn, <- app_assoc; reflexivity).
  apply NoDup_insert; [rewrite <- E; exact Hu | exact Hnew |].
  intros a Ha. rewrite <- E. apply Hfresh, Ha.
Qed.

Lemma unique_remove x ex csx d :
  unique_ids d -> located x ex csx d -> is_node x d = false ->
  unique_ids (remove_node x d).
Proof.
  intros Hu Hl Hnr.
  destruct (located_nids _ _ _ _ Hl) as (A & B & Hn & _ & _ & Hrem).
  unfold unique_ids in *. rewrite (Hrem Hnr). rewrite Hn in Hu.
  apply NoDup_middle in Hu. apply Hu.
Qed.

Lemma unique_set_children_fresh x ex csx d new :
  unique_ids d -> located x ex csx d ->
  List.NoDup (List.concat (List.map nids new)) ->
  (forall a, In a (List.concat (List.map nids new)) -> ~ In a (nids d)) ->
  unique_ids (set_children x new d).
Proof.
  intros Hu Hl Hnew Hfresh.
  destruct (located_nids _ _ _ _ Hl) as (A & B & Hn & Hset & _).
  unfold unique_ids in *. rewrite Hset.
  assert (Hx : In x (nids d)).
  { rewrite Hn. apply in_or_app. right. left. reflexivity. }
  rewrite Hn in Hu. apply NoDup_middle in Hu as (H12 & HM & Hd).
  apply NoDup_insert; [exact H12| |].
  - apply List.NoDup_cons_iff. split; [|exact Hnew].
    intros Hin. exact (Hfresh x Hin Hx).
  - intros a [<-|Ha]; [apply Hd; left; reflexivity|].
    intros Hin. apply (Hfresh a Ha). rewrite Hn.
    apply in_app_or in Hin as [Hin|Hin]; apply in_or_app; [left; exact Hin|].
    right. apply in_or_app. right. exact Hin.
Qed.

Lemma allocated_keys m d :
  allocated m d <-> forall k, In k (keys d []) -> nid (snd k) < m.
Proof.
  unfold allocated. split.
  - intros H k Hk. apply H, (keys_inside _ _ _ Hk).
  - intros H e He. rewrite <- (keys_elements d []) in He.
    apply in_map_iff in He as (k & <- & Hk). apply H, Hk.
Qed.

Lemma keys_ancestors_allocated m d k a :
  allocated m d -> In k (keys d []) -> In a (fst k) -> nid a < m.
Proof.
  intros Hal Hk Ha. apply Hal, (keys_ancestor_In _ _ _ Hk Ha).
Qed.

Lemma below_fresh m d k x :
  allocated m d -> In k (keys d []) -> m <= x -> below x k = false.
Proof.
  intros Hal Hk Hx. apply existsb_none. intros a Ha.
  apply Nat.eqb_neq. pose proof (keys_ancestors_allocated _ _ _ _ Hal Hk Ha).
  lia.
Qed.

(** ** The play button in place of the link *)




Lemma selects_class_false x c k :
  has_class c (snd k) = false -> selects x (Sel (SClass c)) k = false.
Proof.
  intros H. unfold selects. cbn [matches matches_simple]. rewrite H.
  apply andb_false_r.
Qed.

(** The page once the play button has taken the place of the link: its
    elements are those of the page before, but for the link, and the button
    with its label, all in the block. *)
Lemma button_for_link_page doc n block link parent k :
  unique_ids doc -> allocated n doc ->
  In k (keys doc []) -> snd k = link -> below block k = true ->
  first (fst k) = Some parent ->
  let d := button_for_link n link parent doc in
  unique_ids d /\ allocated (2 + n) d
  /\ (exists kb, In kb (keys doc []) /\ In kb (keys d [])
                 /\ nid (snd kb) = block)
  /\ (forall k', In k' (keys d []) ->
                 In k' (keys doc []) \/ snd k' = play_button n
                 \/ snd k' = new_element (1 + n) "span")
  /\ (exists anc, In (anc, play_button n) (keys d [])
                  /\ below block (anc, play_button n) = true)
  /\ same_outside block doc d
  /\ In (fst k, play_button n) (keys d [])
  /\ In (play_button n :: fst k, new_element (1 + n) "span") (keys d []).
Proof.
  intros Hu Hal Hk Hlink Hbelow Hparent. cbv zeta. unfold button_for_link.
  set (btn := play_button n).
  set (d_a := append_child (nid parent) (El btn []) doc).
  set (d_b := remove_node (nid link) d_a).
  set (span := new_element (1 + n) "span").
  (* the parent *)
  assert (Hpar : In parent (fst k)).
  { destruct (fst k) as [|p l]; [discriminate|]. injection Hparent as ->.
    left. reflexivity. }
  assert (Hpel : In parent (elements doc))
    by (eapply keys_ancestor_In; eauto).
  destruct (located_exists doc (nid parent) Hu (In_nids _ _ Hpel))
    as (ep & csp & Hlp).
  (* the page with the button *)
  assert (Hua : unique_ids d_a).
  { apply (unique_append_fresh _ _ _ _ _ Hu Hlp).
    - repeat constructor. intros [].
    - intros a [<-|[]] Hin. unfold nids in Hin.
      apply in_map_iff in Hin as (e & En & He). specialize (Hal e He).
      cbn in En. lia. }
  assert (Hala : allocated (1 + n) d_a).
  { apply allocated_keys. intros k' Hk'.
    apply (keys_append_child_cases _ _ _ _ _ _ Hlp) in Hk' as [Hk'|(anc & Hk')].
    - apply allocated_keys with (k := k') in Hal; [lia|exact Hk'].
    - destruct Hk' as [<-|[]]. cbn. lia. }
  assert (Hka : In k (keys d_a []))
    by (apply (key_survives_append _ _ _ _ _ _ Hlp), Hk).
  assert (HQa : forall k', In k' (keys d_a []) ->
                           In k' (keys doc []) \/ snd k' = btn).
  { intros k' Hk'.
    apply (keys_append_child_cases _ _ _ _ _ _ Hlp) in Hk' as [Hk'|(anc & Hk')].
    - left. exact Hk'.
    - destruct Hk' as [<-|[]]. right. reflexivity. }
  (* the link is taken out *)
  assert (Hlin : In link (elements doc))
    by (rewrite <- Hlink; apply (keys_inside _ _ _ Hk)).
  destruct (located_exists d_a (nid link) Hua) as (el & csl & Hll).
  { rewrite <- Hlink. apply key_In_nids, Hka. }
  destruct (located_key _ _ _ _ Hll) as (al & Hkl & Hnl & Hrootl).
  assert (Ekl : (al, el) = k).
  { apply (keys_same_nid d_a); auto. cbn [snd]. congruence. }
  assert (Hnr : is_node (nid link) d_a = false).
  { destruct (is_node (nid link) d_a) eqn:E; [|reflexivity].
    rewrite (Hrootl eq_refl) in Ekl. subst k. discriminate. }
  assert (Hub : unique_ids d_b) by (apply (unique_remove _ _ _ _ Hua Hll Hnr)).
  assert (Hsubb : forall k', In k' (keys d_b []) -> In k' (keys d_a []))
    by (intros k'; apply (keys_remove_node_incl _ _ _ _ _ Hll Hnr)).
  assert (Halb : allocated (1 + n) d_b).
  { apply allocated_keys. intros k' Hk'.
    apply allocated_keys with (k := k') in Hala; [exact Hala|].
    apply Hsubb, Hk'. }
  (* the block stays *)
  pose proof Hbelow as Hb'. apply existsb_exists in Hb' as (a & Ha & Ea).
  apply Nat.eqb_eq in Ea.
  assert (Hael : In a (elements doc)) by (eapply keys_ancestor_In; eauto).
  rewrite <- (keys_elements doc []) in Hael.
  apply in_map_iff in Hael as (kb & Ekb & Hkb).
  assert (Hown : forall b, In b (fst k) -> nid b <> nid link).
  { intros b Hb Eb.
    assert (In b []) as [].
    apply (key_not_own_ancestor doc [] k b Hu Hk Hb). congruence. }
  assert (Hkba : In kb (keys d_a []))
    by (apply (key_survives_append _ _ _ _ _ _ Hlp), Hkb).
  assert (Hkbb : In kb (keys d_b [])).
  { apply (key_survives_remove _ _ _ _ _ Hll Hnr Hkba).
    - rewrite Ekb. apply Hown, Ha.
    - assert (Hb : below (nid (snd kb)) k = true).
      { apply existsb_exists. exists a. split; [exact Ha|].
        rewrite Ekb. apply Nat.eqb_refl. }
      destruct (not_below_found d_a kb k Hua Hkba Hka Hb) as [B _].
      rewrite Hlink in B. exact B. }
  (* the button stays *)
  destruct (appended_key _ _ _ _ btn Hlp) as (anc & Hkbtn & Hkp).
  fold d_a in Hkbtn.
  assert (Hnep : nid ep = nid parent).
  { destruct (located_key _ _ _ _ Hlp) as (? & _ & E & _). exact E. }
  assert (Hkbtnb : In (ep :: anc, btn) (keys d_b [])).
  { apply (key_survives_remove _ _ _ _ _ Hll Hnr Hkbtn).
    - cbn. specialize (Hal link Hlin). lia.
    - apply existsb_none. intros b Hb. apply Nat.eqb_neq. intros Eb.
      destruct Hb as [<-|Hb].
      + apply (Hown parent Hpar). congruence.
      + apply (Hown b); [|exact Eb].
        eapply (ancestors_nested doc [] (anc, ep) k parent); eauto;
          intros ? []. }
  destruct (located_exists d_b n Hub) as (eb & csb & Hln).
  { apply (key_In_nids d_b (ep :: anc, btn)), Hkbtnb. }
  (* the parent of the button is the parent of the link *)
  assert (Hfk : fst k = ep :: anc).
  { destruct (fst k) as [|p rest] eqn:Efk; [discriminate|].
    injection Hparent as ->.
    assert (Hkpar : In (rest, parent) (keys doc [])).
    { apply (keys_ancestor_chain doc [] k [] parent rest Hk Efk). cbn. lia. }
    assert (E : (anc, ep) = (rest, parent))
      by (apply (keys_same_nid doc); auto).
    injection E as -> ->. reflexivity. }
  assert (Hbbtn : below block (ep :: anc, btn) = true).
  { unfold below in *. cbn [fst]. rewrite <- Hfk. exact Hbelow. }
  assert (Hipar : inside block (anc, ep) = true).
  { unfold inside, below in *. rewrite Hfk in Hbelow.
    cbn [fst snd existsb] in *. rewrite orb_comm. exact Hbelow. }
  (* the label *)
  (* the button and its label in the page *)
  assert (Hnew : In (ep :: anc, btn)
                   (keys (set_children n [El span [Text "Play"]] d_b) [])
                 /\ In (btn :: ep :: anc, span)
                      (keys (set_children n [El span [Text "Play"]] d_b) [])).
  { destruct (located_keys _ _ _ _ Hln [])
      as (pre & post & local & Hnx & Hkeys & _ & _ & _ & Hset & _).
    cbv zeta in *. rewrite app_nil_r in *.
    assert (E : (local, eb) = (ep :: anc, btn)).
    { apply (keys_same_nid d_b); [exact Hub| |exact Hkbtnb|exact Hnx].
      rewrite Hkeys, keys_El. apply in_or_app. right. left. reflexivity. }
    injection E as -> ->. rewrite Hset.
    split; apply in_or_app; right; [left; reflexivity|].
    right. apply in_or_app. left. cbn. left. reflexivity. }
  split; [|split; [|split; [|split; [|split; [|split]]]]].
  - apply (unique_set_children_fresh _ _ _ _ _ Hub Hln).
    + cbn. repeat constructor. intros [].
    + intros b Hb Hin. cbn in Hb. destruct Hb as [<-|[]].
      unfold nids in Hin. apply in_map_iff in Hin as (e & En & He).
      specialize (Halb e He). lia.
  - apply allocated_keys. intros k' Hk'.
    apply (keys_set_children_cases _ _ _ _ _ _ Hln) in Hk' as [Hk'|(anc' & Hk')].
    + apply allocated_keys with (k := k') in Halb; [lia|exact Hk'].
    + cbn in Hk'. destruct Hk' as [<-|[]]. cbn. lia.
  - exists kb. split; [exact Hkb|]. split; [|congruence].
    apply (key_survives_set_children _ _ _ _ _ _ Hln Hkbb).
    apply (below_fresh n doc kb n Hal Hkb). lia.
  - intros k' Hk'.
    apply (keys_set_children_cases _ _ _ _ _ _ Hln) in Hk' as [Hk'|(anc' & Hk')].
    + destruct (HQa k' (Hsubb k' Hk')) as [H|H]; auto.
    + cbn in Hk'. destruct Hk' as [<-|[]]. right. right. reflexivity.
  - exists (ep :: anc). split; [|exact Hbbtn].
    apply (key_survives_set_children _ _ _ _ _ _ Hln Hkbtnb).
    apply existsb_none. intros b Hb. apply Nat.eqb_neq.
    destruct Hb as [<-|Hb].
    + specialize (Hal parent Hpel). lia.
    + pose proof (keys_ancestors_allocated _ _ _ _ Hal Hkp Hb). lia.
  - apply (same_outside_trans _ _ d_a).
    { apply (frame_append_child block _ _ _ (anc, ep) Hu Hkp Hnep Hipar). }
    apply (same_outside_trans _ _ d_b).
    { apply (frame_remove_node block _ _ k Hua Hka); [|exact Hbelow].
      rewrite Hlink. reflexivity. }
    apply (frame_set_children block _ _ _ (ep :: anc, btn) Hub Hkbtnb).
    + reflexivity.
    + unfold inside. rewrite Hbbtn. reflexivity.
  - rewrite Hfk. exact Hnew.
Qed.

Lemma button_for_link_inv doc n block link parent k :
  unique_ids doc -> allocated n doc ->
  In k (keys doc []) -> snd k = link -> below block k = true ->
  first (fst k) = Some parent ->
  (forall k', In k' (keys doc []) ->
              selects block selectors_videoModal k' = false) ->
  let d := button_for_link n link parent doc in
  unique_ids d /\ allocated (2 + n) d /\ In block (nids d)
  /\ (forall k', In k' (keys d []) ->
                 selects block selectors_videoModal k' = false)
  /\ (exists anc, In (anc, play_button n) (keys d [])).
Proof.
  intros Hu Hal Hk Hlink Hbelow Hparent HQ.
  destruct (button_for_link_page doc n block link parent k
              Hu Hal Hk Hlink Hbelow Hparent)
    as (H1 & H2 & (kb & _ & Hkb & En) & H4 & (anc & H5 & _) & _ & _).
  cbv zeta in *. split; [exact H1|]. split; [exact H2|].
  split; [rewrite <- En; apply key_In_nids, Hkb|]. split; [|eauto].
  intros k' Hk'. destruct (H4 k' Hk') as [H|[H|H]].
  - apply HQ, H.
  - apply selects_class_false. rewrite H. reflexivity.
  - apply selects_class_false. rewrite H. reflexivity.
Qed.

(** ** The modal the link step appends *)

Lemma selects_content_youtube m v block anc :
  let M := update (4 + m) (addEventListener "click" (ToggleVideoOverlay block))
             (youtube_modal m v) in
  exists root kids pk,
    M = El root kids
    /\ nid root = m /\ classes root = ["video-modal"]
    /\ nids M = List.seq m 6
    /\ List.filter (selects m selectors_videoContent) (keys M anc) = [pk]
    /\ nid (snd pk) = 5 + m
    /\ is_youtube (snd pk) = true
    /\ getAttribute "data-videoId" (snd pk) = VString (to_string v)
    /\ exists kc, In kc (keys M anc) /\ nid (snd kc) = 4 + m
                  /\ listeners (snd kc) = [("click", ToggleVideoOverlay block)]
                  /\ tag (snd kc) = "button".
Proof.
  assert (Hne : forall k, Nat.eqb (S k + m) m = false)
    by (intros k; apply Nat.eqb_neq; lia).
  assert (Hne' : forall k, Nat.eqb m (S k + m) = false)
    by (intros k; apply Nat.eqb_neq; lia).
  assert (Hpl : forall a b, Nat.eqb (S a + m) (S b + m) = Nat.eqb a b).
  { intros a b. destruct (Nat.eqb_spec a b) as [->|E].
    - apply Nat.eqb_refl.
    - apply Nat.eqb_neq. lia. }
  cbv zeta. unfold youtube_modal. cbv zeta.
  cbn [update List.map]. unfold upd. cbn [nid].
  rewrite ?Hne', ?Hpl. cbn [Nat.eqb].
  eexists. eexists. eexists.
  split; [reflexivity|]. split; [reflexivity|]. split; [reflexivity|].
  split; [reflexivity|].
  unfold keys, selects, selectors_videoContent.
  cbn [walk List.map List.concat app fst snd List.filter existsb matches
       matches_simple has_class classes nid addEventListener String.eqb
       Ascii.eqb Bool.eqb orb andb].
  rewrite ?andb_false_r, ?Nat.eqb_refl, ?Hne. cbn [orb andb List.filter].
  split; [reflexivity|]. cbn [snd nid].
  do 3 (split; [reflexivity|]).
  eexists. split; [do 4 right; left; reflexivity|]. repeat split.
Qed.

Lemma selects_content_direct m href block anc :
  let M := update (4 + m) (addEventListener "click" (ToggleVideoOverlay block))
             (direct_file_modal m href) in
  exists root kids pk vk,
    M = El root kids
    /\ nid root = m /\ classes root = ["video-modal"]
    /\ nids M = List.seq m 8
    /\ List.filter (selects m selectors_videoContent) (keys M anc) = [pk]
    /\ nid (snd pk) = 5 + m
    /\ is_youtube (snd pk) = false
    /\ List.filter (selects m video_sel) (keys M anc) = [vk]
    /\ nid (snd vk) = 6 + m
    /\ paused (snd vk) = true
    /\ currentTime (snd vk) = 0%Z
    /\ exists kc, In kc (keys M anc) /\ nid (snd kc) = 4 + m
                  /\ listeners (snd kc) = [("click", ToggleVideoOverlay block)]
                  /\ tag (snd kc) = "button".
Proof.
  assert (Hne : forall k, Nat.eqb (S k + m) m = false)
    by (intros k; apply Nat.eqb_neq; lia).
  assert (Hne' : forall k, Nat.eqb m (S k + m) = false)
    by (intros k; apply Nat.eqb_neq; lia).
  assert (Hpl : forall a b, Nat.eqb (S a + m) (S b + m) = Nat.eqb a b).
  { intros a b. destruct (Nat.eqb_spec a b) as [->|E].
    - apply Nat.eqb_refl.
    - apply Nat.eqb_neq. lia. }
  cbv zeta. unfold direct_file_modal. cbv zeta.
  cbn [update List.map]. unfold upd. cbn [nid].
  rewrite ?Hne', ?Hpl. cbn [Nat.eqb].
  eexists. eexists. eexists. eexists.
  split; [reflexivity|]. split; [reflexivity|]. split; [reflexivity|].
  split; [reflexivity|].
  unfold keys, selects, selectors_videoContent, video_sel.
  cbn [walk List.map List.concat app fst snd List.filter existsb matches
       matches_simple has_class classes tag nid addEventListener String.eqb
       Ascii.eqb Bool.eqb orb andb].
  rewrite ?andb_false_r, ?Nat.eqb_refl, ?Hne. cbn [orb andb List.filter].
  split; [reflexivity|]. cbn [snd nid].
  do 6 (split; [reflexivity|]).
  eexists. split; [do 4 right; left; reflexivity|]. repeat split.
Qed.

Lemma built_modal_facts m href vt block anc :
  let M := update (4 + m) (addEventListener "click" (ToggleVideoOverlay block))
             (built_modal m href vt) in
  exists root kids pk,
    M = El root kids
    /\ nid root = m /\ classes root = ["video-modal"]
    /\ nids M = List.seq m (built_size vt)
    /\ List.filter (selects m selectors_videoContent) (keys M anc) = [pk]
    /\ nid (snd pk) = 5 + m
    /\ is_youtube (snd pk) = strict_eq_str vt "youtube"
    /\ (strict_eq_str vt "youtube" = true ->
        getAttribute "data-videoId" (snd pk)
        = VString (to_string (getYouTubeId href)))
    /\ (strict_eq_str vt "youtube" = false ->
        exists vk,
          List.filter (selects m video_sel) (keys M anc) = [vk]
          /\ nid (snd vk) = 6 + m
          /\ paused (snd vk) = true
          /\ currentTime (snd vk) = 0%Z)
    /\ exists kc, In kc (keys M anc) /\ nid (snd kc) = 4 + m
                  /\ listeners (snd kc) = [("click", ToggleVideoOverlay block)]
                  /\ tag (snd kc) = "button".
Proof.
  cbv zeta. unfold built_modal, built_size.
  destruct (strict_eq_str vt "youtube").
  - destruct (selects_content_youtube m (getYouTubeId href) block anc)
      as (root & kids & pk & H1 & H2 & H3 & H4 & H5 & H6 & H7 & H8 & H9).
    exists root, kids, pk. repeat (split; [assumption|]).
    split; [auto|]. split; [discriminate|exact H9].
  - destruct (selects_content_direct m href block anc)
      as (root & kids & pk & vk & H1 & H2 & H3 & H4 & H5 & H6 & H7 & H8 & H9
          & H10 & H11 & H12).
    exists root, kids, pk. repeat (split; [assumption|]).
    split; [discriminate|]. split; [|exact H12]. intros _. exists vk. auto.
Qed.

Lemma first_filter_single {A} (P : A -> bool) l1 l2 l3 a :
  (forall b, In b l1 -> P b = false) -> List.filter P l2 = [a] ->
  first (List.filter P (l1 ++ l2 ++ l3)) = Some a.
Proof.
  intros H1 H2. rewrite (first_filter_app P l1) by exact H1.
  rewrite List.filter_app, H2. reflexivity.
Qed.

(** Appending the modal to the block brings in the elements of the modal,
    in the block, and nothing else. *)
Lemma modal_appended_page d m block href vt kb :
  unique_ids d -> allocated m d ->
  In kb (keys d []) -> nid (snd kb) = block ->
  let d' := append_child block
              (update (4 + m)
                 (addEventListener "click" (ToggleVideoOverlay block))
                 (built_modal m href vt)) d in
  unique_ids d' /\ allocated (built_size vt + m) d'
  /\ (forall k, In k (keys d []) -> In k (keys d' []))
  /\ same_outside block d d'.
Proof.
  intros Hu Hal Hkb Hnb. cbv zeta.
  set (M := update (4 + m) _ (built_modal m href vt)).
  assert (Hblock : In block (nids d))
    by (rewrite <- Hnb; apply key_In_nids, Hkb).
  destruct (located_exists d block Hu Hblock) as (eb & csb & Hl).
  destruct (built_modal_facts m href vt block [])
    as (root & kids & pk & _ & _ & _ & Hnids & _).
  cbv zeta in Hnids. fold M in Hnids.
  split; [|split; [|split]].
  - apply (unique_append_fresh _ _ _ _ _ Hu Hl).
    + rewrite Hnids. apply List.seq_NoDup.
    + intros a Ha Hin. rewrite Hnids in Ha. apply in_seq in Ha.
      unfold nids in Hin. apply in_map_iff in Hin as (e & En & He).
      specialize (Hal e He). lia.
  - apply allocated_keys. intros k' Hk'.
    apply (keys_append_child_cases _ _ _ _ _ _ Hl) in Hk' as [Hk'|(anc & Hk')].
    + apply allocated_keys with (k := k') in Hal; [lia|exact Hk'].
    + assert (Hin : In (nid (snd k')) (nids M))
        by (apply In_nids, (keys_inside _ _ _ Hk')).
      rewrite Hnids in Hin. apply in_seq in Hin. lia.
  - intros k' Hk'. apply (key_survives_append _ _ _ _ _ _ Hl), Hk'.
  - apply (frame_append_child block _ _ _ kb Hu Hkb Hnb).
    unfold inside. rewrite Hnb, Nat.eqb_refl. apply orb_true_r.
Qed.

(** The modal at the end of the block is the modal of the block. *)
Lemma modal_appended d m block href vt :
  unique_ids d -> allocated m d -> In block (nids d) ->
  (forall k', In k' (keys d []) ->
              selects block selectors_videoModal k' = false) ->
  let d' := append_child block
              (update (4 + m)
                 (addEventListener "click" (ToggleVideoOverlay block))
                 (built_modal m href vt)) d in
  exists modal pane,
    unique_ids d' /\ allocated (built_size vt + m) d'
    /\ found d' block modal pane
    /\ nid modal = m /\ has_class "open" modal = false
    /\ nid pane = 5 + m
    /\ is_youtube pane = strict_eq_str vt "youtube"
    /\ (strict_eq_str vt "youtube" = true ->
        getAttribute "data-videoId" pane
        = VString (to_string (getYouTubeId href)))
    /\ (strict_eq_str vt "youtube" = false ->
        exists video,
          querySelector d' m video_sel = Some video
          /\ nid video = 6 + m
          /\ paused video = true /\ currentTime video = 0%Z)
    /\ (forall k, In k (keys d []) -> In k (keys d' []))
    /\ (exists kc, In kc (keys d' []) /\ nid (snd kc) = 4 + m
                   /\ listeners (snd kc)
                      = [("click", ToggleVideoOverlay block)]
                   /\ tag (snd kc) = "button").
Proof.
  intros Hu Hal Hblock HQ. cbv zeta.
  assert (Hpage : exists kb, In kb (keys d []) /\ nid (snd kb) = block).
  { rewrite (nids_keys d []) in Hblock.
    apply in_map_iff in Hblock as (kb & E & H). eauto. }
  destruct Hpage as (kb & Hkb & Hnb).
  pose proof (modal_appended_page d m block href vt kb Hu Hal Hkb Hnb)
    as Hpage.
  cbv zeta in Hpage.
  set (M := update (4 + m) _ (built_modal m href vt)) in *.
  destruct (located_exists d block Hu Hblock) as (eb & csb & Hl).
  destruct (located_keys _ _ _ _ Hl [])
    as (pre & post & local & Hx & Hkeys & _ & _ & Happ & _).
  cbv zeta in *. specialize (Happ M).
  set (ab := local ++ []) in *.
  destruct (built_modal_facts m href vt block (eb :: ab))
    as (root & kids & pk & HM & Hnr & Hcr & Hnids & Hpane & Hnp & Hyt & Hid
        & Hvid & kc & Hkc & Hnkc & Hlkc & Htkc).
  cbv zeta in *. fold M in HM, Hnids, Hpane, Hvid.
  assert (Hold : forall k', In k' (pre ++ keys (El eb csb) ab) ->
                            In k' (keys d [])).
  { intros k' Hk'. rewrite Hkeys.
    apply in_app_or in Hk' as [Hk'|Hk']; apply in_or_app; [left; exact Hk'|].
    right. apply in_or_app. left. exact Hk'. }
  assert (Hfresh : forall x k', m <= x ->
                     In k' (pre ++ keys (El eb csb) ab) ->
                     forall sel, selects x sel k' = false).
  { intros x k' Hx' Hk' sel. unfold selects.
    fold (below x k'). rewrite (below_fresh m d k' x Hal (Hold k' Hk') Hx').
    reflexivity. }
  assert (Hkd' : keys (append_child block M d) []
                 = (pre ++ keys (El eb csb) ab) ++ keys M (eb :: ab) ++ post).
  { rewrite Happ, <- app_assoc. reflexivity. }
  exists root, (snd pk).
  split; [|split; [|split; [|split; [exact Hnr|split; [|split; [exact Hnp|
    split; [exact Hyt|split; [exact Hid|split; [|split]]]]]]]]].
  - apply Hpage.
  - apply Hpage.
  - split; rewrite querySelector_keys, Hkd'.
    + rewrite (first_filter_app _ (pre ++ keys (El eb csb) ab))
        by (intros k' Hk'; apply HQ, Hold, Hk').
      rewrite HM, keys_El. cbn [app List.filter].
      assert (Hs : selects block selectors_videoModal (eb :: ab, root) = true).
      { unfold selects, selectors_videoModal.
        cbn [fst snd existsb matches matches_simple]. rewrite Hx, Nat.eqb_refl.
        unfold has_class. rewrite Hcr. reflexivity. }
      rewrite Hs. reflexivity.
    + rewrite Hnr.
      rewrite (first_filter_single _ _ _ _ pk); [reflexivity| |exact Hpane].
      intros k' Hk'. apply Hfresh; [apply Nat.le_refl | exact Hk'].
  - unfold has_class. rewrite Hcr. reflexivity.
  - intros Hy. destruct (Hvid Hy) as (vk & Hv & Hv1 & Hv2 & Hv3).
    exists (snd vk). split; [|auto].
    rewrite querySelector_keys, Hkd'.
    rewrite (first_filter_single _ _ _ _ vk); [reflexivity| |exact Hv].
    intros k' Hk'. apply Hfresh; [apply Nat.le_refl | exact Hk'].
  - intros k' Hk'. apply (key_survives_append _ _ _ _ _ _ Hl), Hk'.
  - exists kc. split; [|auto]. rewrite Hkd'.
    apply in_or_app. right. apply in_or_app. left. exact Hkc.
Qed.

(** ** From the link to the modal *)

Lemma plain_addEventListener t h : plain (addEventListener t h).
Proof. split; reflexivity. Qed.

Lemma keeps_addEventListener s t h : keeps s (addEventListener t h).
Proof. intros e. destruct s; reflexivity. Qed.


Lemma lookup_key d k :
  unique_ids d -> In k (keys d []) -> lookup d (nid (snd k)) = Some (snd k).
Proof.
  intros Hu Hk. rewrite lookup_elements. apply first_filter_unique.
  - intros e He E. apply Nat.eqb_eq in E.
    eapply (NoDup_map_eq nid); [exact Hu|exact He| |exact E].
    apply (keys_inside _ _ _ Hk).
  - apply (keys_inside _ _ _ Hk).
  - apply Nat.eqb_refl.
Qed.

(** What the link step leaves behind for a link that is not external, on a
    page of distinct elements whose block has no modal yet. *)
Lemma link_step_modal {B : Browser} st block link :
  well_formed st ->
  querySelector (document st) block (Desc (SClass "video-image") (STag "a"))
  = Some link ->
  strict_eq_str (getVideoType (href link)) "external" = false ->
  querySelector (document st) block selectors_videoModal = None ->
  let n := next_nid st in
  let vt := getVideoType (href link) in
  exists st' modal pane,
    decorate_link block st = Returned tt st'
    /\ well_formed st' /\ same_globals st st'
    /\ found (document st') block modal pane
    /\ nid modal = 2 + n /\ has_class "open" modal = false
    /\ is_youtube pane = strict_eq_str vt "youtube"
    /\ (strict_eq_str vt "youtube" = true ->
        getAttribute "data-videoId" pane
        = VString (to_string (getYouTubeId (href link))))
    /\ (strict_eq_str vt "youtube" = false ->
        exists video,
          querySelector (document st') (2 + n) video_sel = Some video
          /\ nid video = 8 + n
          /\ paused video = true /\ currentTime video = 0%Z)
    /\ (forall x, x = n \/ x = 6 + n ->
        exists e, lookup (document st') x = Some e
                  /\ tag e = "button"
                  /\ listeners e = [("click", ToggleVideoOverlay block)]).
Proof.
  intros [Hu Hal] Hq Hext Hnone n vt.
  destruct (querySelector_key _ _ _ _ Hq) as (k & Hk & Es & Hb & _).
  assert (Hp : exists parent, first (fst k) = Some parent).
  { unfold below in Hb. destruct (fst k) as [|a l]; [discriminate|].
    eexists. reflexivity. }
  destruct Hp as (parent & Hp).
  assert (Hpe : parentElement (document st) (nid link) = Some parent).
  { rewrite parentElement_keys, <- Es, (key_unique _ k Hu Hk). exact Hp. }
  rewrite (decorate_link_modal st block link parent Hq Hpe Hext).
  assert (HQ : forall k', In k' (keys (document st) []) ->
                          selects block selectors_videoModal k' = false).
  { rewrite querySelector_keys in Hnone.
    destruct (first _) eqn:E; [discriminate|].
    apply first_filter_None. exact E. }
  destruct (button_for_link_inv (document st) n block link parent k
              Hu Hal Hk Es Hb Hp HQ)
    as (Huc & Halc & Hbc & HQc & ancb & Hkbtn).
  cbv zeta in *.
  set (d_c := button_for_link n link parent (document st)) in *.
  destruct (modal_appended d_c (2 + n) block (href link) vt Huc Halc Hbc HQc)
    as (modal & pane & Hud & Hald & Hfd & Hnm & Hom & Hnp & Hyt & Hid & Hvid
        & Hkeep & kc & Hkc & Hnkc & Hlkc & Htkc).
  cbv zeta in *.
  set (L := addEventListener "click" (ToggleVideoOverlay block)) in *.
  set (d_d := append_child block _ d_c) in *.
  assert (Hdoc : linked_document block link parent st = update n L d_d)
    by reflexivity.
  eexists. exists modal, pane.
  split; [reflexivity|]. unfold with_page. cbn [document next_nid].
  rewrite Hdoc.
  split; [|split; [repeat split|]].
  { split; cbn [document next_nid].
    - unfold unique_ids. rewrite unique_ids_update; [exact Hud|reflexivity].
    - apply allocated_update; [reflexivity|]. exact Hald. }
  split.
  { rewrite <- (upd_other n L modal), <- (upd_other n L pane) by lia.
    apply found_update; [apply plain_addEventListener | | | exact Hfd];
      apply keeps_addEventListener. }
  split; [exact Hnm|]. split; [exact Hom|]. split; [exact Hyt|].
  split; [exact Hid|]. split.
  { intros Hy. destruct (Hvid Hy) as (video & Hv & Hv1 & Hv2 & Hv3).
    exists video. split; [|auto]. unfold video_sel in *.
    rewrite querySelector_update;
      [|reflexivity|apply keeps_addEventListener].
    rewrite Hv. cbn. rewrite upd_other by lia. reflexivity. }
  intros x Hx. rewrite lookup_update by reflexivity.
  destruct Hx as [->| ->].
  - pose proof (lookup_key d_d (ancb, play_button n) Hud (Hkeep _ Hkbtn))
      as Hlk.
    cbn [snd] in Hlk. change (nid (play_button n)) with n in Hlk.
    rewrite Hlk.
    eexists. split; [reflexivity|]. rewrite upd_same by reflexivity.
    split; reflexivity.
  - change (6 + n) with (4 + (2 + n)). rewrite <- Hnkc.
    rewrite (lookup_key d_d kc Hud Hkc).
    eexists. split; [reflexivity|]. rewrite upd_other by lia.
    split; assumption.
Qed.

(** X13. On a page of distinct elements whose block has no modal yet, the
    link step, for a link whose [href], the URL the browser resolves it to,
    is not classified external, returns and leaves a page of distinct
    elements on which [toggleVideoOverlay] finds a closed modal with its
    pane: a Youtube pane carrying the id [getYouTubeId] extracts from that
    [href] (as a string, so [null] reads "null"), or else a direct-file
    modal whose video is paused at the start. Nothing is done outside the
    document. *)
Theorem link_step_builds_modal {B : Browser} st block link :
  well_formed st ->
  querySelector (document st) block (Desc (SClass "video-image") (STag "a"))
  = Some link ->
  strict_eq_str (getVideoType (href link)) "external" = false ->
  querySelector (document st) block selectors_videoModal = None ->
  exists st' modal videoContent,
    decorate_link block st = Returned tt st'
    /\ well_formed st' /\ same_globals st st'
    /\ found (document st') block modal videoContent
    /\ has_class "open" modal = false
    /\ (strict_eq_str (getVideoType (href link)) "youtube" = true ->
        is_youtube videoContent = true
        /\ getAttribute "data-videoId" videoContent
           = VString (to_string (getYouTubeId (href link))))
    /\ (strict_eq_str (getVideoType (href link)) "youtube" = false ->
        direct_modal (document st') block
          (2 + next_nid st) (8 + next_nid st) false true 0).
Proof.
  intros Hw Hq Hext Hnone.
  destruct (link_step_modal st block link Hw Hq Hext Hnone)
    as (st' & modal & pane & H1 & H2 & H3 & H4 & H5 & H6 & H7 & H8 & H9 & _).
  cbv zeta in *. exists st', modal, pane.
  repeat (split; [assumption|]). split.
  - intros Hy. split; [congruence | apply H8, Hy].
  - intros Hy. destruct (H9 Hy) as (video & Hv & Hv1 & Hv2 & Hv3).
    exists modal, pane, video. rewrite H5.
    repeat (split; [first [assumption | congruence]|]). assumption.
Qed.

Lemma link_step_builds_modal_witness :
  let st := before_link true yt_href in
  let link := sample_el 12 "a" [] [("href", yt_href)] in
  let h := href (B := serialised_links) link in
  exists st' modal videoContent,
    decorate_link (B := serialised_links) 5 st = Returned tt st'
    /\ well_formed st' /\ same_globals st st'
    /\ found (document st') 5 modal videoContent
    /\ has_class "open" modal = false
    /\ (strict_eq_str (getVideoType h) "youtube" = true ->
        is_youtube videoContent = true
        /\ getAttribute "data-videoId" videoContent
           = VString (to_string (getYouTubeId h)))
    /\ (strict_eq_str (getVideoType h) "youtube" = false ->
        direct_modal (document st') 5
          (2 + next_nid st) (8 + next_nid st) false true 0).
Proof.
  assert (Hw : well_formed (before_link true yt_href)).
  { split; [apply unique_ids_check | apply allocated_check];
      vm_compute; reflexivity. }
  refine (link_step_builds_modal (B := serialised_links)
            (before_link true yt_href) 5
            (sample_el 12 "a" [] [("href", yt_href)]) Hw _ _ _);
    vm_compute; reflexivity.
Defined.

(** X14. From the link to the player: under the same conditions the link
    step returns, and so does a toggle after it, for a Youtube link when the
    SDK is loaded and for a link of no known type. The Youtube link gives
    one player, constructed for the id [getYouTubeId] extracts from the
    link's [href] as the browser resolves it; the link of no known type
    gives a direct-file modal that is open with its video playing from the
    start, and no effect outside the document. *)
Theorem link_step_then_toggle {B : Browser} st block link :
  well_formed st ->
  querySelector (document st) block (Desc (SClass "video-image") (STag "a"))
  = Some link ->
  strict_eq_str (getVideoType (href link)) "external" = false ->
  querySelector (document st) block selectors_videoModal = None ->
  let videoId := VString (to_string (getYouTubeId (href link))) in
  let p := {| p_element := ytFrame videoId; p_videoId := videoId |} in
  exists st',
    decorate_link block st = Returned tt st'
    /\ (strict_eq_str (getVideoType (href link)) "youtube" = true ->
        window_YT st = true ->
        exists st'',
          toggleVideoOverlay block st' = Returned tt st''
          /\ player st'' = Some p
          /\ trace st'' = trace st ++ [NewPlayer p])
    /\ (strict_eq_str (getVideoType (href link)) "youtube" = false ->
        exists st'',
          toggleVideoOverlay block st' = Returned tt st''
          /\ direct_modal (document st'') block
               (2 + next_nid st) (8 + next_nid st) true false 0
          /\ same_globals st st'').
Proof.
  intros Hw Hq Hext Hnone videoId p.
  destruct (link_step_modal st block link Hw Hq Hext Hnone)
    as (st' & modal & pane & H1 & H2 & H3 & H4 & H5 & H6 & H7 & H8 & H9 & _).
  cbv zeta in *. exists st'.
  destruct H3 as (G1 & G2 & G3 & G4).
  split; [exact H1|]. split.
  - intros Hy HYT. rewrite Hy in H7. rewrite <- G1 in HYT.
    pose proof (toggle_open_youtube_loaded st' block modal pane
                  H4 H6 H7 HYT) as Ht.
    cbv zeta in Ht. rewrite (H8 Hy) in Ht. fold videoId in Ht. fold p in Ht.
    eexists. split; [exact Ht|]. cbn [player trace]. rewrite G4.
    split; reflexivity.
  - intros Hy. rewrite Hy in H7.
    destruct (H9 Hy) as (video & Hv & Hv1 & Hv2 & Hv3).
    assert (Hd : direct_modal (document st') block
                   (2 + next_nid st) (8 + next_nid st) false true 0).
    { exists modal, pane, video.
      repeat (split; [first [assumption | congruence]|]). assumption. }
    destruct (direct_open_step st' block _ _ _ _ Hd) as (st'' & Ht & Hd'').
    exists st''. split; [exact Ht|]. split; [exact Hd''|].
    pose proof (toggle_open_direct st' block modal pane H4 H6 H7) as Ht'.
    cbv zeta in Ht'. rewrite Ht in Ht'.
    destruct (querySelector (document st') (nid modal) (Sel (STag "video")));
      injection Ht' as ->; repeat split; cbn; congruence.
Qed.

Lemma link_step_then_toggle_witness :
  let st := before_link true yt_href in
  let link := sample_el 12 "a" [] [("href", yt_href)] in
  let h := href (B := serialised_links) link in
  let videoId := VString (to_string (getYouTubeId h)) in
  let p := {| p_element := ytFrame videoId; p_videoId := videoId |} in
  exists st',
    decorate_link (B := serialised_links) 5 st = Returned tt st'
    /\ (strict_eq_str (getVideoType h) "youtube" = true ->
        window_YT st = true ->
        exists st'',
          toggleVideoOverlay 5 st' = Returned tt st''
          /\ player st'' = Some p
          /\ trace st'' = trace st ++ [NewPlayer p])
    /\ (strict_eq_str (getVideoType h) "youtube" = false ->
        exists st'',
          toggleVideoOverlay 5 st' = Returned tt st''
          /\ direct_modal (document st'') 5
               (2 + next_nid st) (8 + next_nid st) true false 0
          /\ same_globals st st'').
Proof.
  assert (Hw : well_formed (before_link true yt_href)).
  { split; [apply unique_ids_check | apply allocated_check];
      vm_compute; reflexivity. }
  refine (link_step_then_toggle (B := serialised_links)
            (before_link true yt_href) 5
            (sample_el 12 "a" [] [("href", yt_href)]) Hw _ _ _);
    vm_compute; reflexivity.
Defined.

(** ** Clicks on the controls *)

(** A click on an element of a page of distinct elements runs the listeners
    of the element and then those of its ancestors. *)
Lemma click_key st k :
  unique_ids (document st) -> In k (keys (document st) []) ->
  click (nid (snd k)) st
  = dispatch (List.concat (List.map listeners (snd k :: fst k))) st.
Proof.
  intros Hu Hk. pose proof (key_unique _ k Hu Hk) as E. unfold keys in E.
  rewrite (first_filter_map fst (fun k' => Nat.eqb (nid (snd k')) (nid (snd k)))
             (fun en => Nat.eqb (entry_nid en) (nid (snd k)))) in E
    by reflexivity.
  unfold click, entry.
  destruct (first _) as [en|]; [|discriminate].
  cbn in E. injection E as <-. reflexivity.
Qed.

(** Elements without listeners, none of them the element [x], add nothing
    to the way of a click, also once [x] is updated. *)
Lemma quiet_path x f l :
  (forall a, In a l -> listeners a = [] /\ nid a <> x) ->
  List.concat (List.map listeners (List.map (upd x f) l)) = [].
Proof.
  induction l as [|a l IH]; intros H; [reflexivity|].
  cbn [List.map List.concat].
  destruct (H a (or_introl eq_refl)) as [Hl Hn].
  rewrite (upd_other x f a Hn), Hl. apply IH.
  intros b Hb. apply H. right. exact Hb.
Qed.

(** The close button of the modal, below three elements of the modal that
    carry no listener. *)
Lemma built_modal_close_path m href vt block anc :
  let M := update (4 + m) (addEventListener "click" (ToggleVideoOverlay block))
             (built_modal m href vt) in
  exists inner cb,
    In (inner ++ anc, cb) (keys M anc)
    /\ nid cb = 4 + m
    /\ tag cb = "button"
    /\ listeners cb = [("click", ToggleVideoOverlay block)]
    /\ forall a, In a inner -> listeners a = [] /\ m <= nid a.
Proof.
  assert (Hne' : forall k, Nat.eqb m (S k + m) = false)
    by (intros k; apply Nat.eqb_neq; lia).
  assert (Hpl : forall a b, Nat.eqb (S a + m) (S b + m) = Nat.eqb a b).
  { intros a b. destruct (Nat.eqb_spec a b) as [->|E].
    - apply Nat.eqb_refl.
    - apply Nat.eqb_neq. lia. }
  cbv zeta. unfold built_modal.
  destruct (strict_eq_str vt "youtube").
  - unfold youtube_modal. cbv zeta.
    cbn [update List.map]. unfold upd. cbn [nid].
    rewrite ?Hne', ?Hpl. cbn [Nat.eqb].
    unfold keys. cbn [walk List.map List.concat app fst snd].
    eexists [_; _; _], _.
    split; [do 4 right; left; reflexivity|].
    split; [reflexivity|]. split; [reflexivity|]. split; [reflexivity|].
    intros a [<-|[<-|[<-|[]]]]; cbn; split; first [reflexivity | lia].
  - unfold direct_file_modal. cbv zeta.
    cbn [update List.map]. unfold upd. cbn [nid].
    rewrite ?Hne', ?Hpl. cbn [Nat.eqb].
    unfold keys. cbn [walk List.map List.concat app fst snd].
    eexists [_; _; _], _.
    split; [do 4 right; left; reflexivity|].
    split; [reflexivity|]. split; [reflexivity|]. split; [reflexivity|].
    intros a [<-|[<-|[<-|[]]]]; cbn; split; first [reflexivity | lia].
Qed.

(** X15. The link step wires both controls to the block. When no ancestor
    of the link carries a listener, a click on the play button the step
    creates, on the label inside it (from which the click bubbles to the
    button), or on the close button of the modal it appends, runs
    [toggleVideoOverlay(block)] once and nothing else; an error the call
    throws is the only error of the click. *)
Theorem link_step_wires_clicks {B : Browser} st block link :
  well_formed st ->
  querySelector (document st) block (Desc (SClass "video-image") (STag "a"))
  = Some link ->
  strict_eq_str (getVideoType (href link)) "external" = false ->
  (forall ancs a, In (ancs, link) (keys (document st) []) -> In a ancs ->
                  listeners a = []) ->
  exists st',
    decorate_link block st = Returned tt st'
    /\ (tag <$> lookup (document st') (next_nid st)) = Some "button"
    /\ (tag <$> lookup (document st') (1 + next_nid st)) = Some "span"
    /\ (tag <$> lookup (document st') (6 + next_nid st)) = Some "button"
    /\ forall x, x = next_nid st \/ x = 1 + next_nid st
                 \/ x = 6 + next_nid st ->
         click x st'
         = (thrown (toggleVideoOverlay block st'),
            state_of (toggleVideoOverlay block st')).
Proof.
  intros [Hu Hal] Hq Hext Hquiet.
  destruct (querySelector_key _ _ _ _ Hq) as (k & Hk & Es & Hb & _).
  assert (Hp : exists parent, first (fst k) = Some parent).
  { unfold below in Hb. destruct (fst k) as [|a l]; [discriminate|].
    eexists. reflexivity. }
  destruct Hp as (parent & Hp).
  assert (Hpe : parentElement (document st) (nid link) = Some parent).
  { rewrite parentElement_keys, <- Es, (key_unique _ k Hu Hk). exact Hp. }
  rewrite (decorate_link_modal st block link parent Hq Hpe Hext).
  set (n := next_nid st) in *.
  set (vt := getVideoType (href link)) in *.
  destruct (button_for_link_page (document st) n block link parent k
              Hu Hal Hk Es Hb Hp)
    as (Huc & Halc & (kb & Hkb0 & Hkb & Hnb) & _ & _ & _ & Hkbtn & Hkspan).
  cbv zeta in *.
  set (d_c := button_for_link n link parent (document st)) in *.
  destruct (modal_appended_page d_c (2 + n) block (href link) vt kb
              Huc Halc Hkb Hnb) as (Hud & Hald & Hkeep & _).
  cbv zeta in *.
  set (L := addEventListener "click" (ToggleVideoOverlay block)) in *.
  set (M := update (4 + (2 + n)) L (built_modal (2 + n) (href link) vt)) in *.
  set (d_d := append_child block M d_c) in *.
  assert (Hdoc : linked_document block link parent st = update n L d_d)
    by reflexivity.
  (* the ancestors of the link: no listeners, and older than the button *)
  assert (Hanc : forall a, In a (fst k) -> listeners a = [] /\ nid a <> n).
  { intros a Ha. split.
    - apply (Hquiet (fst k) a); [|exact Ha].
      rewrite <- Es. destruct k. exact Hk.
    - pose proof (keys_ancestors_allocated _ _ _ _ Hal Hk Ha). lia. }
  (* the block and its ancestors are among them *)
  assert (Hblock : forall a, In a (snd kb :: fst kb) -> In a (fst k)).
  { pose proof Hb as Hb'. apply existsb_exists in Hb' as (a & Ha & Ea).
    apply Nat.eqb_eq in Ea.
    destruct (in_split _ _ Ha) as (l1 & l2 & El).
    assert (Hka : In (l2, a) (keys (document st) [])).
    { apply (keys_ancestor_chain _ [] k l1 a l2 Hk El). cbn. lia. }
    assert (E : (l2, a) = kb)
      by (apply (keys_same_nid (document st)); auto; cbn; congruence).
    subst kb. cbn [fst snd]. intros b Hb0. rewrite El.
    apply in_or_app. right. exact Hb0. }
  (* the close button in the page *)
  assert (Hclose : exists inner cb,
             In (inner ++ snd kb :: fst kb, cb) (keys d_d [])
             /\ nid cb = 6 + n /\ tag cb = "button"
             /\ listeners cb = [("click", ToggleVideoOverlay block)]
             /\ forall a, In a inner -> listeners a = [] /\ 2 + n <= nid a).
  { destruct (located_exists d_c block Huc) as (eb & csb & Hl).
    { rewrite <- Hnb. apply key_In_nids, Hkb. }
    destruct (located_keys _ _ _ _ Hl [])
      as (pre & post & local & Hx & Hkeys & _ & _ & Happ & _).
    cbv zeta in *. rewrite app_nil_r in *.
    assert (E : (local, eb) = kb).
    { apply (keys_same_nid d_c); [exact Huc| |exact Hkb|cbn; congruence].
      rewrite Hkeys, keys_El. apply in_or_app. right. left. reflexivity. }
    subst kb. cbn [fst snd].
    destruct (built_modal_close_path (2 + n) (href link) vt block (eb :: local))
      as (inner & cb & Hin & H1 & H2 & H3 & H4).
    cbv zeta in Hin. exists inner, cb.
    split; [|auto]. unfold d_d. rewrite (Happ M).
    apply in_or_app. right. apply in_or_app. right.
    apply in_or_app. left. exact Hin. }
  destruct Hclose as (inner & cb & Hkcb & Hncb & Htcb & Hlcb & Hinner).
  (* the page with the listener on the button *)
  assert (Hud' : unique_ids (update n L d_d))
    by (unfold unique_ids; rewrite unique_ids_update; [exact Hud|reflexivity]).
  assert (Hmap : forall k', In k' (keys d_d []) ->
                   In (List.map (upd n L) (fst k'), upd n L (snd k'))
                     (keys (update n L d_d) [])).
  { intros k' Hk'. change (@nil element) with (List.map (upd n L) []).
    rewrite keys_update. apply in_map_iff. exists k'. split; [reflexivity|].
    exact Hk'. }
  set (st' := with_page (linked_document block link parent st)
                (built_size vt + (2 + n)) st).
  assert (Hdoc' : document st' = update n L d_d) by exact Hdoc.
  pose proof (Hmap _ (Hkeep _ Hkbtn)) as K1.
  pose proof (Hmap _ (Hkeep _ Hkspan)) as K2.
  pose proof (Hmap _ Hkcb) as K3.
  cbn [fst snd List.map] in K1, K2, K3.
  rewrite (upd_same n L (play_button n) eq_refl) in K1, K2.
  rewrite (upd_other n L (new_element (1 + n) "span")) in K2 by (cbn; lia).
  rewrite (upd_other n L cb) in K3 by lia.
  rewrite <- Hdoc' in K1, K2, K3, Hud'.
  pose proof (lookup_key _ _ Hud' K1) as L1.
  pose proof (lookup_key _ _ Hud' K2) as L2.
  pose proof (lookup_key _ _ Hud' K3) as L3.
  pose proof (click_key st' _ Hud' K1) as C1.
  pose proof (click_key st' _ Hud' K2) as C2.
  pose proof (click_key st' _ Hud' K3) as C3.
  cbn [fst snd List.map List.concat] in L1, L2, L3, C1, C2, C3.
  change (nid (L (play_button n))) with n in L1, C1.
  change (nid (new_element (1 + n) "span")) with (1 + n) in L2, C2.
  rewrite Hncb in L3, C3.
  rewrite (quiet_path n L (fst k) Hanc), app_nil_r in C1, C2.
  rewrite Hlcb, quiet_path in C3.
  2:{ intros a Ha. apply in_app_or in Ha as [Ha|Ha].
      - destruct (Hinner a Ha) as [H1 H2]. split; [exact H1|lia].
      - apply Hanc, Hblock, Ha. }
  assert (Hone : dispatch [("click", ToggleVideoOverlay block)] st'
                 = (thrown (toggleVideoOverlay block st'),
                    state_of (toggleVideoOverlay block st'))).
  { cbn [dispatch String.eqb Ascii.eqb Bool.eqb run_handler fst snd].
    rewrite app_nil_r. reflexivity. }
  exists st'. split; [reflexivity|].
  split; [rewrite L1; reflexivity|].
  split; [rewrite L2; reflexivity|].
  split; [rewrite L3; cbn; rewrite Htcb; reflexivity|].
  intros x [->|[->| ->]].
  - rewrite C1. exact Hone.
  - rewrite C2. exact Hone.
  - rewrite C3. exact Hone.
Qed.

Lemma link_step_wires_clicks_witness :
  let st := before_link true yt_href in
  exists st',
    decorate_link (B := serialised_links) 5 st = Returned tt st'
    /\ (tag <$> lookup (document st') (next_nid st)) = Some "button"
    /\ (tag <$> lookup (document st') (1 + next_nid st)) = Some "span"
    /\ (tag <$> lookup (document st') (6 + next_nid st)) = Some "button"
    /\ forall x, x = next_nid st \/ x = 1 + next_nid st
                 \/ x = 6 + next_nid st ->
         click x st'
         = (thrown (toggleVideoOverlay 5 st'),
            state_of (toggleVideoOverlay 5 st')).
Proof.
  assert (Hw : well_formed (before_link true yt_href)).
  { split; [apply unique_ids_check | apply allocated_check];
      vm_compute; reflexivity. }
  refine (link_step_wires_clicks (B := serialised_links)
            (before_link true yt_href) 5
            (sample_el 12 "a" [] [("href", yt_href)]) Hw _ _ _);
    [vm_compute; reflexivity | vm_compute; reflexivity |].
  intros ancs a Hk Ha.
  assert (E : List.forallb
                (fun k => negb (Nat.eqb (nid (snd k)) 12)
                          || List.forallb
                               (fun a => match listeners a with
                                         | [] => true
                                         | _ => false
                                         end) (fst k))
                (keys (document (before_link true yt_href)) []) = true)
    by (vm_compute; reflexivity).
  rewrite forallb_forall in E. specialize (E _ Hk). cbn [snd fst nid] in E.
  cbn in E. rewrite forallb_forall in E. specialize (E a Ha).
  destruct (listeners a); [reflexivity|discriminate].
Defined.

(** ** The pending callback *)

(** X16. While the SDK is absent every opening of a Youtube modal replaces
    the pending callback, whatever it was: when the SDK then calls back,
    exactly one player is constructed, for the modal opened last, and none
    for a callback that was pending before. *)
Theorem pending_callback_is_replaced
    st block modal videoContent firstScriptTag parent :
  found (document st) block modal videoContent ->
  has_class "open" modal = false ->
  is_youtube videoContent = true ->
  window_YT st = false ->
  firstByTagName (opened_document st modal videoContent) "script"
  = Some firstScriptTag ->
  parentElement (opened_document st modal videoContent) (nid firstScriptTag)
  = Some parent ->
  let videoId := getAttribute "data-videoId" videoContent in
  let p := {| p_element := ytFrame videoId; p_videoId := videoId |} in
  exists st' st'',
    toggleVideoOverlay block st = Returned tt st'
    /\ window_onYouTubePlayerAPIReady st' = Some videoId
    /\ sdkReady st' = Returned tt st''
    /\ player st'' = Some p
    /\ trace st'' = trace st ++ [FetchScript iframe_api; NewPlayer p]
    /\ new_players (trace st'') = new_players (trace st) ++ [NewPlayer p].
Proof.
  intros Hf Ho Hy HYT Hs Hp videoId p.
  pose proof (toggle_open_youtube_absent st block modal videoContent
                Hf Ho Hy HYT) as Ht.
  cbv zeta in Ht. rewrite Hs, Hp in Ht. fold videoId in Ht.
  eexists. eexists. split; [exact Ht|]. split; [reflexivity|].
  unfold sdkReady. cbn [window_onYouTubePlayerAPIReady].
  unfold loadYouTubePlayer, bind, get_YT, emit, set_player.
  cbn [window_YT document next_nid window_onYouTubePlayerAPIReady player trace].
  split; [reflexivity|]. cbn [player trace]. split; [reflexivity|].
  rewrite <- app_assoc. split; [reflexivity|].
  unfold new_players. rewrite List.filter_app. reflexivity.
Qed.

Lemma pending_callback_is_replaced_witness :
  let st := decorated false yt_href in
  let videoId := getAttribute "data-videoId" (youtube_content_el yt_href) in
  let p := {| p_element := ytFrame videoId; p_videoId := videoId |} in
  exists st' st'',
    toggleVideoOverlay 5 st = Returned tt st'
    /\ window_onYouTubePlayerAPIReady st' = Some videoId
    /\ sdkReady st' = Returned tt st''
    /\ player st'' = Some p
    /\ trace st'' = trace st ++ [FetchScript iframe_api; NewPlayer p]
    /\ new_players (trace st'') = new_players (trace st) ++ [NewPlayer p].
Proof.
  assert (Hf : found (document (decorated false yt_href)) 5
                 (modal_el []) (youtube_content_el yt_href))
    by (split; vm_compute; reflexivity).
  refine (pending_callback_is_replaced (decorated false yt_href) 5
            (modal_el []) (youtube_content_el yt_href)
            (sample_el 2 "script" [] [("src", "/scripts/aem.js")])
            (sample_el 1 "head" [] [])
            Hf _ _ _ _ _); vm_compute; reflexivity.
Defined.

(** ** An external link *)

Lemma first_filter_app_Some {A} (P : A -> bool) l1 l2 a :
  first (List.filter P l1) = Some a ->
  first (List.filter P (l1 ++ l2)) = Some a.
Proof.
  rewrite List.filter_app. destruct (List.filter P l1); [discriminate|].
  intros H. exact H.
Qed.

Lemma walk_absent x c ancs en :
  ~ In x (nids c) -> In en (walk c ancs) -> Nat.eqb (entry_nid en) x = false.
Proof.
  intros H Hen. apply Nat.eqb_neq. intros E. apply H.
  rewrite <- (entry_nids c ancs), <- E. apply in_map, Hen.
Qed.

(** The element whose children were replaced, as the page now holds it. *)
Lemma entry_set_children x ex csx n new :
  located x ex csx n -> forall ancs,
  exists ax,
    first (List.filter (fun en => Nat.eqb (entry_nid en) x)
             (walk (set_children x new n) ancs))
    = Some (ax, ex, new).
Proof.
  induction 1 as [E Hn|e cs1 c cs2 E Hl IH Habs]; intros ancs.
  - exists ancs. cbn [set_children]. rewrite E, Nat.eqb_refl.
    cbn [walk List.filter]. unfold entry_nid at 1. cbn [fst snd].
    rewrite E, Nat.eqb_refl. reflexivity.
  - destruct (IH (e :: ancs)) as (ax & Hax). exists ax.
    cbn [set_children]. apply Nat.eqb_neq in E. rewrite E.
    cbn [walk List.filter]. unfold entry_nid at 1. cbn [fst snd]. rewrite E.
    rewrite List.map_app. cbn [List.map].
    rewrite (map_same (set_children x new) cs1).
    2:{ intros c' Hc'. apply absent_ops, Habs, in_or_app. left. exact Hc'. }
    rewrite List.map_app, List.concat_app. cbn [List.map List.concat].
    rewrite first_filter_app.
    + apply first_filter_app_Some, Hax.
    + intros en Hen. apply In_concat_map in Hen as (c' & Hc' & Hen).
      eapply walk_absent; [|exact Hen]. apply Habs, in_or_app. left. exact Hc'.
Qed.

Lemma subtree_set_children x ex csx n new :
  located x ex csx n ->
  subtree (set_children x new n) x = Some (El ex new).
Proof.
  intros Hl. unfold subtree, entry.
  destruct (entry_set_children x ex csx n new Hl []) as (ax & ->).
  reflexivity.
Qed.

Lemma assoc_set_same k v l : assoc k (assoc_set k v l) = Some v.
Proof.
  induction l as [|[k' v'] l IH]; cbn.
  - rewrite String.eqb_refl. reflexivity.
  - destruct (String.eqb k' k) eqn:E; cbn.
    + rewrite String.eqb_refl. reflexivity.
    + rewrite E. exact IH.
Qed.

Lemma assoc_set_other k k0 v l :
  k0 <> k -> assoc k0 (assoc_set k v l) = assoc k0 l.
Proof.
  intros Hne. induction l as [|[k' v'] l IH]; cbn.
  - destruct (String.eqb_spec k k0); [congruence|reflexivity].
  - destruct (String.eqb_spec k' k) as [->|E]; cbn.
    + destruct (String.eqb_spec k k0); [congruence|reflexivity].
    + destruct (String.eqb k' k0); [reflexivity|exact IH].
Qed.

Lemma attrs_setAttribute_target v e :
  attrs (setAttribute "target" v e)
  = assoc_set "target" (to_string v) (attrs e).
Proof. reflexivity. Qed.

Lemma decorate_link_external {B : Browser} st block link :
  querySelector (document st) block (Desc (SClass "video-image") (STag "a"))
  = Some link ->
  strict_eq_str (getVideoType (href link)) "external" = true ->
  decorate_link block st
  = Returned tt
      (with_page
         (set_children (nid link)
            [El (new_element (next_nid st) "span") [Text "Play"]]
            (update (nid link) (classList_add "open-video")
               (update (nid link) (setAttribute "target" (VString "_blank"))
                  (document st))))
         (S (next_nid st)) st).
Proof.
  intros Hq Hext.
  unfold decorate_link, bind at 1, get_document at 1. rewrite Hq. cbv zeta.
  unfold decorate_link_as, decorateVideoLink. rewrite Hext. cbn [negb].
  reflexivity.
Qed.

(** X17. The link step on a link whose [href], the URL the browser resolves
    it to, is classified external keeps the link and creates no modal: the
    link gets [target="_blank"] and the class [open-video],
    keeps its [href] and its listeners, and its content is replaced by the
    label; if the block had no modal, it has none afterwards, and
    [toggleVideoOverlay] on it throws [TypeError]. *)
Theorem external_link_step {B : Browser} st block link :
  unique_ids (document st) ->
  querySelector (document st) block (Desc (SClass "video-image") (STag "a"))
  = Some link ->
  strict_eq_str (getVideoType (href link)) "external" = true ->
  exists st' link',
    decorate_link block st = Returned tt st'
    /\ same_globals st st'
    /\ subtree (document st') (nid link)
       = Some (El link' [El (new_element (next_nid st) "span") [Text "Play"]])
    /\ href link' = href link
    /\ getAttribute "target" link' = VString "_blank"
    /\ has_class "open-video" link' = true
    /\ listeners link' = listeners link
    /\ (querySelector (document st) block selectors_videoModal = None ->
        toggleVideoOverlay block st' = Thrown TypeError st').
Proof.
  intros Hu Hq Hext.
  rewrite (decorate_link_external st block link Hq Hext).
  set (setT := setAttribute "target" (VString "_blank")).
  set (add := classList_add "open-video").
  set (D := update (nid link) add (update (nid link) setT (document st))).
  set (new := [El (new_element (next_nid st) "span") [Text "Play"]]).
  assert (HnT : forall e, nid (setT e) = nid e) by reflexivity.
  assert (Hna : forall e, nid (add e) = nid e)
    by (intros e; apply nid_classList_add).
  assert (Hlin : In link (elements (document st)))
    by (eapply querySelector_In, Hq).
  assert (HuD : unique_ids D).
  { unfold unique_ids, D. rewrite !unique_ids_update by assumption. exact Hu. }
  assert (HinD : In (add (setT link)) (elements D)).
  { unfold D. rewrite !elements_update, List.map_map.
    apply in_map_iff. exists link. split; [|exact Hlin].
    rewrite (upd_same _ setT link eq_refl).
    apply upd_same. apply HnT. }
  destruct (located_exists D (nid link) HuD) as (ex & csx & Hl).
  { replace (nid link) with (nid (add (setT link)))
      by (rewrite Hna; apply HnT).
    apply In_nids, HinD. }
  destruct (located_key _ _ _ _ Hl) as (ax & Hkx & Hnx & _).
  assert (Eex : ex = add (setT link)).
  { eapply (NoDup_map_eq nid); [exact HuD| |exact HinD|].
    - apply (keys_inside _ _ _ Hkx).
    - rewrite Hnx, Hna. symmetry. apply HnT. }
  exists (with_page (set_children (nid link) new D) (S (next_nid st)) st),
    (add (setT link)).
  split; [reflexivity|]. split; [repeat split|].
  cbn [document with_page].
  split; [rewrite <- Eex; apply (subtree_set_children _ _ _ _ _ Hl)|].
  split.
  { unfold href.
    replace (attrs (add (setT link))) with (attrs (setT link))
      by (symmetry; apply plain_classList_add).
    unfold setT. rewrite attrs_setAttribute_target.
    rewrite assoc_set_other by discriminate. reflexivity. }
  split.
  { unfold getAttribute.
    change (String.eqb (lower "target") "class") with false.
    change (lower "target") with "target". cbv iota.
    replace (attrs (add (setT link))) with (attrs (setT link))
      by (symmetry; apply plain_classList_add).
    unfold setT. rewrite attrs_setAttribute_target.
    rewrite assoc_set_same. reflexivity. }
  split; [apply has_class_add_same|].
  split; [unfold add; rewrite listeners_classList_add; reflexivity|].
  intros Hnone. apply toggle_no_modal. cbn [document with_page].
  assert (HnoneD : querySelector D block selectors_videoModal = None).
  { unfold D, selectors_videoModal.
    rewrite querySelector_update;
      [|exact Hna|apply keeps_class_add; discriminate].
    rewrite querySelector_update; [|exact HnT|intros e; reflexivity].
    unfold selectors_videoModal in Hnone. rewrite Hnone. reflexivity. }
  rewrite querySelector_keys in HnoneD |- *.
  destruct (first (List.filter _ (keys D []))) eqn:E; [discriminate|].
  rewrite first_filter_None in E.
  rewrite filter_keys_set_children.
  - rewrite filter_none; [reflexivity|]. intros k Hk. rewrite (E k Hk).
    reflexivity.
  - intros b [].
  - intros ancs' k Hk. cbn in Hk.
    destruct Hk as [<-|[]]. apply selects_class_false. reflexivity.
Qed.

Lemma external_link_step_witness :
  let st := before_link false vimeo_href in
  let link := sample_el 12 "a" [] [("href", vimeo_href)] in
  exists st' link',
    decorate_link (B := serialised_links) 5 st = Returned tt st'
    /\ same_globals st st'
    /\ subtree (document st') (nid link)
       = Some (El link' [El (new_element (next_nid st) "span") [Text "Play"]])
    /\ href (B := serialised_links) link' = href (B := serialised_links) link
    /\ getAttribute "target" link' = VString "_blank"
    /\ has_class "open-video" link' = true
    /\ listeners link' = listeners link
    /\ (querySelector (document st) 5 selectors_videoModal = None ->
        toggleVideoOverlay 5 st' = Thrown TypeError st').
Proof.
  refine (external_link_step (B := serialised_links)
            (before_link false vimeo_href) 5
            (sample_el 12 "a" [] [("href", vimeo_href)]) _ _ _).
  - apply unique_ids_check. vm_compute. reflexivity.
  - vm_compute. reflexivity.
  - vm_compute. reflexivity.
Defined.

(** ** [decorate] works inside its block *)

Lemma inside_of_below block k : below block k = true -> inside block k = true.
Proof. intros H. unfold inside. rewrite H. reflexivity. Qed.

Lemma inside_update block x f d k :
  (forall e, nid (f e) = nid e) -> In k (keys d []) ->
  inside block k = true ->
  exists k', In k' (keys (update x f d) [])
             /\ nid (snd k') = nid (snd k) /\ inside block k' = true.
Proof.
  intros Hf Hk Hi.
  destruct (keys_update_In x f d k Hf Hk) as (k' & Hk' & Hn & Hb).
  exists k'. split; [exact Hk'|]. split; [exact Hn|].
  unfold inside in *. rewrite Hn, Hb. exact Hi.
Qed.

(** The link step keeps a page well formed and works inside the block. *)
Lemma decorate_link_inv {B : Browser} st block :
  well_formed st ->
  exists st',
    decorate_link block st = Returned tt st'
    /\ well_formed st'
    /\ same_outside block (document st) (document st').
Proof.
  intros [Hu Hal].
  destruct (querySelector (document st) block
              (Desc (SClass "video-image") (STag "a"))) as [link|] eqn:Hq.
  2:{ unfold decorate_link, bind, get_document. rewrite Hq. exists st.
      split; [reflexivity|].
      split; [split; assumption | apply same_outside_refl]. }
  destruct (querySelector_key _ _ _ _ Hq) as (k & Hk & Es & Hb & _).
  destruct (strict_eq_str (getVideoType (href link)) "external") eqn:Hext.
  - rewrite (decorate_link_external st block link Hq Hext).
    eexists. split; [reflexivity|]. unfold with_page, well_formed.
    cbn [document next_nid].
    set (n := next_nid st) in *.
    set (setT := setAttribute "target" (VString "_blank")).
    set (add := classList_add "open-video").
    set (D1 := update (nid link) setT (document st)).
    set (D := update (nid link) add D1).
    set (new := [El (new_element n "span") [Text "Play"]]).
    assert (HnT : forall e, nid (setT e) = nid e) by reflexivity.
    assert (Hna : forall e, nid (add e) = nid e)
      by (intros e; apply nid_classList_add).
    assert (Hnk : nid (snd k) = nid link) by congruence.
    assert (Hik := inside_of_below _ _ Hb).
    destruct (inside_update block (nid link) setT _ k HnT Hk Hik)
      as (k1 & Hk1 & Hn1 & Hi1).
    fold D1 in Hk1.
    destruct (inside_update block (nid link) add _ k1 Hna Hk1 Hi1)
      as (k2 & Hk2 & Hn2 & Hi2).
    fold D in Hk2.
    assert (HuD1 : unique_ids D1).
    { unfold unique_ids, D1. rewrite unique_ids_update by assumption.
      exact Hu. }
    assert (HuD : unique_ids D).
    { unfold unique_ids, D. rewrite unique_ids_update by assumption.
      exact HuD1. }
    assert (HalD : allocated n D).
    { unfold D, D1. apply allocated_update; [exact Hna|].
      apply allocated_update; [exact HnT | exact Hal]. }
    destruct (located_exists D (nid link) HuD) as (ex & csx & Hl).
    { rewrite <- Hnk, <- Hn1, <- Hn2. apply key_In_nids, Hk2. }
    split; [split|].
    + apply (unique_set_children_fresh _ _ _ _ _ HuD Hl).
      * cbn. repeat constructor. intros [].
      * intros b Hb' Hin. cbn in Hb'. destruct Hb' as [<-|[]].
        unfold nids in Hin. apply in_map_iff in Hin as (e & En & He).
        specialize (HalD e He). cbn in En. lia.
    + apply allocated_keys. intros k' Hk'.
      apply (keys_set_children_cases _ _ _ _ _ _ Hl) in Hk'
        as [Hk'|(anc' & Hk')].
      * apply allocated_keys with (k := k') in HalD; [lia|exact Hk'].
      * cbn in Hk'. destruct Hk' as [<-|[]]. cbn. lia.
    + apply (same_outside_trans _ _ D1).
      { apply (frame_update block _ _ _ k Hu HnT Hk Hnk Hik). }
      apply (same_outside_trans _ _ D).
      { apply (frame_update block _ _ _ k1 HuD1 Hna Hk1); [congruence|].
        exact Hi1. }
      apply (frame_set_children block _ _ _ k2 HuD Hk2); [congruence|].
      exact Hi2.
  - assert (Hp : exists parent, first (fst k) = Some parent).
    { unfold below in Hb. destruct (fst k) as [|a l]; [discriminate|].
      eexists. reflexivity. }
    destruct Hp as (parent & Hp).
    assert (Hpe : parentElement (document st) (nid link) = Some parent).
    { rewrite parentElement_keys, <- Es, (key_unique _ k Hu Hk). exact Hp. }
    rewrite (decorate_link_modal st block link parent Hq Hpe Hext).
    set (n := next_nid st) in *.
    set (vt := getVideoType (href link)) in *.
    destruct (button_for_link_page (document st) n block link parent k
                Hu Hal Hk Es Hb Hp)
      as (Huc & Halc & (kb & _ & Hkb & Hnb) & _ & (ancb & Hkbtn & Hbbtn) & Hfc
          & _).
    cbv zeta in *.
    set (d_c := button_for_link n link parent (document st)) in *.
    destruct (modal_appended_page d_c (2 + n) block (href link) vt kb
                Huc Halc Hkb Hnb) as (Hud & Hald & Hkeep & Hfd).
    cbv zeta in *.
    set (L := addEventListener "click" (ToggleVideoOverlay block)) in *.
    set (d_d := append_child block _ d_c) in *.
    assert (Hdoc : linked_document block link parent st = update n L d_d)
      by reflexivity.
    eexists. split; [reflexivity|]. unfold with_page, well_formed.
    cbn [document next_nid]. rewrite Hdoc.
    split; [split|].
    + unfold unique_ids. rewrite unique_ids_update; [exact Hud|reflexivity].
    + apply allocated_update; [reflexivity|]. exact Hald.
    + apply (same_outside_trans _ _ d_c); [exact Hfc|].
      apply (same_outside_trans _ _ d_d); [exact Hfd|].
      apply (frame_update block _ _ _ (ancb, play_button n) Hud);
        [reflexivity | apply Hkeep, Hkbtn | reflexivity
        | apply inside_of_below, Hbbtn].
Qed.

(** The last step keeps a page well formed and works inside the block. *)
Lemma decorate_alignment_inv st block :
  well_formed st ->
  exists st',
    decorate_alignment block st = Returned tt st'
    /\ well_formed st'
    /\ same_outside block (document st) (document st').
Proof.
  intros [Hu Hal]. unfold decorate_alignment, bind, get_document.
  assert (Hsame : exists st',
             Returned tt st = Returned tt st' /\ well_formed st'
             /\ same_outside block (document st) (document st')).
  { exists st. split; [reflexivity|].
    split; [split; assumption | apply same_outside_refl]. }
  destruct (querySelector (document st) block (Sel (SClass "video-text")))
    as [t|] eqn:Hq; [|exact Hsame].
  destruct (previousElementSibling _ _); [exact Hsame|].
  destruct (querySelector_key _ _ _ _ Hq) as (k & Hk & Es & Hb & _).
  eexists. split; [reflexivity|]. unfold well_formed.
  cbn [document set_document next_nid].
  split; [split|].
  - unfold unique_ids. rewrite unique_ids_update; [exact Hu|].
    apply nid_classList_add.
  - apply allocated_update; [apply nid_classList_add | exact Hal].
  - apply (frame_update block _ _ _ k Hu (nid_classList_add _) Hk);
      [congruence | apply inside_of_below, Hb].
Qed.

(** X18. On a well-formed page whose block is a [div] with a row,
    [decorate] returns, the page stays well formed, and nothing outside the
    block changes: the elements that are neither the block nor below it
    are the same afterwards, with the same classes, attributes, listeners
    and ancestors, and none is added. *)
Theorem decorate_leaves_outside {B : Browser} st block row :
  well_formed st ->
  block_is_div block (document st) ->
  (subtree (document st) block
     ≫= (fun b => first (List.filter is_element (children_of b)))) = Some row ->
  exists st',
    decorate block st = Returned tt st'
    /\ well_formed st'
    /\ forall k, inside block k = false ->
                 (In k (keys (document st) []) <-> In k (keys (document st') [])).
Proof.
  intros [Hu Hal] Hb Hrow. unfold decorate.
  destruct (decorate_columns_inv st block (next_nid st) row
              (conj Hu (conj Hb Hal)) Hrow)
    as (st1 & H1 & Hinv1 & N1 & F1).
  destruct (decorate_text_inv st1 block _ Hinv1) as (st2 & H2 & Hinv2 & N2 & F2).
  destruct (decorate_picture_inv st2 block _ Hinv2)
    as (st3 & H3 & Hinv3 & N3 & F3).
  assert (Hwf3 : well_formed st3).
  { destruct Hinv3 as (U & _ & A). split; [exact U|].
    replace (next_nid st3) with (next_nid st) by congruence. exact A. }
  destruct (decorate_link_inv st3 block Hwf3) as (st4 & H4 & Hwf4 & F4).
  destruct (decorate_alignment_inv st4 block Hwf4) as (st5 & H5 & Hwf5 & F5).
  exists st5.
  rewrite (bind_returned _ _ _ _ _ H1), (bind_returned _ _ _ _ _ H2),
    (bind_returned _ _ _ _ _ H3), (bind_returned _ _ _ _ _ H4).
  split; [exact H5|]. split; [exact Hwf5|].
  change (same_outside block (document st) (document st5)).
  eapply same_outside_trans; [exact F1|].
  eapply same_outside_trans; [exact F2|].
  eapply same_outside_trans; [exact F3|].
  eapply same_outside_trans; [exact F4|exact F5].
Qed.

Lemma decorate_leaves_outside_witness :
  exists st',
    decorate (B := serialised_links) 5 (teaser_state false yt_href)
    = Returned tt st'
    /\ well_formed st'
    /\ forall k, inside 5 k = false ->
                 (In k (keys (document (teaser_state false yt_href)) [])
                  <-> In k (keys (document st') [])).
Proof.
  refine (decorate_leaves_outside (B := serialised_links)
            (teaser_state false yt_href) 5
            (El (sample_el 6 "div" [] [])
               [ El (sample_el 7 "div" [] [])
                   [ El (sample_el 8 "p" [] [])
                       [ El (sample_el 9 "picture" [] [])
                           [ El (sample_el 10 "img" []
                                   [("src", "/poster.jpg")]) [] ] ];
                     El (sample_el 11 "p" [] [])
                       [ El (sample_el 12 "a" [] [("href", yt_href)])
                           [Text yt_href] ] ] ]) _ _ _).
  - split; [apply unique_ids_check | apply allocated_check];
      vm_compute; reflexivity.
  - apply block_is_div_check. vm_compute. reflexivity.
  - vm_compute. reflexivity.
Defined.
